(** * Build-time resolver transform (packages/compat/src/resolver-transform.ts)

    A shallow embedding of the template AST transform that resolves
    components, helpers and modifiers at build time, and the properties
    of its scope stack, locator classification and binding emission. *)

From Stdlib Require Import ZArith Lia Ascii String.
From stdpp Require Import base option list strings gmap.

Open Scope string_scope.
Open Scope list_scope.
Set Warnings "-register-all".

(** ** JavaScript array and string primitives used by the transform *)

Module JS.

(** [s.split(c)] for a one-character separator: never empty, [""] on the
    empty string, an empty piece between two adjacent separators. *)
Fixpoint split (c : ascii) (s : string) : list string :=
  match s with
  | EmptyString => [EmptyString]
  | String a s' =>
      if Ascii.eqb a c then EmptyString :: split c s'
      else match split c s' with
           | [] => [String a EmptyString]
           | p :: ps => String a p :: ps
           end
  end.

(** [arr.indexOf(x)]: the first index holding [x]; [None] stands for -1. *)
Fixpoint indexOf (arr : list string) (x : string) : option nat :=
  match arr with
  | [] => None
  | y :: arr' => if decide (y = x) then Some 0 else S <$> indexOf arr' x
  end.

(** [arr.includes(x)] *)
Definition includes (arr : list string) (x : string) : bool :=
  bool_decide (x ∈ arr).

(** [arr[arr.length - 1]] on an array known to be non-empty ([split]). *)
Definition last_part (arr : list string) : string := List.last arr "".

End JS.

(** ** Data model *)

(** A source location: opaque to the transform, only handed on. *)
Definition Loc := nat.

(** Modelled from the spec: the type declarations of ./resolver, which the
    transform imports, are not part of the sources at hand. A resolved
    dependency is a module on disk with the name it has at run time. *)
Record ResolvedDep := mkDep { absPath : string; runtimeName : string }.

(** Modelled from the spec: one positional slot of [yieldsComponents] is a
    boolean or an object of booleans keyed by field name. *)
Inductive YieldsComponent :=
| YCFlag (b : bool)
| YCFields (fields : gmap string bool).

(** Modelled from the spec: one positional slot of [yieldsArguments] is the
    name of the forwarded argument or an object of such names. *)
Inductive YieldsArgument :=
| YAName (arg : string)
| YAFields (fields : gmap string string).

(** Modelled from the spec: the component resolution of ./resolver. *)
Record ComponentResolution := mkComponent {
  jsModule : option ResolvedDep;
  hbsModule : option ResolvedDep;
  yieldsComponents : list YieldsComponent;
  yieldsArguments : list YieldsArgument;
  argumentsAreComponents : list string;
  nameHint : string
}.

(** Modelled from the spec: helper and modifier resolutions carry one module. *)
Record ModuleResolution := mkModuleRes {
  res_module : ResolvedDep;
  res_nameHint : string
}.

(** Modelled from the spec: a failed resolution (message and location). *)
Record ResolutionFail := mkFail {
  fail_message : string;
  fail_detail : string;
  fail_loc : Loc
}.

(** Modelled from the spec: [Resolution] is the closed union of the four
    tagged results; [null] is [None] of [option Resolution]. *)
Inductive Resolution :=
| ResComponent (r : ComponentResolution)
| ResHelper (r : ModuleResolution)
| ResModifier (r : ModuleResolution)
| ResError (r : ResolutionFail).

(** Modelled from the spec: how a dynamically supplied value names its target. *)
Inductive ComponentLocator :=
| LocLiteral (path : string)
| LocPath (path : string)
| LocOther.

(** [impliedBecause]: the component and argument a value was found under.
    The component name is [node.path.parts[0]] in block position, which
    JavaScript leaves undefined on a path without parts. *)
Definition ImpliedBecause : Type := option string * string.

(** The template AST (ASTv1 of @glimmer/syntax), one constructor per node
    type; the handlers dispatch on it as the source does on [node.type].
    A [hash] is given by its list of [HashPair]s. *)
Inductive Node :=
| Template (body : list Node) (blockParams : list string) (loc : Loc)
| Block (body : list Node) (blockParams : list string) (loc : Loc)
| MustacheStatement (path : Node) (params : list Node) (hash : list Node) (loc : Loc)
| BlockStatement (path : Node) (params : list Node) (hash : list Node)
                 (program : Node) (inverse : option Node) (loc : Loc)
| ElementModifierStatement (path : Node) (params : list Node) (hash : list Node) (loc : Loc)
| ElementNode (tag : string) (attributes : list Node) (modifiers : list Node)
              (children : list Node) (comments : list Node)
              (blockParams : list string) (loc : Loc)
| AttrNode (name : string) (value : Node) (loc : Loc)
| TextNode (chars : string) (loc : Loc)
| ConcatStatement (parts : list Node) (loc : Loc)
| CommentStatement (value : string) (loc : Loc)
| MustacheCommentStatement (value : string) (loc : Loc)
| SubExpression (path : Node) (params : list Node) (hash : list Node) (loc : Loc)
| PathExpression (original : string) (this : bool) (data : bool)
                 (parts : list string) (loc : Loc)
| StringLiteral (value : string) (loc : Loc)
| BooleanLiteral (value : bool) (loc : Loc)
| NumberLiteral (value : Z) (loc : Loc)
| UndefinedLiteral (loc : Loc)
| NullLiteral (loc : Loc)
| HashPair (key : string) (value : Node) (loc : Loc).

Definition node_loc (n : Node) : Loc :=
  match n with
  | Template _ _ l | Block _ _ l | MustacheStatement _ _ _ l
  | BlockStatement _ _ _ _ _ l | ElementModifierStatement _ _ _ l
  | ElementNode _ _ _ _ _ _ l | AttrNode _ _ l | TextNode _ l
  | ConcatStatement _ l | CommentStatement _ l | MustacheCommentStatement _ l
  | SubExpression _ _ _ l | PathExpression _ _ _ _ l | StringLiteral _ l
  | BooleanLiteral _ l | NumberLiteral _ l | UndefinedLiteral l
  | NullLiteral l | HashPair _ _ l => l
  end.

(** ** The Resolver, the import binder and the AST builders *)

(** What the transform asks of its collaborators and tells them, in order. *)
Inductive Event :=
| EvResolveMustache (name : string) (hasArgs : bool) (file : string) (loc : Loc)
| EvResolveSubExpression (name file : string) (loc : Loc)
| EvResolveElementModifierStatement (name file : string) (loc : Loc)
| EvResolveElement (tag file : string) (loc : Loc)
| EvResolveComponentHelper (locator : ComponentLocator) (moduleName : string)
                           (loc : Loc) (impliedBecause : option ImpliedBecause)
| EvResolveDynamicHelper (locator : ComponentLocator) (moduleName : string) (loc : Loc)
| EvResolveDynamicModifier (locator : ComponentLocator) (moduleName : string) (loc : Loc)
| EvReportError (failure : ResolutionFail) (filename contents : string)
| EvBindImport (moduleSpecifier exportedName nameHint boundName : string)
| EvEmitExpression (moduleSpecifier exportedName nameHint runtimeName : string).

(** Modelled from the spec: the Resolver of ./resolver, whose answers are a
    function of what it is asked. Its [resolveDynamicHelper],
    [resolveDynamicModifier] and [reportError] return nothing the transform
    uses; they appear as events only. *)
Record Resolver := mkResolver {
  resolveMustache : string → bool → string → Loc → option Resolution;
  resolveSubExpression : string → string → Loc → option Resolution;
  resolveElementModifierStatement : string → string → Loc → option Resolution;
  resolveElement : string → string → Loc → option Resolution;
  resolveComponentHelper :
    ComponentLocator → string → Loc → option ImpliedBecause → option Resolution
}.

Record Options := mkOptions {
  resolver : Resolver;
  patchHelpersBug : bool
}.

(** [meta.jsutils] of babel-plugin-ember-template-compilation: the local name
    [bindImport] chooses may depend on everything that happened before and
    on the node the import is bound for. *)
Record JSUtils := mkJSUtils {
  bindImport : list Event → string → string → Node → string → string
}.

Record Env := mkEnv {
  filename : string;
  contents : string;
  jsutils : JSUtils;
  strict : option bool;
  locals : option (list string)
}.

(** [explicitRelative] of @embroider/core and [dirname] of path. *)
Record PathLib := mkPathLib {
  explicitRelative : string → string → string;
  dirname : string → string
}.

(** [syntax.builders] of @glimmer/syntax, for the two nodes the transform
    builds: a path from a name, and a mustache around a path. *)
Module builders.

Definition synthetic_loc : Loc := 0.

Definition path (original : string) : Node :=
  match JS.split "." original with
  | "this" :: tail => PathExpression original true false tail synthetic_loc
  | parts => PathExpression original false false parts synthetic_loc
  end.

Definition mustache (path : Node) : Node :=
  MustacheStatement path [] [] synthetic_loc.

End builders.

(** ** Scope entries and the state of one traversal *)

(** The [exit] closure of a marker. Both closures of the source call
    [handleDynamicComponentArguments] on the attributes of the node that
    entered the block: a block statement captures its [rootName], an
    element reads its own [tag] when the closure runs. *)
Inductive ExitClosure :=
| ExitBlockStatement (rootName : option string)
| ExitElementNode.

Record ComponentBlockMarker := mkMarker {
  marker_resolution : ComponentResolution;
  marker_argumentsAreComponents : list string;
  marker_exit : ExitClosure
}.

Inductive ScopeEntry :=
| BlockParamsEntry (blockParams : list string)
| MarkerEntry (marker : ComponentBlockMarker).

(** Everything [resolverTransform] allocates per document, with the trace
    of the calls made to the collaborators. The head of [scopeStack] is
    index 0 of the array ([unshift] and [shift] work there). *)
Record State := mkState {
  scopeStack : list ScopeEntry;
  emittedAMDDeps : gset string;
  emittedLexicalBindings : gmap string Resolution;
  trace : list Event
}.

Definition initial_state : State := mkState [] ∅ ∅ [].

(** ** A state monad for the handlers *)

Inductive Stuck := OutOfFuel | ForeignExit.

Inductive Res (A : Type) :=
| Ok (a : A) (st : State)
| Err (e : Stuck).
Arguments Ok {A} a st.
Arguments Err {A} e.

Definition M (A : Type) : Type := State → Res A.

Definition ret {A} (a : A) : M A := fun st => Ok a st.

Definition bind {A B} (m : M A) (k : A → M B) : M B :=
  fun st => match m st with
            | Ok a st' => k a st'
            | Err e => Err e
            end.

Definition stuck {A} (e : Stuck) : M A := fun _ => Err e.

Declare Scope tx_scope.
Delimit Scope tx_scope with tx.
Notation "'let*' x ':=' m 'in' k" := (bind m (fun x => k))
  (at level 10, x name, m at level 100, k at level 200) : tx_scope.
Notation "m ';;;' k" := (bind m (fun _ => k))
  (at level 100, k at level 200, right associativity) : tx_scope.
Open Scope tx_scope.

Definition get : M State := fun st => Ok st st.

Definition log (e : Event) : M unit :=
  fun st => Ok tt (mkState (scopeStack st) (emittedAMDDeps st)
                           (emittedLexicalBindings st) (trace st ++ [e])).

Definition with_stack (s : list ScopeEntry) (st : State) : State :=
  mkState s (emittedAMDDeps st) (emittedLexicalBindings st) (trace st).

Definition set_stack (s : list ScopeEntry) : M unit :=
  fun st => Ok tt (with_stack s st).

Definition add_amd (name : string) : M unit :=
  fun st => Ok tt (mkState (scopeStack st) ({[name]} ∪ emittedAMDDeps st)
                           (emittedLexicalBindings st) (trace st)).

Definition set_binding (name : string) (r : Resolution) : M unit :=
  fun st => Ok tt (mkState (scopeStack st) (emittedAMDDeps st)
                           (<[name := r]> (emittedLexicalBindings st)) (trace st)).

(** ** class ScopeStack *)

Module ScopeStack.

(** [push(blockParams)]: as we enter a block its params come into scope. *)
Definition push (blockParams : list string) : M unit :=
  let* st := get in
  set_stack (BlockParamsEntry blockParams :: scopeStack st).

(** [pop()]: the block's params go out of scope; if the entry then on top
    is a marker, its [exit] is called on it while it is still on the
    stack, and then it is removed too. [exit] may change what its closure
    captured, here the value [a]. *)
Definition pop {A} (exit : ComponentBlockMarker → A → M A) (a : A) : M A :=
  let* st := get in
  set_stack (tail (scopeStack st)) ;;;
  let* st := get in
  match scopeStack st with
  | MarkerEntry next :: _ =>
      let* a' := exit next a in
      let* st := get in
      set_stack (tail (scopeStack st)) ;;;
      ret a'
  | _ => ret a
  end.

(** [enteringComponentBlock(resolution, exit)]: the marker gets its own copy
    ([slice]) of the resolution's [argumentsAreComponents]. *)
Definition enteringComponentBlock (resolution : ComponentResolution)
    (exit : ExitClosure) : M unit :=
  let* st := get in
  set_stack (MarkerEntry (mkMarker resolution (argumentsAreComponents resolution) exit)
             :: scopeStack st).

Definition inScope_stack (name : string) (stack : list ScopeEntry) : bool :=
  existsb (fun scope => match scope with
                        | BlockParamsEntry blockParams => JS.includes blockParams name
                        | MarkerEntry _ => false
                        end) stack.

(** [inScope(name)] *)
Definition inScope (name : string) : M bool :=
  let* st := get in ret (inScope_stack name (scopeStack st)).

(** [next.argumentsAreComponents.push(sourceArg)] *)
Definition push_argument (next : ComponentBlockMarker) (sourceArg : string)
  : ComponentBlockMarker :=
  mkMarker (marker_resolution next)
           (marker_argumentsAreComponents next ++ [sourceArg])
           (marker_exit next).

(** The body of the loop of [safeComponentInScope] once [positionalIndex]
    is found: [part1] is [None] when [parts.length === 1] and [parts[1]]
    otherwise. The result is the value returned and the marker after it. *)
Definition covered_by (next : ComponentBlockMarker) (positionalIndex : nat)
    (part1 : option string) : bool * ComponentBlockMarker :=
  let resolution := marker_resolution next in
  match part1 with
  | None =>
      match yieldsComponents resolution !! positionalIndex with
      | Some (YCFlag true) => (true, next)
      | _ =>
          match yieldsArguments resolution !! positionalIndex with
          | Some (YAName sourceArg) => (true, push_argument next sourceArg)
          | _ => (false, next)
          end
      end
  | Some p1 =>
      match yieldsComponents resolution !! positionalIndex with
      | Some (YCFields entry) => (bool_decide (entry !! p1 = Some true), next)
      | _ =>
          match yieldsArguments resolution !! positionalIndex with
          | Some (YAFields argsEntry) =>
              match argsEntry !! p1 with
              | Some sourceArg => (true, push_argument next sourceArg)
              | None => (false, next)
              end
          | _ => (false, next)
          end
      end
  end.

(** The loop of [safeComponentInScope] over the adjacent pairs
    [stack[i]], [stack[i + 1]], from index 0 on. *)
Fixpoint scan (part0 : string) (part1 : option string) (stack : list ScopeEntry)
  : bool * list ScopeEntry :=
  match stack with
  | here :: rest =>
      match here, rest with
      | BlockParamsEntry blockParams, MarkerEntry next :: above =>
          match JS.indexOf blockParams part0 with
          | None =>
              let '(safe, rest') := scan part0 part1 rest in (safe, here :: rest')
          | Some positionalIndex =>
              let '(safe, next') := covered_by next positionalIndex part1 in
              (safe, here :: MarkerEntry next' :: above)
          end
      | _, _ =>
          let '(safe, rest') := scan part0 part1 rest in (safe, here :: rest')
      end
  | [] => (false, [])
  end.

(** [safeComponentInScope(name)] on the array: [split] never returns an
    empty array, so the last case is a path of more than two segments. *)
Definition safeComponentInScope_stack (name : string) (stack : list ScopeEntry)
  : bool * list ScopeEntry :=
  match JS.split "." name with
  | [part0] => scan part0 None stack
  | [part0; part1] => scan part0 (Some part1) stack
  | _ => (false, stack)
  end.

Definition safeComponentInScope (name : string) : M bool :=
  let* st := get in
  let '(safe, stack') := safeComponentInScope_stack name (scopeStack st) in
  set_stack stack' ;;;
  ret safe.

End ScopeStack.

(** ** The locator classifier *)

(** [param.path.type === 'PathExpression' && param.path.original === name] *)
Definition is_path_named (name : string) (path : Node) : bool :=
  match path with
  | PathExpression original _ _ _ _ => bool_decide (original = name)
  | _ => false
  end.

Section Classifier.

Variable resolver : Resolver.

(** The end of [handleComponentHelper], reached with a [locator]. *)
Definition resolve_locator (locator : ComponentLocator) (param : Node)
    (moduleName : string) (impliedBecause : option ImpliedBecause)
  : M (option Resolution) :=
  let* safe := match locator with
               | LocPath path => ScopeStack.safeComponentInScope path
               | _ => ret false
               end in
  if (safe : bool) then ret None
  else
    log (EvResolveComponentHelper locator moduleName (node_loc param) impliedBecause) ;;;
    ret (resolveComponentHelper resolver locator moduleName (node_loc param) impliedBecause).

Fixpoint handleComponentHelper (param : Node) (moduleName : string)
    (impliedBecause : option ImpliedBecause) : M (option Resolution) :=
  match param with
  | StringLiteral value _ =>
      resolve_locator (LocLiteral value) param moduleName impliedBecause
  | PathExpression original _ _ _ _ =>
      resolve_locator (LocPath original) param moduleName impliedBecause
  | MustacheStatement path params hash _ =>
      if bool_decide (length hash = 0) && bool_decide (length params = 0) then
        handleComponentHelper path moduleName impliedBecause
      else if is_path_named "component" path then
        (* safe because this inner {{component ...}} is handled on its own *)
        ret None
      else resolve_locator LocOther param moduleName impliedBecause
  | TextNode chars _ =>
      resolve_locator (LocLiteral chars) param moduleName impliedBecause
  | SubExpression path _ _ _ =>
      if is_path_named "component" path then ret None
      else if is_path_named "ensure-safe-component" path then ret None
      else resolve_locator LocOther param moduleName impliedBecause
  | _ => resolve_locator LocOther param moduleName impliedBecause
  end.

Definition handleDynamicHelper (param : Node) (moduleName : string) : M unit :=
  match param with
  | StringLiteral value loc =>
      log (EvResolveDynamicHelper (LocLiteral value) moduleName loc)
  | _ => ret tt
  end.

Definition handleDynamicModifier (param : Node) (moduleName : string) : M unit :=
  match param with
  | StringLiteral value loc =>
      log (EvResolveDynamicModifier (LocLiteral value) moduleName loc)
  | _ => ret tt
  end.

End Classifier.

(** ** The transform of one document *)

(** Field updates done by the setters handed to [emit]. *)
Definition set_path (node newId : Node) : Node :=
  match node with
  | MustacheStatement _ params hash loc => MustacheStatement newId params hash loc
  | BlockStatement _ params hash program inverse loc =>
      BlockStatement newId params hash program inverse loc
  | ElementModifierStatement _ params hash loc =>
      ElementModifierStatement newId params hash loc
  | SubExpression _ params hash loc => SubExpression newId params hash loc
  | other => other
  end.

(** [node.params[0] = newId]; the callers have checked [params.length > 0]. *)
Definition set_param0 (node newId : Node) : Node :=
  match node with
  | MustacheStatement path params hash loc =>
      MustacheStatement path (<[0 := newId]> params) hash loc
  | BlockStatement path params hash program inverse loc =>
      BlockStatement path (<[0 := newId]> params) hash program inverse loc
  | SubExpression path params hash loc =>
      SubExpression path (<[0 := newId]> params) hash loc
  | other => other
  end.

Definition path_original (path : Node) : string :=
  match path with
  | PathExpression original _ _ _ _ => original
  | _ => ""
  end.

(** [node.tag = newId.original] *)
Definition set_tag (node newId : Node) : Node :=
  match node with
  | ElementNode _ attributes modifiers children comments blockParams loc =>
      ElementNode (path_original newId) attributes modifiers children comments
                  blockParams loc
  | other => other
  end.

(** The setter of [handleDynamicComponentArguments]. *)
Definition set_attr_value (node newId : Node) : Node :=
  match node with
  | AttrNode name _ loc => AttrNode name (builders.mustache newId) loc
  | HashPair key _ loc => HashPair key newId loc
  | other => other
  end.

Definition attr_value (attr : Node) : Node :=
  match attr with
  | AttrNode _ value _ | HashPair _ value _ => value
  | other => other
  end.

(** The predicate of [attributes.find] in [handleDynamicComponentArguments]. *)
Definition attr_is_named (name : string) (attr : Node) : bool :=
  match attr with
  | AttrNode attrName _ _ => bool_decide (attrName = "@" +:+ name)
  | HashPair key _ _ => bool_decide (key = name)
  | _ => false
  end.

(** [attributes.find(p)], with the place of what it found. *)
Fixpoint find_attr (name : string) (attributes : list Node) : option (nat * Node) :=
  match attributes with
  | [] => None
  | attr :: rest =>
      if attr_is_named name attr then Some (0, attr)
      else match find_attr name rest with
           | Some (i, found) => Some (S i, found)
           | None => None
           end
  end.

(** ** Visitors *)

(** What a handler can reach besides its node: through the [path] its
    closure captured, the exit closure of a block statement reaches the
    hash pairs of that statement while its [program] is being left. *)
Definition Owner : Type := option (list Node).

(** A handler works on the node in place; here it returns the node, and
    the owner's pairs, as they are afterwards. *)
Definition Handler : Type := Node → Owner → M (Node * Owner).

Record NodeTraversal := mkTraversal {
  enter : option Handler;
  exit : option Handler
}.

Record Visitor := mkVisitor {
  on_Program : option NodeTraversal;
  on_BlockStatement : option NodeTraversal;
  on_SubExpression : option NodeTraversal;
  on_MustacheStatement : option NodeTraversal;
  on_ElementModifierStatement : option NodeTraversal;
  on_ElementNode : option NodeTraversal
}.

(** A visitor entry that is a plain function is called on entering. *)
Definition on_enter (h : Handler) : option NodeTraversal :=
  Some (mkTraversal (Some h) None).

(** [visitor: {}] *)
Definition empty_visitor : Visitor := mkVisitor None None None None None None.

Record Plugin := mkPlugin {
  plugin_name : string;
  visitor : Visitor
}.

Definition node_blockParams (node : Node) : list string :=
  match node with
  | Template _ blockParams _ | Block _ blockParams _
  | ElementNode _ _ _ _ _ blockParams _ => blockParams
  | _ => []
  end.

Definition node_hash (node : Node) : list Node :=
  match node with
  | MustacheStatement _ _ hash _ | BlockStatement _ _ hash _ _ _
  | ElementModifierStatement _ _ hash _ | SubExpression _ _ hash _ => hash
  | _ => []
  end.

Definition set_hash (node : Node) (hash : list Node) : Node :=
  match node with
  | MustacheStatement path params _ loc => MustacheStatement path params hash loc
  | BlockStatement path params _ program inverse loc =>
      BlockStatement path params hash program inverse loc
  | ElementModifierStatement path params _ loc =>
      ElementModifierStatement path params hash loc
  | SubExpression path params _ loc => SubExpression path params hash loc
  | other => other
  end.

Definition node_path (node : Node) : Node :=
  match node with
  | MustacheStatement path _ _ _ | BlockStatement path _ _ _ _ _
  | ElementModifierStatement path _ _ _ | SubExpression path _ _ _ => path
  | other => other
  end.

(** [node.tag.split('.')[0]] *)
Definition tag_root (tag : string) : string :=
  match JS.split "." tag with
  | root :: _ => root
  | [] => ""
  end.

(** [original === name && params.length > 0], with [params[0]] when so. *)
Definition keyword_argument (name original : string) (params : list Node)
  : option Node :=
  if bool_decide (original = name) then head params else None.

Section Transform.

Variable opts : Options.
Variable env : Env.
Variable pathlib : PathLib.

Definition relativeToFile (absPath : string) : string :=
  explicitRelative pathlib (dirname pathlib (filename env)) absPath.

Definition emitAMD (dep : option ResolvedDep) : M unit :=
  match dep with
  | Some dep =>
      let* st := get in
      if bool_decide (runtimeName dep ∈ emittedAMDDeps st) then ret tt
      else
        let parts := JS.split "/" (runtimeName dep) in
        log (EvEmitExpression (relativeToFile (absPath dep)) "default"
                              (JS.last_part parts) (runtimeName dep)) ;;;
        add_amd (runtimeName dep)
  | None => ret tt
  end.

(** The three statements shared by the lexical branches of [emit]:
    [bindImport], remember the binding, run the setter. *)
Definition bind_lexically (parentNode : Node) (absPath nameHint : string)
    (resolution : Resolution) (setter : Node → Node → Node) : M Node :=
  let* st := get in
  let name := bindImport (jsutils env) (trace st) (relativeToFile absPath)
                         "default" parentNode nameHint in
  log (EvBindImport (relativeToFile absPath) "default" nameHint name) ;;;
  set_binding name resolution ;;;
  ret (setter parentNode (builders.path name)).

(** [emit(parentPath, resolution, setter)]; the result is [parentPath.node]
    after it. *)
Definition emit (parentNode : Node) (resolution : option Resolution)
    (setter : Node → Node → Node) : M Node :=
  match resolution with
  | Some (ResError failure) =>
      log (EvReportError failure (filename env) (contents env)) ;;;
      ret parentNode
  | Some (ResHelper r) =>
      if patchHelpersBug opts then
        emitAMD (Some (res_module r)) ;;; ret parentNode
      else
        bind_lexically parentNode (absPath (res_module r)) (res_nameHint r)
                       (ResHelper r) setter
  | Some (ResModifier r) =>
      bind_lexically parentNode (absPath (res_module r)) (res_nameHint r)
                     (ResModifier r) setter
  | Some (ResComponent r) =>
      match jsModule r, hbsModule r with
      | Some js, None =>
          bind_lexically parentNode (absPath js) (nameHint r) (ResComponent r) setter
      | _, _ =>
          emitAMD (hbsModule r) ;;;
          emitAMD (jsModule r) ;;;
          ret parentNode
      end
  | None => ret parentNode
  end.

Fixpoint handleDynamicComponentArguments (componentName : option string)
    (argumentsAreComponents : list string) (attributes : list Node)
  : M (list Node) :=
  match argumentsAreComponents with
  | [] => ret attributes
  | name :: names =>
      let* attributes' :=
        match find_attr name attributes with
        | Some (i, attr) =>
            let* resolution :=
              handleComponentHelper (resolver opts) (attr_value attr) (filename env)
                                    (Some (componentName, name)) in
            let* attr' := emit attr resolution set_attr_value in
            ret (<[i := attr']> attributes)
        | None => ret attributes
        end in
      handleDynamicComponentArguments componentName names attributes'
  end.

(** [scopeStack.inScope(parts[0])]: no array of names includes [undefined]. *)
Definition inScope_root (rootName : option string) : M bool :=
  match rootName with
  | Some name => ScopeStack.inScope name
  | None => ret false
  end.

(** [emittedLexicalBindings.get(rootName)] *)
Definition lexical_binding (rootName : option string) : M (option Resolution) :=
  let* st := get in
  ret (match rootName with
       | Some name => emittedLexicalBindings st !! name
       | None => None
       end).

(** [if (resolution?.type === 'component') scopeStack.enteringComponentBlock(...)] *)
Definition enter_if_component (resolution : option Resolution)
    (exit : ExitClosure) : M unit :=
  match resolution with
  | Some (ResComponent r) => ScopeStack.enteringComponentBlock r exit
  | _ => ret tt
  end.

(** The exit closures; each finds the attributes it captured with the node
    being left, which is where the traversal calls [pop] for the block
    that the closure's marker was entered for. *)
Definition exit_of_block (marker : ComponentBlockMarker) (owner : Owner) : M Owner :=
  match marker_exit marker, owner with
  | ExitBlockStatement rootName, Some pairs =>
      let* pairs' := handleDynamicComponentArguments rootName
                       (marker_argumentsAreComponents marker) pairs in
      ret (Some pairs')
  | _, _ => stuck ForeignExit
  end.

Definition exit_of_element (marker : ComponentBlockMarker) (node : Node) : M Node :=
  match marker_exit marker, node with
  | ExitElementNode, ElementNode tag attributes modifiers children comments blockParams loc =>
      let* attributes' := handleDynamicComponentArguments (Some tag)
                            (marker_argumentsAreComponents marker) attributes in
      ret (ElementNode tag attributes' modifiers children comments blockParams loc)
  | _, _ => stuck ForeignExit
  end.

Definition Program_enter : Handler := fun node owner =>
  match locals env with
  | Some names => ScopeStack.push names
  | None => ret tt
  end ;;;
  ScopeStack.push (node_blockParams node) ;;;
  ret (node, owner).

Definition Program_exit : Handler := fun node owner =>
  let* owner := ScopeStack.pop exit_of_block owner in
  let* owner := match locals env with
                | Some _ => ScopeStack.pop exit_of_block owner
                | None => ret owner
                end in
  ret (node, owner).

Definition BlockStatement_handler : Handler := fun node owner =>
  match node with
  | BlockStatement (PathExpression original this _ parts pathLoc) params _ _ _ _ =>
      let rootName := head parts in
      let* scoped := inScope_root rootName in
      if (scoped : bool) then
        let* resolution := lexical_binding rootName in
        enter_if_component resolution (ExitBlockStatement rootName) ;;;
        ret (node, owner)
      else if this then ret (node, owner)
      else if bool_decide (1 < length parts) then ret (node, owner)
      else
        match keyword_argument "component" original params with
        | Some param0 =>
            let* resolution :=
              handleComponentHelper (resolver opts) param0 (filename env) None in
            let* node' := emit node resolution set_param0 in
            ret (node', owner)
        | None =>
            (* a block counts as args: hasArgs is true *)
            log (EvResolveMustache original true (filename env) pathLoc) ;;;
            let resolution :=
              resolveMustache (resolver opts) original true (filename env) pathLoc in
            let* node' := emit node resolution set_path in
            enter_if_component resolution (ExitBlockStatement rootName) ;;;
            ret (node', owner)
        end
  | _ => ret (node, owner)
  end.

Definition SubExpression_handler : Handler := fun node owner =>
  match node with
  | SubExpression (PathExpression original this _ parts pathLoc) params _ _ =>
      if this then ret (node, owner)
      else
        let* scoped := inScope_root (head parts) in
        if (scoped : bool) then ret (node, owner)
        else
          match keyword_argument "component" original params with
          | Some param0 =>
              let* resolution :=
                handleComponentHelper (resolver opts) param0 (filename env) None in
              let* node' := emit node resolution set_param0 in
              ret (node', owner)
          | None =>
              match keyword_argument "helper" original params with
              | Some param0 =>
                  handleDynamicHelper param0 (filename env) ;;; ret (node, owner)
              | None =>
                  match keyword_argument "modifier" original params with
                  | Some param0 =>
                      handleDynamicModifier param0 (filename env) ;;; ret (node, owner)
                  | None =>
                      log (EvResolveSubExpression original (filename env) pathLoc) ;;;
                      let resolution :=
                        resolveSubExpression (resolver opts) original (filename env)
                                             pathLoc in
                      let* node' := emit node resolution set_path in
                      ret (node', owner)
                  end
              end
          end
  | _ => ret (node, owner)
  end.

Definition MustacheStatement_enter : Handler := fun node owner =>
  match node with
  | MustacheStatement (PathExpression original this _ parts pathLoc) params hash _ =>
      let rootName := head parts in
      let* scoped := inScope_root rootName in
      if (scoped : bool) then
        let* resolution := lexical_binding rootName in
        match resolution with
        | Some (ResComponent r) =>
            let* pairs := handleDynamicComponentArguments rootName
                            (argumentsAreComponents r) hash in
            ret (set_hash node pairs, owner)
        | _ => ret (node, owner)
        end
      else if this then ret (node, owner)
      else if bool_decide (1 < length parts) then ret (node, owner)
      else
        match keyword_argument "component" original params with
        | Some param0 =>
            let* resolution :=
              handleComponentHelper (resolver opts) param0 (filename env) None in
            let* node' := emit node resolution set_param0 in
            ret (node', owner)
        | None =>
            match keyword_argument "helper" original params with
            | Some param0 =>
                handleDynamicHelper param0 (filename env) ;;; ret (node, owner)
            | None =>
                let hasArgs := bool_decide (0 < length params)
                               || bool_decide (0 < length hash) in
                log (EvResolveMustache original hasArgs (filename env) pathLoc) ;;;
                let resolution :=
                  resolveMustache (resolver opts) original hasArgs (filename env)
                                  pathLoc in
                let* node' := emit node resolution set_path in
                match resolution with
                | Some (ResComponent r) =>
                    let* pairs :=
                      handleDynamicComponentArguments
                        (Some (path_original (node_path node')))
                        (argumentsAreComponents r) (node_hash node') in
                    ret (set_hash node' pairs, owner)
                | _ => ret (node', owner)
                end
            end
        end
  | _ => ret (node, owner)
  end.

Definition ElementModifierStatement_handler : Handler := fun node owner =>
  match node with
  | ElementModifierStatement (PathExpression original this data parts pathLoc) _ _ _ =>
      let* scoped := inScope_root (head parts) in
      if (scoped : bool) then ret (node, owner)
      else if this then ret (node, owner)
      else if data then ret (node, owner)
      else if bool_decide (1 < length parts) then ret (node, owner)
      else
        log (EvResolveElementModifierStatement original (filename env) pathLoc) ;;;
        let resolution :=
          resolveElementModifierStatement (resolver opts) original (filename env)
                                          pathLoc in
        let* node' := emit node resolution set_path in
        ret (node', owner)
  | _ => ret (node, owner)
  end.

Definition ElementNode_enter : Handler := fun node owner =>
  match node with
  | ElementNode tag _ _ _ _ blockParams loc =>
      let rootName := tag_root tag in
      let* scoped := ScopeStack.inScope rootName in
      let* node' :=
        if (scoped : bool) then
          let* resolution := lexical_binding (Some rootName) in
          enter_if_component resolution ExitElementNode ;;;
          ret node
        else
          log (EvResolveElement tag (filename env) loc) ;;;
          let resolution := resolveElement (resolver opts) tag (filename env) loc in
          let* node' := emit node resolution set_tag in
          enter_if_component resolution ExitElementNode ;;;
          ret node' in
      ScopeStack.push blockParams ;;;
      ret (node', owner)
  | _ => ret (node, owner)
  end.

Definition ElementNode_exit : Handler := fun node owner =>
  let* node' := ScopeStack.pop exit_of_element node in
  ret (node', owner).

(** [resolverTransform(env)], for the [opts] given to [makeResolverTransform]. *)
Definition makeResolverTransform : Plugin :=
  match strict env with
  | Some true =>
      mkPlugin "embroider-build-time-resolver-strict-noop" empty_visitor
  | _ =>
      mkPlugin "embroider-build-time-resolver"
        (mkVisitor
           (Some (mkTraversal (Some Program_enter) (Some Program_exit)))
           (on_enter BlockStatement_handler)
           (on_enter SubExpression_handler)
           (Some (mkTraversal (Some MustacheStatement_enter) None))
           (on_enter ElementModifierStatement_handler)
           (Some (mkTraversal (Some ElementNode_enter) (Some ElementNode_exit))))
  end.

End Transform.

(** ** The traversal (traverse of @glimmer/syntax) *)

(** [getNodeHandler]: templates and blocks are handled by [Program]. *)
Definition getNodeHandler (v : Visitor) (node : Node) : option NodeTraversal :=
  match node with
  | Template _ _ _ | Block _ _ _ => on_Program v
  | BlockStatement _ _ _ _ _ _ => on_BlockStatement v
  | SubExpression _ _ _ _ => on_SubExpression v
  | MustacheStatement _ _ _ _ => on_MustacheStatement v
  | ElementModifierStatement _ _ _ _ => on_ElementModifierStatement v
  | ElementNode _ _ _ _ _ _ _ => on_ElementNode v
  | _ => None
  end.

Definition run_handler (h : option Handler) (node : Node) (owner : Owner)
  : M (Node * Owner) :=
  match h with
  | Some f => f node owner
  | None => ret (node, owner)
  end.

(** [visitArray] *)
Fixpoint visit_list (visit : Node → M Node) (nodes : list Node) : M (list Node) :=
  match nodes with
  | [] => ret []
  | node :: rest =>
      let* node' := visit node in
      let* rest' := visit_list visit rest in
      ret (node' :: rest')
  end.

(** [visitKey] over [visitorKeys[node.type]], in their order. Only the
    blocks of a block statement have an owner their handlers can reach. *)
Definition visit_keys (visit : Node → Owner → M (Node * Owner)) (node : Node)
  : M Node :=
  let child c := let* r := visit c None in ret (fst r) in
  let owned c hash :=
    let* r := visit c (Some hash) in
    ret (fst r, default hash (snd r)) in
  match node with
  | Template body blockParams loc =>
      let* body' := visit_list child body in
      ret (Template body' blockParams loc)
  | Block body blockParams loc =>
      let* body' := visit_list child body in
      ret (Block body' blockParams loc)
  | MustacheStatement path params hash loc =>
      let* path' := child path in
      let* params' := visit_list child params in
      let* hash' := visit_list child hash in
      ret (MustacheStatement path' params' hash' loc)
  | BlockStatement path params hash program inverse loc =>
      let* path' := child path in
      let* params' := visit_list child params in
      let* hash' := visit_list child hash in
      let* r := owned program hash' in
      match inverse with
      | Some block =>
          let* r' := owned block (snd r) in
          ret (BlockStatement path' params' (snd r') (fst r) (Some (fst r')) loc)
      | None =>
          ret (BlockStatement path' params' (snd r) (fst r) None loc)
      end
  | ElementModifierStatement path params hash loc =>
      let* path' := child path in
      let* params' := visit_list child params in
      let* hash' := visit_list child hash in
      ret (ElementModifierStatement path' params' hash' loc)
  | ElementNode tag attributes modifiers children comments blockParams loc =>
      let* attributes' := visit_list child attributes in
      let* modifiers' := visit_list child modifiers in
      let* children' := visit_list child children in
      let* comments' := visit_list child comments in
      ret (ElementNode tag attributes' modifiers' children' comments' blockParams loc)
  | AttrNode name value loc =>
      let* value' := child value in
      ret (AttrNode name value' loc)
  | ConcatStatement parts loc =>
      let* parts' := visit_list child parts in
      ret (ConcatStatement parts' loc)
  | SubExpression path params hash loc =>
      let* path' := child path in
      let* params' := visit_list child params in
      let* hash' := visit_list child hash in
      ret (SubExpression path' params' hash' loc)
  | HashPair key value loc =>
      let* value' := child value in
      ret (HashPair key value' loc)
  | leaf => ret leaf
  end.

(** [visitNode]: enter, the children of the node as it then is, exit. The
    handlers of this transform return nothing, so no node is replaced by a
    handler's result. [fuel] bounds the depth of the walk. *)
Fixpoint traverse (fuel : nat) (v : Visitor) (node : Node) (owner : Owner)
  : M (Node * Owner) :=
  match fuel with
  | 0 => stuck OutOfFuel
  | S fuel' =>
      let handler := getNodeHandler v node in
      let* entered := run_handler (handler ≫= enter) node owner in
      let* visited := visit_keys (traverse fuel' v) (fst entered) in
      run_handler (handler ≫= exit) visited (snd entered)
  end.

(** The depth of a tree: the fuel that walking it takes when no handler
    makes it deeper. *)
Definition max_of (heights : list nat) : nat := foldr Nat.max 0 heights.

Fixpoint height (node : Node) : nat :=
  let heights nodes := max_of (List.map height nodes) in
  match node with
  | Template body _ _ | Block body _ _ => S (heights body)
  | MustacheStatement path params hash _
  | ElementModifierStatement path params hash _
  | SubExpression path params hash _ =>
      S (Nat.max (height path) (Nat.max (heights params) (heights hash)))
  | BlockStatement path params hash program inverse _ =>
      S (Nat.max (height path)
          (Nat.max (heights params)
            (Nat.max (heights hash)
              (Nat.max (height program)
                       (match inverse with Some b => height b | None => 0 end)))))
  | ElementNode _ attributes modifiers children comments _ _ =>
      S (Nat.max (heights attributes)
          (Nat.max (heights modifiers)
            (Nat.max (heights children) (heights comments))))
  | AttrNode _ value _ | HashPair _ value _ => S (height value)
  | ConcatStatement parts _ => S (heights parts)
  | _ => 1
  end.

(** One run of the plugin over a document, from the state a fresh
    [resolverTransform(env)] starts in. *)
Definition transform (opts : Options) (env : Env) (pathlib : PathLib)
    (fuel : nat) (document : Node) : Res (Node * Owner) :=
  traverse fuel (visitor (makeResolverTransform opts env pathlib)) document None
           initial_state.

(** ** Vocabulary of the properties *)

(** A path of one segment: [name.split('.')] has length 1. *)
Definition one_segment (name : string) : Prop :=
  length (JS.split "." name) = 1.

(** Whether some adjacent (block params, marker) pair of [stack] has
    [name] among its block params: the pairs at which the loop of
    [safeComponentInScope] stops. *)
Fixpoint bound_by_marked_block (name : string) (stack : list ScopeEntry) : bool :=
  match stack with
  | here :: rest =>
      match here, rest with
      | BlockParamsEntry blockParams, MarkerEntry _ :: _ =>
          bool_decide (is_Some (JS.indexOf blockParams name))
          || bound_by_marked_block name rest
      | _, _ => bound_by_marked_block name rest
      end
  | [] => false
  end.

(** The operations of a scope stack, for runs of them. A pop comes with
    the paths its exit callback asks [safeComponentInScope] about. *)
Inductive Op :=
| OpPush (blockParams : list string)
| OpPop (asked : list string)
| OpEnter (resolution : ComponentResolution) (exit : ExitClosure)
| OpSafe (name : string).

Fixpoint ask_all (names : list string) : M unit :=
  match names with
  | [] => ret tt
  | name :: names' => ScopeStack.safeComponentInScope name ;;; ask_all names'
  end.

(** An exit callback as the scope stack sees the closures of the
    transform: through [handleComponentHelper] they ask whether some paths
    are safe, and do nothing else to the stack. This one also records the
    marker it is called on. *)
Definition asking_exit (asked : list string) (marker : ComponentBlockMarker)
    (called : list ComponentBlockMarker) : M (list ComponentBlockMarker) :=
  ask_all asked ;;; ret (called ++ [marker]).

Definition run_op (op : Op) (called : list ComponentBlockMarker)
  : M (list ComponentBlockMarker) :=
  match op with
  | OpPush blockParams => ScopeStack.push blockParams ;;; ret called
  | OpPop asked => ScopeStack.pop (asking_exit asked) called
  | OpEnter resolution exit =>
      ScopeStack.enteringComponentBlock resolution exit ;;; ret called
  | OpSafe name => ScopeStack.safeComponentInScope name ;;; ret called
  end.

(** The stack after asking about each of [names] in turn. *)
Definition asked_stack (names : list string) (stack : list ScopeEntry)
  : list ScopeEntry :=
  foldl (fun s name => (ScopeStack.safeComponentInScope_stack name s).2) stack names.

Fixpoint run_ops (ops : list Op) (called : list ComponentBlockMarker)
  : M (list ComponentBlockMarker) :=
  match ops with
  | [] => ret called
  | op :: ops' => let* called' := run_op op called in run_ops ops' called'
  end.

(** What tells one marker from another in a run: the block it was entered
    for. Its argument list is what changes while it is on the stack. *)
Definition marker_block (m : ComponentBlockMarker)
  : ComponentResolution * ExitClosure :=
  (marker_resolution m, marker_exit m).

Fixpoint markers_of (stack : list ScopeEntry) : list ComponentBlockMarker :=
  match stack with
  | MarkerEntry m :: rest => m :: markers_of rest
  | _ :: rest => markers_of rest
  | [] => []
  end.

Fixpoint entered_by (ops : list Op) : list (ComponentResolution * ExitClosure) :=
  match ops with
  | OpEnter resolution exit :: ops' => (resolution, exit) :: entered_by ops'
  | _ :: ops' => entered_by ops'
  | [] => []
  end.

Definition top_is_marker (stack : list ScopeEntry) : bool :=
  match stack with
  | MarkerEntry _ :: _ => true
  | _ => false
  end.

(** Every marker below the top of the stack has a block-params frame
    directly above it. *)
Fixpoint framed (stack : list ScopeEntry) : Prop :=
  match stack with
  | here :: rest =>
      match here, rest with
      | MarkerEntry _, MarkerEntry _ :: _ => False
      | _, _ => framed rest
      end
  | [] => True
  end.

(** Every marker, the top one too, sits directly below a frame. *)
Definition all_framed (stack : list ScopeEntry) : Prop :=
  top_is_marker stack = false ∧ framed stack.

(** Exits called so far and markers still on the stack account for the
    blocks entered, each once. *)
Definition accounted (ops : list Op) (called : list ComponentBlockMarker)
    (stack : list ScopeEntry) : Prop :=
  (marker_block <$> called) ++ (marker_block <$> markers_of stack)
  ≡ₚ entered_by ops.

(** The marker invariant read over every run of the operations from the
    empty stack. *)
Definition framed_in_every_run : Prop :=
  ∀ ops : list Op,
    ∃ called st, run_ops ops [] initial_state = Ok called st
                 ∧ all_framed (scopeStack st)
                 ∧ accounted ops called (scopeStack st).

(** The order the visitor keeps: once a marker is entered, the next
    operation is the [push] of the frame of the same block. *)
Fixpoint disciplined (ops : list Op) (called : list ComponentBlockMarker)
    (st : State) : Prop :=
  match ops with
  | [] => True
  | op :: ops' =>
      (top_is_marker (scopeStack st) = true → ∃ blockParams, op = OpPush blockParams)
      ∧ match run_op op called st with
        | Ok called' st' => disciplined ops' called' st'
        | Err _ => False
        end
  end.

(** A run that stays in the body of the block whose frame is [depth]
    entries from the bottom: it pops only what lies above that frame. *)
Fixpoint stays_inside (depth : nat) (ops : list Op)
    (called : list ComponentBlockMarker) (st : State) : Prop :=
  match ops with
  | [] => True
  | op :: ops' =>
      (∀ asked, op = OpPop asked → depth < length (scopeStack st))
      ∧ match run_op op called st with
        | Ok called' st' => stays_inside depth ops' called' st'
        | Err _ => False
        end
  end.

(** The runtime names of the deferred registrations emitted, in order. *)
Fixpoint emitted_names (events : list Event) : list string :=
  match events with
  | EvEmitExpression _ _ _ runtimeName :: rest => runtimeName :: emitted_names rest
  | _ :: rest => emitted_names rest
  | [] => []
  end.

Definition is_resolver_call (e : Event) : bool :=
  match e with
  | EvBindImport _ _ _ _ | EvEmitExpression _ _ _ _ => false
  | _ => true
  end.

Definition is_dynamic_modifier_call (e : Event) : bool :=
  match e with
  | EvResolveDynamicModifier _ _ _ => true
  | _ => false
  end.

(** How an entry may differ after a call of [safeComponentInScope]: only
    the argument list of a marker changes, and only at its end. *)
Definition entry_grows (before after : ScopeEntry) : Prop :=
  match before, after with
  | BlockParamsEntry b, BlockParamsEntry b' => b = b'
  | MarkerEntry m, MarkerEntry m' =>
      marker_block m = marker_block m'
      ∧ marker_argumentsAreComponents m `prefix_of` marker_argumentsAreComponents m'
  | _, _ => False
  end.

(** A computation respects a relation on states when every state it ends
    in is related to the one it started from. *)
Definition respects (R : State → State → Prop) {A} (m : M A) : Prop :=
  ∀ st a st', m st = Ok a st' → R st st'.

(** The events a computation adds to the trace all satisfy [allowed]. *)
Definition adds_only (allowed : Event → Prop) (st st' : State) : Prop :=
  ∃ added, trace st' = trace st ++ added ∧ Forall allowed added.

(** The bookkeeping of [emittedAMDDeps]: no runtime name was emitted
    twice, and the set holds exactly the names emitted. *)
Definition amd_consistent (st : State) : Prop :=
  NoDup (emitted_names (trace st))
  ∧ ∀ name, name ∈ emitted_names (trace st) ↔ name ∈ emittedAMDDeps st.

(** The set only grows, and the bookkeeping is kept. *)
Definition amd_grows (st st' : State) : Prop :=
  emittedAMDDeps st ⊆ emittedAMDDeps st'
  ∧ (amd_consistent st → amd_consistent st').

Definition is_emit_expression (e : Event) : Prop :=
  match e with
  | EvEmitExpression _ _ _ _ => True
  | _ => False
  end.

(** [emitAMD] called on one dependency after the other. *)
Fixpoint emitAMD_all (env : Env) (pathlib : PathLib)
    (deps : list (option ResolvedDep)) : M unit :=
  match deps with
  | [] => ret tt
  | dep :: deps' => emitAMD env pathlib dep ;;; emitAMD_all env pathlib deps'
  end.

(** Every handler of a visitor respects a relation. *)
Definition handlers_respect (R : State → State → Prop) (v : Visitor) : Prop :=
  ∀ node h f n owner,
    getNodeHandler v node = Some h →
    enter h = Some f ∨ exit h = Some f →
    respects R (f n owner).

(** All a computation does to the scope stack is to ask about some paths. *)
Definition asks_only (st st' : State) : Prop :=
  ∃ asked, scopeStack st' = asked_stack asked (scopeStack st).

(** The first segment of a dotted path: [name.split('.')[0]]. *)
Definition first_segment (name : string) : string :=
  match JS.split "." name with
  | part0 :: _ => part0
  | [] => ""
  end.

(** The state apart from the trace of calls. *)
Definition same_but_trace (st st' : State) : Prop :=
  scopeStack st' = scopeStack st
  ∧ emittedAMDDeps st' = emittedAMDDeps st
  ∧ emittedLexicalBindings st' = emittedLexicalBindings st.

(** The module and name hint [emit] binds lexically for a resolution, when
    it binds one: a modifier always, a helper unless [patchHelpersBug], a
    component that has a [jsModule] and no [hbsModule]. *)
Definition lexical_module (opts : Options) (resolution : option Resolution)
  : option (string * string) :=
  match resolution with
  | Some (ResModifier r) => Some (absPath (res_module r), res_nameHint r)
  | Some (ResHelper r) =>
      if patchHelpersBug opts then None
      else Some (absPath (res_module r), res_nameHint r)
  | Some (ResComponent r) =>
      match jsModule r, hbsModule r with
      | Some js, None => Some (absPath js, nameHint r)
      | _, _ => None
      end
  | _ => None
  end.

(** The modules [emit] hands to [emitAMD] for a resolution, in order. *)
Definition deferred_modules (opts : Options) (resolution : option Resolution)
  : list ResolvedDep :=
  match resolution with
  | Some (ResHelper r) => if patchHelpersBug opts then [res_module r] else []
  | Some (ResComponent r) =>
      match jsModule r, hbsModule r with
      | Some js, None => []
      | js, hbs => option_list hbs ++ option_list js
      end
  | _ => []
  end.

(** An attribute or hash pair with another value. *)
Definition with_value (attr value : Node) : Node :=
  match attr with
  | AttrNode name _ loc => AttrNode name value loc
  | HashPair key _ loc => HashPair key value loc
  | other => other
  end.

(** Two attribute nodes that differ at most in their value. *)
Definition same_attribute (before after : Node) : Prop :=
  ∃ value, after = with_value before value.

(** ** Well-formed documents *)

(** Where a node may stand in a template. *)
Inductive Kind :=
| KTemplate | KBlock | KStatement | KExpression | KPair
| KAttribute | KAttrValue | KModifier | KComment.

(** The shapes the parser of @glimmer/syntax builds: which node types
    stand where. *)
Fixpoint well_formed (kind : Kind) (node : Node) : bool :=
  match node, kind with
  | Template body _ _, KTemplate => forallb (well_formed KStatement) body
  | Block body _ _, KBlock => forallb (well_formed KStatement) body
  | MustacheStatement path params hash _, (KStatement | KAttrValue) =>
      well_formed KExpression path && forallb (well_formed KExpression) params
      && forallb (well_formed KPair) hash
  | BlockStatement path params hash program inverse _, KStatement =>
      well_formed KExpression path && forallb (well_formed KExpression) params
      && forallb (well_formed KPair) hash && well_formed KBlock program
      && match inverse with
         | Some block => well_formed KBlock block
         | None => true
         end
  | ElementModifierStatement path params hash _, KModifier =>
      well_formed KExpression path && forallb (well_formed KExpression) params
      && forallb (well_formed KPair) hash
  | ElementNode _ attributes modifiers children comments _ _, KStatement =>
      forallb (well_formed KAttribute) attributes
      && forallb (well_formed KModifier) modifiers
      && forallb (well_formed KStatement) children
      && forallb (well_formed KComment) comments
  | AttrNode _ value _, KAttribute => well_formed KAttrValue value
  | TextNode _ _, (KStatement | KAttrValue) => true
  | ConcatStatement parts _, KAttrValue => forallb (well_formed KAttrValue) parts
  | CommentStatement _ _, KStatement => true
  | MustacheCommentStatement _ _, (KStatement | KComment) => true
  | SubExpression path params hash _, KExpression =>
      well_formed KExpression path && forallb (well_formed KExpression) params
      && forallb (well_formed KPair) hash
  | PathExpression _ _ _ _ _, KExpression => true
  | StringLiteral _ _, KExpression | BooleanLiteral _ _, KExpression
  | NumberLiteral _ _, KExpression | UndefinedLiteral _, KExpression
  | NullLiteral _, KExpression => true
  | HashPair _ value _, KPair => well_formed KExpression value
  | _, _ => false
  end.

(** A node after a handler rewrote it: still well formed where it stands
    and no deeper. *)
Definition settled_as (kind : Kind) (node node' : Node) : Prop :=
  well_formed kind node = true →
  well_formed kind node' = true ∧ (height node' ≤ height node)%nat.

(** An attribute or hash pair as [handleDynamicComponentArguments] may
    leave it: as it was, or with a path built for a bound name as value. *)
Definition rebound (attr attr' : Node) : Prop :=
  attr' = attr ∨ ∃ name, attr' = set_attr_value attr (builders.path name).

(** A path as [emit] may leave it with the setter of a handler: as it
    was, or a path built for a bound name. *)
Definition renamed (path path' : Node) : Prop :=
  path' = path ∨ ∃ name, path' = builders.path name.

(** The params of a [component] keyword as [emit] may leave them: as they
    were, or with a path built for a bound name in the first place. *)
Definition first_renamed (params params' : list Node) : Prop :=
  params' = params ∨ ∃ name, params' = <[0 := builders.path name]> params.

(** Nothing leaves the two ledgers: a runtime name once registered stays
    registered, a name once bound stays bound. *)
Definition ledgers_grow (st st' : State) : Prop :=
  emittedAMDDeps st ⊆ emittedAMDDeps st'
  ∧ dom (emittedLexicalBindings st) ⊆ dom (emittedLexicalBindings st').

(** A Resolver that resolves nothing: every question is answered [null]. *)
Definition resolves_nothing (resolver : Resolver) : Prop :=
  (∀ name hasArgs file loc, resolveMustache resolver name hasArgs file loc = None)
  ∧ (∀ name file loc, resolveSubExpression resolver name file loc = None)
  ∧ (∀ name file loc, resolveElementModifierStatement resolver name file loc = None)
  ∧ (∀ tag file loc, resolveElement resolver tag file loc = None)
  ∧ (∀ locator file loc implied,
       resolveComponentHelper resolver locator file loc implied = None).

(** A state in which no component block is open and nothing is bound. *)
Definition unmarked (st : State) : Prop :=
  markers_of (scopeStack st) = [] ∧ emittedLexicalBindings st = ∅.

(** The visitor of the transform when the environment is not strict. *)
Definition resolving_visitor (opts : Options) (env : Env) (pathlib : PathLib)
  : Visitor :=
  mkVisitor
    (Some (mkTraversal (Some (Program_enter env))
                       (Some (Program_exit opts env pathlib))))
    (on_enter (BlockStatement_handler opts env pathlib))
    (on_enter (SubExpression_handler opts env pathlib))
    (Some (mkTraversal (Some (MustacheStatement_enter opts env pathlib)) None))
    (on_enter (ElementModifierStatement_handler opts env pathlib))
    (Some (mkTraversal (Some (ElementNode_enter opts env pathlib))
                       (Some (ElementNode_exit opts env pathlib)))).

(** The stack without a marker on its top. *)
Definition without_top_marker (stack : list ScopeEntry) : list ScopeEntry :=
  match stack with
  | MarkerEntry _ :: below => below
  | _ => stack
  end.

(** The entries a node finds on the stack that are still there when it
    is left: the block of a block statement takes the marker with it. *)
Definition base_of (kind : Kind) (stack : list ScopeEntry) : list ScopeEntry :=
  match kind with
  | KBlock => without_top_marker stack
  | _ => stack
  end.

(** What a node needs of the scope stack and of the owner it is visited
    with: statements, blocks and templates are entered with a frame or
    nothing on top, except the block of a block statement that has just
    entered its marker, whose closure finds the pairs it captured. *)
Definition enterable (kind : Kind) (owner : Owner) (stack : list ScopeEntry) : Prop :=
  match kind with
  | KStatement | KTemplate => top_is_marker stack = false
  | KBlock =>
      match stack with
      | MarkerEntry marker :: below =>
          top_is_marker below = false
          ∧ (∃ rootName, marker_exit marker = ExitBlockStatement rootName)
          ∧ is_Some owner
      | _ => True
      end
  | _ => True
  end.

(** ** Sample resolutions, collaborators and documents *)

Module Sample.

Definition my_component_js : ResolvedDep :=
  mkDep "/app/components/my-component.js" "app/components/my-component".

(** A component whose first block param is a component. *)
Definition yields_component : ComponentResolution :=
  mkComponent (Some my_component_js) None [YCFlag true] [] [] "MyComponent".

(** A component whose first block param is its argument [target]. *)
Definition yields_argument : ComponentResolution :=
  mkComponent (Some my_component_js) None [] [YAName "target"] [] "MyComponent".

(** A component with both rules on its first block param. *)
Definition yields_both : ComponentResolution :=
  mkComponent (Some my_component_js) None [YCFlag true] [YAName "target"] []
              "MyComponent".

Definition marker_of (resolution : ComponentResolution) : ComponentBlockMarker :=
  mkMarker resolution (argumentsAreComponents resolution)
           (ExitBlockStatement (Some "my-component")).

Definition state_of (stack : list ScopeEntry) : State := with_stack stack initial_state.

(** A Resolver that knows [my-component] in block and element position
    and refuses every dynamic component value. *)
Definition resolver : Resolver :=
  mkResolver
    (fun name _ _ _ => if bool_decide (name = "my-component")
                       then Some (ResComponent yields_component) else None)
    (fun _ _ _ => None)
    (fun _ _ _ => None)
    (fun tag _ _ => if bool_decide (tag = "MyComponent")
                    then Some (ResComponent yields_component) else None)
    (fun _ _ loc _ => Some (ResError (mkFail "unsafe dynamic component" "" loc))).

Definition opts : Options := mkOptions resolver false.

Definition jsutils : JSUtils := mkJSUtils (fun _ _ _ _ nameHint => nameHint).

Definition env : Env := mkEnv "/app/templates/index.hbs" "" jsutils None None.

Definition strict_env : Env :=
  mkEnv "/app/components/strict.gjs" "" jsutils (Some true) None.

Definition pathlib : PathLib := mkPathLib (fun _ absPath => absPath) (fun file => file).

Definition path (original : string) (loc : Loc) : Node :=
  PathExpression original false false (JS.split "." original) loc.

(** [<MyComponent as |child|>{{#each items as |child|}}{{component child}}{{/each}}</MyComponent>]:
    the [child] handed to [component] is the one bound by [each]. *)
Definition shadowing_document : Node :=
  Template
    [ElementNode "MyComponent" [] []
       [BlockStatement (path "each" 2) [path "items" 3] []
          (Block [MustacheStatement (path "component" 5) [path "child" 6] [] 7]
                 ["child"] 4)
          None 8]
       [] ["child"] 1]
    [] 0.

(** [{{#my-component as |child|}}{{component child}}{{/my-component}}] *)
Definition yielding_document : Node :=
  Template
    [BlockStatement (path "my-component" 1) [] []
       (Block [MustacheStatement (path "component" 3) [path "child" 4] [] 5]
              ["child"] 2)
       None 6]
    [] 0.

Definition my_helper : ModuleResolution :=
  mkModuleRes (mkDep "/app/helpers/my-helper.js" "app/helpers/my-helper") "my-helper".

(** A Resolver that knows the helper [my-helper], used with
    [patchHelpersBug] so that helpers are registered, not bound. *)
Definition helper_resolver : Resolver :=
  mkResolver
    (fun name _ _ _ => if bool_decide (name = "my-helper")
                       then Some (ResHelper my_helper) else None)
    (fun name _ _ => if bool_decide (name = "my-helper")
                     then Some (ResHelper my_helper) else None)
    (fun _ _ _ => None)
    (fun _ _ _ => None)
    (fun _ _ _ _ => None).

Definition patched_opts : Options := mkOptions helper_resolver true.

(** [{{my-helper 1}}{{other (my-helper 2)}}] *)
Definition two_helper_calls : Node :=
  Template
    [MustacheStatement (path "my-helper" 1) [NumberLiteral 1 2] [] 3;
     MustacheStatement (path "other" 4)
       [SubExpression (path "my-helper" 5) [NumberLiteral 2 6] [] 7] [] 8]
    [] 0.

(** A component whose first block param is an object of components and
    whose second is an object of forwarded arguments. *)
Definition yields_fields : ComponentResolution :=
  mkComponent (Some my_component_js) None
              [YCFields {["header" := true; "footer" := false]}; YCFlag false]
              [YAName "ignored"; YAFields {["body" := "content"]}]
              [] "MyComponent".

(** A component in the older style, with a template module of its own. *)
Definition legacy_component : ComponentResolution :=
  mkComponent (Some (mkDep "/app/components/old-box.js" "app/components/old-box"))
              (Some (mkDep "/app/templates/components/old-box.hbs"
                           "app/templates/components/old-box"))
              [] [] [] "OldBox".

(** A Resolver that resolves nothing. *)
Definition silent_resolver : Resolver :=
  mkResolver (fun _ _ _ _ => None) (fun _ _ _ => None) (fun _ _ _ => None)
             (fun _ _ _ => None) (fun _ _ _ _ => None).

Definition silent_opts : Options := mkOptions silent_resolver false.

(** A component whose second block param, and not its first, is a
    component. *)
Definition yields_second : ComponentResolution :=
  mkComponent (Some my_component_js) None [YCFlag false; YCFlag true] [] []
              "MyComponent".

(** The environment of a template compiled with one name of the
    surrounding JavaScript scope. *)
Definition env_with_locals : Env :=
  mkEnv "/app/templates/index.hbs" "" jsutils None (Some ["x"]).

End Sample.

(** * Properties *)

(** ** Splitting and searching *)

Lemma split_nonempty c s : JS.split c s ≠ [].
Proof.
  destruct s as [|a s]; simpl; [done|].
  destruct (Ascii.eqb a c); [done|].
  by destruct (JS.split c s).
Qed.

Lemma split_one_piece c s : length (JS.split c s) = 1 → JS.split c s = [s].
Proof.
  induction s as [|a s IH]; simpl; [done|].
  destruct (Ascii.eqb a c).
  - simpl. intros Hlen. pose proof (split_nonempty c s) as Hne.
    destruct (JS.split c s); [done | simpl in Hlen; lia].
  - destruct (JS.split c s) as [|p ps] eqn:Hsplit;
      [by destruct (split_nonempty c s)|].
    simpl. intros Hlen. destruct ps; [|simpl in Hlen; lia].
    specialize (IH eq_refl). by inversion IH.
Qed.

Lemma indexOf_lookup arr x i :
  JS.indexOf arr x = Some i → arr !! i = Some x ∧ ∀ j, j < i → arr !! j ≠ Some x.
Proof.
  revert i. induction arr as [|y arr IH]; simpl; [done|].
  intros i. case_decide as Hy.
  - intros [= <-]. subst. split; [done | intros j Hj; lia].
  - destruct (JS.indexOf arr x) as [k|] eqn:Hk; simpl; [|done].
    intros [= <-]. destruct (IH k eq_refl) as [Hat Hbefore]. split; [done|].
    intros [|j] Hj; simpl; [congruence | apply Hbefore; lia].
Qed.

Lemma lookup_indexOf arr x i :
  arr !! i = Some x → (∀ j, j < i → arr !! j ≠ Some x) → JS.indexOf arr x = Some i.
Proof.
  revert i. induction arr as [|y arr IH]; intros i; simpl; [done|].
  destruct i as [|i]; simpl.
  - intros [= ->] _. by rewrite decide_True.
  - intros Hat Hbefore. rewrite decide_False.
    + rewrite (IH i); [done | done |].
      intros j Hj. apply (Hbefore (S j)). lia.
    + intros ->. by apply (Hbefore 0); [lia|].
Qed.

(** ** The loop of safeComponentInScope *)

Lemma safeComponentInScope_one_segment name stack :
  one_segment name →
  ScopeStack.safeComponentInScope_stack name stack = ScopeStack.scan name None stack.
Proof.
  intros Hone. unfold ScopeStack.safeComponentInScope_stack.
  by rewrite (split_one_piece _ _ Hone).
Qed.

(** Entries above the block-params frame of a block that do not bind the
    name in a marked pair are passed over unchanged. *)
Lemma scan_passes_over part0 part1 above blockParams rest :
  bound_by_marked_block part0 above = false →
  ScopeStack.scan part0 part1 (above ++ BlockParamsEntry blockParams :: rest)
  = let '(safe, found) :=
      ScopeStack.scan part0 part1 (BlockParamsEntry blockParams :: rest) in
    (safe, above ++ found).
Proof.
  induction above as [|here above IH]; intros Hfree.
  - simpl app. by destruct (ScopeStack.scan _ _ _).
  - assert (bound_by_marked_block part0 above = false
            ∧ ∀ bps m tl, here = BlockParamsEntry bps → above = MarkerEntry m :: tl
                          → JS.indexOf bps part0 = None) as [Hrest Hhere].
    { simpl in Hfree. destruct here as [bps|m]. 2:{ split; [done|]. intros. done. }
      destruct above as [|[bps'|m'] tl]. 1,2: (split; [done|]; intros; done).
      apply orb_false_iff in Hfree as [Hidx Hrest]. split; [done|].
      intros ? ? ? [= <-] _. apply bool_decide_eq_false in Hidx.
      destruct (JS.indexOf bps part0); [|done]. by destruct Hidx. }
    specialize (IH Hrest).
    destruct (ScopeStack.scan part0 part1 (BlockParamsEntry blockParams :: rest))
      as [safe found] eqn:Hscan.
    change ((here :: above) ++ ?l) with (here :: (above ++ l)).
    cbn [ScopeStack.scan]. rewrite IH.
    destruct here as [bps|m]; [|done].
    destruct above as [|[bps'|m'] tl]; [done | done |].
    simpl app. by rewrite (Hhere bps m' tl eq_refl eq_refl).
Qed.

(** At the pair that binds the name the loop returns what the body says. *)
Lemma scan_at_binding part0 part1 blockParams next rest i :
  JS.indexOf blockParams part0 = Some i →
  ScopeStack.scan part0 part1 (BlockParamsEntry blockParams :: MarkerEntry next :: rest)
  = let '(safe, next') := ScopeStack.covered_by next i part1 in
    (safe, BlockParamsEntry blockParams :: MarkerEntry next' :: rest).
Proof. intros Hidx. cbn [ScopeStack.scan]. by rewrite Hidx. Qed.

(** A frame with no marker below it is never where the loop stops. *)
Lemma scan_unmarked_frame part0 part1 blockParams rest :
  top_is_marker rest = false →
  ScopeStack.scan part0 part1 (BlockParamsEntry blockParams :: rest)
  = let '(safe, rest') := ScopeStack.scan part0 part1 rest in
    (safe, BlockParamsEntry blockParams :: rest').
Proof.
  intros Htop. destruct rest as [|[bps|m] rest]; [done | done | done].
Qed.

Lemma with_stack_same st : with_stack (scopeStack st) st = st.
Proof. by destruct st. Qed.

Lemma safeComponentInScope_run name st :
  ScopeStack.safeComponentInScope name st
  = Ok (ScopeStack.safeComponentInScope_stack name (scopeStack st)).1
       (with_stack (ScopeStack.safeComponentInScope_stack name (scopeStack st)).2 st).
Proof.
  unfold ScopeStack.safeComponentInScope, bind, get.
  by destruct (ScopeStack.safeComponentInScope_stack name (scopeStack st)).
Qed.

(** A path the scope stack proves safe is answered without the Resolver. *)
Lemma handleComponentHelper_safe_path resolver name this data parts loc
    moduleName impliedBecause st :
  (ScopeStack.safeComponentInScope_stack name (scopeStack st)).1 = true →
  handleComponentHelper resolver (PathExpression name this data parts loc)
                        moduleName impliedBecause st
  = Ok None (with_stack
               (ScopeStack.safeComponentInScope_stack name (scopeStack st)).2 st).
Proof.
  intros Hsafe. cbn [handleComponentHelper]. unfold resolve_locator, bind.
  by rewrite safeComponentInScope_run, Hsafe.
Qed.

(** A path the scope stack does not prove safe goes to the Resolver. *)
Lemma handleComponentHelper_unsafe_path resolver name this data parts loc
    moduleName impliedBecause st :
  (ScopeStack.safeComponentInScope_stack name (scopeStack st)).1 = false →
  ∃ st', handleComponentHelper resolver (PathExpression name this data parts loc)
                               moduleName impliedBecause st
         = Ok (resolveComponentHelper resolver (LocPath name) moduleName loc
                                      impliedBecause) st'
         ∧ trace st' = trace st ++ [EvResolveComponentHelper (LocPath name)
                                      moduleName loc impliedBecause].
Proof.
  intros Hsafe. cbn [handleComponentHelper]. unfold resolve_locator, bind.
  rewrite safeComponentInScope_run, Hsafe. by eexists.
Qed.

(** ** Block params that are yielded components *)

(** C7, as it is written, fails in two ways. Where two block params of
    the marked block have the same name, the slot looked at is the first
    one holding the name ([indexOf]): with [yieldsComponents[1] === true]
    and the name at slots 0 and 1, the path is not safe and is sent to
    the Resolver. And where the environment has [locals], the block of a
    block statement pushes them between the marker and its own block
    params, so the pair the loop finds is the one of the locals: in
    [{{#my-component as |child|}}{{component child}}{{/my-component}}]
    the Resolver is asked about [child]. *)
Lemma yielded_slot_sent_to_resolver :
  let file := "/app/templates/index.hbs" in
  let refusal loc := mkFail "unsafe dynamic component" "" loc in
  let twice :=
    Sample.state_of [BlockParamsEntry ["a"; "a"];
                     MarkerEntry (Sample.marker_of Sample.yields_second)] in
  let inside :=
    Sample.state_of [BlockParamsEntry ["child"]; BlockParamsEntry ["x"];
                     MarkerEntry (Sample.marker_of Sample.yields_component);
                     BlockParamsEntry []; BlockParamsEntry ["x"]] in
  (["a"; "a"] !! 1 = Some "a"
   ∧ yieldsComponents Sample.yields_second !! 1 = Some (YCFlag true)
   ∧ ScopeStack.safeComponentInScope "a" twice = Ok false twice
   ∧ handleComponentHelper Sample.resolver (Sample.path "a" 7) file None twice
     = Ok (Some (ResError (refusal 7)))
          (mkState (scopeStack twice) ∅ ∅
                   [EvResolveComponentHelper (LocPath "a") file 7 None]))
  ∧ (yieldsComponents Sample.yields_component !! 0 = Some (YCFlag true)
     ∧ ScopeStack.safeComponentInScope "child" inside = Ok false inside
     ∧ ∃ document st,
         transform Sample.opts Sample.env_with_locals Sample.pathlib 5
                   Sample.yielding_document
         = Ok (document, None) st
         ∧ trace st
           = [EvResolveMustache "my-component" true file 1;
              EvBindImport "/app/components/my-component.js" "default"
                           "MyComponent" "MyComponent";
              EvResolveComponentHelper (LocPath "child") file 4 None;
              EvReportError (refusal 4) file ""]).
Proof.
  split; [by repeat split|]. split; [done|]. split; [done|].
  eexists _, _. split; [vm_compute; reflexivity | reflexivity].
Qed.

(** C7, amended. When the innermost adjacent pair of a block-params frame
    and a marker that binds the name of a one-segment path binds it at
    slot [i], the first slot holding the name (its [indexOf]), and the
    marker's resolution has [yieldsComponents[i] === true],
    [safeComponentInScope] returns true and changes nothing, and
    [handleComponentHelper] on that path returns null with the state,
    hence the trace of Resolver calls, unchanged. *)
Theorem yielded_component_is_safe resolver st above blockParams next rest name i
    this data parts loc moduleName impliedBecause :
  scopeStack st = above ++ BlockParamsEntry blockParams :: MarkerEntry next :: rest →
  bound_by_marked_block name above = false →
  one_segment name →
  JS.indexOf blockParams name = Some i →
  yieldsComponents (marker_resolution next) !! i = Some (YCFlag true) →
  ScopeStack.safeComponentInScope name st = Ok true st
  ∧ handleComponentHelper resolver (PathExpression name this data parts loc)
                          moduleName impliedBecause st = Ok None st.
Proof.
  intros Hstack Hfree Hone Hidx Hyield.
  assert (ScopeStack.safeComponentInScope_stack name (scopeStack st)
          = (true, scopeStack st)) as Hscan.
  { rewrite (safeComponentInScope_one_segment _ _ Hone), Hstack.
    rewrite (scan_passes_over _ _ _ _ _ Hfree), (scan_at_binding _ _ _ _ _ _ Hidx).
    unfold ScopeStack.covered_by. by rewrite Hyield. }
  split.
  - rewrite safeComponentInScope_run, Hscan. simpl. by rewrite with_stack_same.
  - rewrite handleComponentHelper_safe_path; rewrite Hscan; [|done].
    simpl. by rewrite with_stack_same.
Qed.

Lemma yielded_component_is_safe_witness :
  let st := Sample.state_of [BlockParamsEntry ["item"]; BlockParamsEntry ["child"];
                             MarkerEntry (Sample.marker_of Sample.yields_component);
                             BlockParamsEntry []] in
  ScopeStack.safeComponentInScope "child" st = Ok true st
  ∧ handleComponentHelper Sample.resolver (Sample.path "child" 7)
                          "/app/templates/index.hbs" None st = Ok None st.
Proof.
  apply (yielded_component_is_safe Sample.resolver _ [BlockParamsEntry ["item"]]
           ["child"] (Sample.marker_of Sample.yields_component)
           [BlockParamsEntry []] "child" 0); reflexivity.
Defined.

(** ** Forwarded arguments *)

Lemma entry_grows_refl e : entry_grows e e.
Proof. by destruct e. Qed.

Lemma entry_grows_trans e1 e2 e3 : entry_grows e1 e2 → entry_grows e2 e3 → entry_grows e1 e3.
Proof.
  destruct e1 as [b1|m1], e2 as [b2|m2], e3 as [b3|m3]; simpl; try done.
  - congruence.
  - intros [Hblock Hprefix] [Hblock' Hprefix']. split; [congruence|].
    by transitivity (marker_argumentsAreComponents m2).
Qed.

Lemma entries_grow_refl stack : Forall2 entry_grows stack stack.
Proof. induction stack; constructor; [apply entry_grows_refl | done]. Qed.

Lemma entries_grow_trans s1 s2 s3 :
  Forall2 entry_grows s1 s2 → Forall2 entry_grows s2 s3 → Forall2 entry_grows s1 s3.
Proof.
  intros H12. revert s3. induction H12 as [|e1 e2 s1 s2 He Hs IH]; intros s3 H23.
  - by inversion H23.
  - inversion H23 as [|? e3 ? s3' He' Hs']; subst. constructor; [|by apply IH].
    by eapply entry_grows_trans.
Qed.

Lemma covered_by_grows next i part1 :
  entry_grows (MarkerEntry next) (MarkerEntry (ScopeStack.covered_by next i part1).2).
Proof.
  assert (∀ x, entry_grows (MarkerEntry next)
                 (MarkerEntry (ScopeStack.push_argument next x))) as Hpush.
  { intros x. split; [done|]. by apply prefix_app_r. }
  unfold ScopeStack.covered_by.
  repeat case_match; simpl; first [apply Hpush | apply (entry_grows_refl (MarkerEntry next))].
Qed.

Lemma scan_grows part0 part1 stack :
  Forall2 entry_grows stack (ScopeStack.scan part0 part1 stack).2.
Proof.
  induction stack as [|here rest IH]; [by constructor|].
  assert (Forall2 entry_grows (here :: rest)
            (let '(safe, rest') := ScopeStack.scan part0 part1 rest in
             (safe, here :: rest')).2) as Hskip.
  { destruct (ScopeStack.scan part0 part1 rest). constructor; [apply entry_grows_refl | done]. }
  cbn [ScopeStack.scan].
  destruct here as [bps|m]; [|done].
  destruct rest as [|[bps'|next] above]; [done | done |].
  destruct (JS.indexOf bps part0) as [i|]; [|done].
  pose proof (covered_by_grows next i part1) as Hnext.
  destruct (ScopeStack.covered_by next i part1) as [safe next'].
  constructor; [done|]. constructor; [done|]. apply entries_grow_refl.
Qed.

Lemma safeComponentInScope_grows name stack :
  Forall2 entry_grows stack (ScopeStack.safeComponentInScope_stack name stack).2.
Proof.
  unfold ScopeStack.safeComponentInScope_stack.
  repeat case_match; first [apply scan_grows | apply entries_grow_refl].
Qed.

(** A marker on top of the stack is never the marker of a pair, so asking
    leaves it as it is. *)
Lemma scan_top_marker part0 part1 m rest :
  ScopeStack.scan part0 part1 (MarkerEntry m :: rest)
  = let '(safe, rest') := ScopeStack.scan part0 part1 rest in
    (safe, MarkerEntry m :: rest').
Proof. done. Qed.

Lemma safeComponentInScope_top_marker name m rest :
  ∃ rest', (ScopeStack.safeComponentInScope_stack name (MarkerEntry m :: rest)).2
           = MarkerEntry m :: rest'
           ∧ Forall2 entry_grows rest rest'.
Proof.
  unfold ScopeStack.safeComponentInScope_stack.
  repeat case_match; try (eexists; split; [done | apply entries_grow_refl]);
    rewrite scan_top_marker;
    match goal with
    | |- context [ScopeStack.scan ?a ?b rest] =>
        pose proof (scan_grows a b rest); destruct (ScopeStack.scan a b rest)
    end; by eexists.
Qed.

Lemma asked_stack_top_marker asked m rest :
  ∃ rest', asked_stack asked (MarkerEntry m :: rest) = MarkerEntry m :: rest'
           ∧ Forall2 entry_grows rest rest'.
Proof.
  revert rest. induction asked as [|name asked IH]; intros rest.
  { exists rest. split; [done | apply entries_grow_refl]. }
  cbn [asked_stack foldl].
  destruct (safeComponentInScope_top_marker name m rest) as (rest1 & -> & Hgrow1).
  destruct (IH rest1) as (rest2 & Heq & Hgrow2).
  exists rest2. split; [exact Heq | by eapply entries_grow_trans].
Qed.

Lemma with_stack_twice s s' st : with_stack s (with_stack s' st) = with_stack s st.
Proof. done. Qed.

Lemma scopeStack_with_stack s st : scopeStack (with_stack s st) = s.
Proof. done. Qed.

Lemma ask_all_run asked st :
  ask_all asked st = Ok tt (with_stack (asked_stack asked (scopeStack st)) st).
Proof.
  revert st. induction asked as [|name asked IH]; intros st.
  { by rewrite <- (with_stack_same st) at 1. }
  cbn [ask_all]. unfold bind. by rewrite safeComponentInScope_run, IH.
Qed.

(** What pop does: the top entry goes, and a marker then on top is handed
    to the callback once, while still on the stack, and goes too. *)
Lemma pop_asking_run asked called st :
  ScopeStack.pop (asking_exit asked) called st
  = match tail (scopeStack st) with
    | MarkerEntry next :: rest =>
        Ok (called ++ [next])
           (with_stack (tail (asked_stack asked (MarkerEntry next :: rest))) st)
    | below => Ok called (with_stack below st)
    end.
Proof.
  unfold ScopeStack.pop, bind, get, set_stack, asking_exit, ret.
  rewrite scopeStack_with_stack.
  destruct (tail (scopeStack st)) as [|[bps|next] rest]; try done.
  unfold bind. by rewrite ask_all_run.
Qed.

(** The stack left by a pop that found a marker on top. *)
Lemma pop_asking_marker asked called st here next rest :
  scopeStack st = here :: MarkerEntry next :: rest →
  ∃ rest', ScopeStack.pop (asking_exit asked) called st
           = Ok (called ++ [next]) (with_stack rest' st)
           ∧ Forall2 entry_grows rest rest'.
Proof.
  intros Hstack. rewrite pop_asking_run, Hstack. simpl tail.
  destruct (asked_stack_top_marker asked next rest) as (rest' & -> & Hgrow).
  by exists rest'.
Qed.

Lemma run_op_run op called st :
  run_op op called st
  = match op with
    | OpPush blockParams =>
        Ok called (with_stack (BlockParamsEntry blockParams :: scopeStack st) st)
    | OpPop asked => ScopeStack.pop (asking_exit asked) called st
    | OpEnter resolution exit =>
        Ok called (with_stack
                     (MarkerEntry (mkMarker resolution (argumentsAreComponents resolution) exit)
                      :: scopeStack st) st)
    | OpSafe name =>
        Ok called (with_stack
                     (ScopeStack.safeComponentInScope_stack name (scopeStack st)).2 st)
    end.
Proof.
  destruct op; try done.
  simpl. unfold bind. by rewrite safeComponentInScope_run.
Qed.

(** Growth keeps the frame and the marker of a block where they are. *)
Lemma block_kept_by_growth above blockParams next rest stack' X :
  Forall2 entry_grows (above ++ BlockParamsEntry blockParams :: MarkerEntry next :: rest)
          stack' →
  X ∈ marker_argumentsAreComponents next →
  ∃ above' next' rest',
    stack' = above' ++ BlockParamsEntry blockParams :: MarkerEntry next' :: rest'
    ∧ length above' = length above
    ∧ length rest' = length rest
    ∧ marker_block next' = marker_block next
    ∧ X ∈ marker_argumentsAreComponents next'.
Proof.
  intros Hgrow HX.
  apply Forall2_app_inv_l in Hgrow as (above' & base' & Habove & Hbase & ->).
  apply Forall2_cons_inv_l in Hbase as (frame' & base'' & Hframe & Hbase & ->).
  apply Forall2_cons_inv_l in Hbase as (marker' & rest' & Hmarker & Hrest & ->).
  destruct frame' as [bps'|]; [|done]. simpl in Hframe. subst bps'.
  destruct marker' as [|next']; [done|]. destruct Hmarker as [Hsame Hprefix].
  exists above', next', rest'. split; [done|].
  split; [by apply Forall2_length in Habove|].
  split; [by apply Forall2_length in Hrest|]. split; [done|].
  destruct Hprefix as [more ->]. apply elem_of_app. by left.
Qed.

(** A fact recorded in the marker of a block stays in it for as long as
    the run stays inside the body of the block. *)
Lemma recorded_argument_persists blockParams block X depth ops :
  ∀ called st above next rest,
    scopeStack st = above ++ BlockParamsEntry blockParams :: MarkerEntry next :: rest →
    length rest = depth →
    marker_block next = block →
    X ∈ marker_argumentsAreComponents next →
    stays_inside (2 + depth) ops called st →
    ∃ called' st' above' next' rest',
      run_ops ops called st = Ok called' st'
      ∧ scopeStack st' = above' ++ BlockParamsEntry blockParams :: MarkerEntry next' :: rest'
      ∧ length rest' = depth
      ∧ marker_block next' = block
      ∧ X ∈ marker_argumentsAreComponents next'.
Proof.
  induction ops as [|op ops IH]; intros called st above next rest Hstack Hdepth Hblock HX Hin.
  { by exists called, st, above, next, rest. }
  destruct Hin as [Hpop Hin]. cbn [run_ops]. unfold bind.
  rewrite run_op_run in Hin |- *.
  destruct op as [bps|asked|resolution exit|name].
  - eapply (IH _ _ (BlockParamsEntry bps :: above)); [|done..].
    by rewrite scopeStack_with_stack, Hstack.
  - specialize (Hpop asked eq_refl). rewrite Hstack in Hpop.
    destruct above as [|top above].
    { rewrite length_app in Hpop. simpl in Hpop. lia. }
    destruct above as [|[bps|m] above].
    + rewrite pop_asking_run, Hstack in Hin |- *. simpl in Hin |- *.
      by eapply (IH _ _ []).
    + rewrite pop_asking_run, Hstack in Hin |- *. simpl in Hin |- *.
      by eapply (IH _ _ (BlockParamsEntry bps :: above)).
    + destruct (pop_asking_marker asked called st top m
                  (above ++ BlockParamsEntry blockParams :: MarkerEntry next :: rest))
        as (stack' & Hrun & Hgrow); [by rewrite Hstack|].
      rewrite Hrun in Hin |- *.
      destruct (block_kept_by_growth _ _ _ _ _ X Hgrow HX)
        as (above' & next' & rest' & -> & _ & Hrest & Hsame & HX').
      eapply (IH _ _ above' next' rest'); [done | lia | congruence | done | done].
  - eapply (IH _ _ (MarkerEntry _ :: above)); [|done..].
    by rewrite scopeStack_with_stack, Hstack.
  - pose proof (safeComponentInScope_grows name (scopeStack st)) as Hgrow.
    rewrite Hstack in Hgrow at 1.
    destruct (block_kept_by_growth _ _ _ _ _ X Hgrow HX)
      as (above' & next' & rest' & Hstack' & _ & Hrest & Hsame & HX').
    eapply (IH _ _ above' next' rest');
      [by rewrite scopeStack_with_stack | lia | congruence | done | done].
Qed.

(** C1, as it is written, fails where the slot has both rules: the flag
    of [yieldsComponents] is looked at first, the path is safe, and the
    forwarded argument is not recorded in the marker. *)
Lemma forwarded_argument_not_recorded_under_flag :
  let next := Sample.marker_of Sample.yields_both in
  let st := Sample.state_of [BlockParamsEntry ["child"]; MarkerEntry next] in
  JS.indexOf ["child"] "child" = Some 0
  ∧ yieldsArguments (marker_resolution next) !! 0 = Some (YAName "target")
  ∧ ScopeStack.safeComponentInScope "child" st = Ok true st
  ∧ markers_of (scopeStack st) = [next]
  ∧ marker_argumentsAreComponents next = [].
Proof. by repeat split. Qed.

(** C1, amended. When the innermost marked block that binds the name of a
    one-segment path binds it at slot [i] (its [indexOf]), the marker's
    resolution does not have [yieldsComponents[i] === true] and has the
    string [X] as [yieldsArguments[i]], then [safeComponentInScope] returns
    true and appends [X] to the list of that marker and changes nothing
    else; [handleComponentHelper] on the path returns null with no event
    added to the trace; [X] stays in that marker's list over every run of
    scope-stack operations that stays inside the body of the block,
    whatever the exit callbacks of inner blocks ask; the pop that leaves
    the block hands the marker to its exit callback and takes it off the
    stack; and a marker entered later for the same resolution starts from
    the resolution's own list again. *)
Theorem forwarded_argument_is_recorded resolver st above blockParams next rest
    name i X this data parts loc moduleName impliedBecause :
  scopeStack st = above ++ BlockParamsEntry blockParams :: MarkerEntry next :: rest →
  bound_by_marked_block name above = false →
  one_segment name →
  JS.indexOf blockParams name = Some i →
  yieldsComponents (marker_resolution next) !! i ≠ Some (YCFlag true) →
  yieldsArguments (marker_resolution next) !! i = Some (YAName X) →
  let st1 := with_stack (above ++ BlockParamsEntry blockParams
                           :: MarkerEntry (ScopeStack.push_argument next X) :: rest) st in
  ScopeStack.safeComponentInScope name st = Ok true st1
  ∧ handleComponentHelper resolver (PathExpression name this data parts loc)
                          moduleName impliedBecause st = Ok None st1
  ∧ trace st1 = trace st
  ∧ (∀ ops called,
       stays_inside (2 + length rest) ops called st1 →
       ∃ called' st2 above' next' rest',
         run_ops ops called st1 = Ok called' st2
         ∧ scopeStack st2
           = above' ++ BlockParamsEntry blockParams :: MarkerEntry next' :: rest'
         ∧ length rest' = length rest
         ∧ marker_block next' = marker_block next
         ∧ X ∈ marker_argumentsAreComponents next')
  ∧ (∀ st2 asked called next' rest',
       scopeStack st2 = BlockParamsEntry blockParams :: MarkerEntry next' :: rest' →
       ∃ rest'',
         ScopeStack.pop (asking_exit asked) called st2
         = Ok (called ++ [next']) (with_stack rest'' st2)
         ∧ length rest'' = length rest')
  ∧ (∀ st3 exit,
       ScopeStack.enteringComponentBlock (marker_resolution next) exit st3
       = Ok tt (with_stack
                  (MarkerEntry (mkMarker (marker_resolution next)
                                  (argumentsAreComponents (marker_resolution next)) exit)
                   :: scopeStack st3) st3)).
Proof.
  intros Hstack Hfree Hone Hidx Hflag Hname st1.
  assert (ScopeStack.safeComponentInScope_stack name (scopeStack st)
          = (true, scopeStack st1)) as Hscan.
  { rewrite (safeComponentInScope_one_segment _ _ Hone), Hstack.
    rewrite (scan_passes_over _ _ _ _ _ Hfree), (scan_at_binding _ _ _ _ _ _ Hidx).
    unfold ScopeStack.covered_by. rewrite Hname.
    destruct (yieldsComponents (marker_resolution next) !! i) as [[[|]|]|]; done. }
  split; [by rewrite safeComponentInScope_run, Hscan|].
  split; [by rewrite handleComponentHelper_safe_path; rewrite Hscan|].
  split; [done|].
  split.
  { intros ops called Hin.
    eapply recorded_argument_persists; [done | done | done | | done].
    simpl. apply elem_of_app. right. by apply list_elem_of_singleton. }
  split.
  - intros st2 asked called next' rest' Hst2.
    destruct (pop_asking_marker asked called st2 _ _ _ Hst2) as (rest'' & Hrun & Hgrow).
    exists rest''. split; [done|]. by apply Forall2_length in Hgrow.
  - done.
Qed.

Lemma forwarded_argument_is_recorded_witness :
  let next := Sample.marker_of Sample.yields_argument in
  let st := Sample.state_of [BlockParamsEntry ["item"]; BlockParamsEntry ["child"];
                             MarkerEntry next; BlockParamsEntry []] in
  let st1 := Sample.state_of [BlockParamsEntry ["item"]; BlockParamsEntry ["child"];
                              MarkerEntry (ScopeStack.push_argument next "target");
                              BlockParamsEntry []] in
  ScopeStack.safeComponentInScope "child" st = Ok true st1
  ∧ handleComponentHelper Sample.resolver (Sample.path "child" 7)
                          "/app/templates/index.hbs" None st = Ok None st1.
Proof.
  intros next st st1.
  pose proof (forwarded_argument_is_recorded Sample.resolver st
                [BlockParamsEntry ["item"]] ["child"] next [BlockParamsEntry []]
                "child" 0 "target" false false ["child"] 7
                "/app/templates/index.hbs" None
                eq_refl eq_refl eq_refl eq_refl
                (fun H : None = Some (YCFlag true) => eq_ind None
                   (fun o => match o with None => True | Some _ => False end)
                   I _ H)
                eq_refl) as (Hsafe & Hhelper & _).
  split; [exact Hsafe | exact Hhelper].
Defined.

(** ** The marker invariant *)

Lemma entries_grow_shape s s' :
  Forall2 entry_grows s s' →
  top_is_marker s' = top_is_marker s
  ∧ (framed s → framed s')
  ∧ marker_block <$> markers_of s' = marker_block <$> markers_of s.
Proof.
  induction 1 as [|e e' s s' He Hs (Htop & Hframed & Hblocks)]; [done|].
  destruct e as [b|m], e' as [b'|m']; try done; simpl in He.
  destruct He as [Hblock _]. repeat split.
  - simpl. destruct s as [|[?|?] s], s' as [|[?|?] s']; try done;
      simpl in Htop; try done; intros Hf; by apply Hframed.
  - cbn [markers_of]. rewrite !fmap_cons. congruence.
Qed.

Lemma framed_tail e s : framed (e :: s) → framed s.
Proof. destruct e as [b|m]; [done|]. by destruct s as [|[?|?] s]. Qed.

(** One operation of a disciplined run keeps the invariant and the
    account of the markers. *)
Lemma disciplined_step op called st :
  framed (scopeStack st) →
  (top_is_marker (scopeStack st) = true → ∃ blockParams, op = OpPush blockParams) →
  ∃ called' st',
    run_op op called st = Ok called' st'
    ∧ framed (scopeStack st')
    ∧ (top_is_marker (scopeStack st') = true → ∃ r x, op = OpEnter r x)
    ∧ (marker_block <$> called') ++ (marker_block <$> markers_of (scopeStack st'))
      ≡ₚ ((marker_block <$> called) ++ (marker_block <$> markers_of (scopeStack st)))
         ++ entered_by [op].
Proof.
  intros Hframed Hdisc. rewrite run_op_run.
  destruct op as [bps|asked|resolution exit|name].
  - do 2 eexists. split; [done|]. simpl. rewrite !app_nil_r.
    split; [done|]. split; [done|]. reflexivity.
  - destruct (scopeStack st) as [|[b|m] rest] eqn:Hstack.
    + rewrite pop_asking_run, Hstack.
      do 2 eexists. split; [done|]. simpl. rewrite !app_nil_r.
      split; [done|]. split; [done|]. reflexivity.
    + simpl in Hframed.
      destruct rest as [|[b'|m'] rest'].
      * rewrite pop_asking_run, Hstack.
        do 2 eexists. split; [done|]. simpl. rewrite !app_nil_r.
        split; [done|]. split; [done|]. reflexivity.
      * rewrite pop_asking_run, Hstack.
        do 2 eexists. split; [done|]. simpl. rewrite !app_nil_r.
        split; [done|]. split; [done|]. reflexivity.
      * destruct (pop_asking_marker asked called st _ _ _ Hstack)
          as (rest'' & -> & Hgrow).
        apply entries_grow_shape in Hgrow as (Htop & Hkeep & Hblocks).
        do 2 eexists. split; [done|]. simpl. rewrite Hblocks, Htop.
        split; [by apply Hkeep, (framed_tail (MarkerEntry m'))|].
        split.
        { intros Hmarker. destruct rest' as [|[?|?] ?]; done. }
        by rewrite fmap_app, app_nil_r, <- app_assoc.
    + by destruct (Hdisc eq_refl) as [? [=]].
  - assert (top_is_marker (scopeStack st) = false) as Htop.
    { destruct (top_is_marker (scopeStack st)); [|done].
      by destruct (Hdisc eq_refl) as [? [=]]. }
    do 2 eexists. split; [done|]. simpl.
    split. { destruct (scopeStack st) as [|[?|?] ?]; done. }
    split; [by eauto|].
    rewrite <- app_assoc. apply Permutation_app_head.
    by rewrite (Permutation_app_comm _ [_]).
  - pose proof (safeComponentInScope_grows name (scopeStack st)) as Hgrow.
    apply entries_grow_shape in Hgrow as (Htop & Hkeep & Hblocks).
    do 2 eexists. split; [done|]. simpl. rewrite Hblocks, app_nil_r.
    split; [by apply Hkeep|]. split; [|done].
    rewrite Htop. intros Hmarker. by destruct (Hdisc Hmarker) as [? [=]].
Qed.

Lemma entered_by_cons op ops : entered_by (op :: ops) = entered_by [op] ++ entered_by ops.
Proof. by destruct op. Qed.

Lemma disciplined_run ops :
  ∀ called st,
    framed (scopeStack st) →
    disciplined ops called st →
    ∃ called' st',
      run_ops ops called st = Ok called' st'
      ∧ framed (scopeStack st')
      ∧ (top_is_marker (scopeStack st') = true →
         match last ops with
         | Some (OpEnter _ _) => True
         | Some _ => False
         | None => top_is_marker (scopeStack st) = true
         end)
      ∧ (marker_block <$> called') ++ (marker_block <$> markers_of (scopeStack st'))
        ≡ₚ ((marker_block <$> called) ++ (marker_block <$> markers_of (scopeStack st)))
           ++ entered_by ops.
Proof.
  induction ops as [|op ops IH]; intros called st Hframed Hdisc.
  { exists called, st. simpl. rewrite app_nil_r. by repeat split. }
  destruct Hdisc as [Hnext Hdisc].
  destruct (disciplined_step op called st Hframed Hnext)
    as (called1 & st1 & Hop & Hframed1 & Htop1 & Hacc1).
  rewrite Hop in Hdisc.
  destruct (IH called1 st1 Hframed1 Hdisc) as (called' & st' & Hrun & Hframed' & Htop' & Hacc').
  exists called', st'. cbn [run_ops]. unfold bind. rewrite Hop.
  split; [done|]. split; [done|]. split.
  - intros Htop. specialize (Htop' Htop).
    destruct ops as [|op' ops].
    + simpl in Htop' |- *. by destruct (Htop1 Htop') as (r & x & ->).
    + rewrite last_cons_cons.
      destruct (last (op' :: ops)) as [last_op|] eqn:Hlast; [done|].
      by apply last_None in Hlast.
  - rewrite Hacc', Hacc1, (entered_by_cons op ops). by rewrite <- app_assoc.
Qed.

(** C9, as it is written, fails on the run that only enters a component
    block: its marker is on top of the stack with no frame above it. *)
Lemma marker_without_frame : ¬ framed_in_every_run.
Proof.
  intros Hall.
  destruct (Hall [OpEnter Sample.yields_component ExitElementNode])
    as (called & st & Hrun & [Htop _] & _).
  vm_compute in Hrun. injection Hrun as <- <-. discriminate Htop.
Qed.

(** In the same way a pop right after entering removes the marker and
    calls no exit: no exit is recorded and no marker is left. *)
Lemma marker_popped_without_exit :
  run_ops [OpEnter Sample.yields_component ExitElementNode; OpPop []] [] initial_state
  = Ok [] initial_state.
Proof. reflexivity. Qed.

(** C9, amended. In every run from the empty stack in which each
    [enteringComponentBlock] is directly followed by the [push] of the
    frame of the same block: every marker below the top has a block-params
    frame directly above it, and a marker is on top only right after it was
    entered; the exits called and the markers on the stack account for the
    blocks entered, each once. Entering and then pushing puts the marker
    directly below the frame; pop removes the frame and, if a marker is
    then on top, calls its exit once, on that marker, and removes it too. *)
Theorem markers_framed_in_disciplined_runs ops :
  disciplined ops [] initial_state →
  (∃ called st,
      run_ops ops [] initial_state = Ok called st
      ∧ framed (scopeStack st)
      ∧ (top_is_marker (scopeStack st) = true → ∃ r x, last ops = Some (OpEnter r x))
      ∧ accounted ops called (scopeStack st))
  ∧ (∀ resolution exit blockParams called st,
        run_ops [OpEnter resolution exit; OpPush blockParams] called st
        = Ok called
             (with_stack
                (BlockParamsEntry blockParams
                 :: MarkerEntry (mkMarker resolution (argumentsAreComponents resolution) exit)
                 :: scopeStack st) st))
  ∧ (∀ blockParams next rest asked called st,
        scopeStack st = BlockParamsEntry blockParams :: MarkerEntry next :: rest →
        ∃ rest', ScopeStack.pop (asking_exit asked) called st
                 = Ok (called ++ [next]) (with_stack rest' st)
                 ∧ Forall2 entry_grows rest rest')
  ∧ (∀ blockParams rest asked called st,
        scopeStack st = BlockParamsEntry blockParams :: rest →
        top_is_marker rest = false →
        ScopeStack.pop (asking_exit asked) called st = Ok called (with_stack rest st)).
Proof.
  intros Hdisc. split; [|split; [|split]].
  - destruct (disciplined_run ops [] initial_state I Hdisc)
      as (called & st & Hrun & Hframed & Htop & Hacc).
    exists called, st. split; [done|]. split; [done|]. split; [|done].
    intros Hmarker. specialize (Htop Hmarker).
    destruct (last ops) as [[| |r x|]|]; try done. by exists r, x.
  - done.
  - intros blockParams next rest asked called st Hstack.
    by apply (pop_asking_marker asked called st _ _ _ Hstack).
  - intros blockParams rest asked called st Hstack Htop. rewrite pop_asking_run, Hstack.
    by destruct rest as [|[?|?] ?].
Qed.

Lemma markers_framed_in_disciplined_runs_witness :
  ∃ called st,
    run_ops [OpPush []; OpEnter Sample.yields_component ExitElementNode;
             OpPush ["child"]; OpSafe "child"; OpPop ["child"]] [] initial_state
    = Ok called st
    ∧ framed (scopeStack st)
    ∧ called = [mkMarker Sample.yields_component [] ExitElementNode].
Proof.
  destruct (markers_framed_in_disciplined_runs
              [OpPush []; OpEnter Sample.yields_component ExitElementNode;
               OpPush ["child"]; OpSafe "child"; OpPop ["child"]])
    as [(called & st & Hrun & Hframed & _) _].
  { simpl. repeat split; try discriminate. by eexists. }
  exists called, st. split; [exact Hrun|]. split; [exact Hframed|].
  vm_compute in Hrun. by injection Hrun as <- _.
Defined.

(** ** Where the search for a binding stops *)

(** C2 holds where the innermost binding is a marked block: the loop
    returns there, whatever lies further out. *)
Lemma search_stops_at_marked_binding part0 part1 above blockParams next rest rest' i :
  bound_by_marked_block part0 above = false →
  JS.indexOf blockParams part0 = Some i →
  (ScopeStack.scan part0 part1
     (above ++ BlockParamsEntry blockParams :: MarkerEntry next :: rest)).1
  = (ScopeStack.scan part0 part1
       (above ++ BlockParamsEntry blockParams :: MarkerEntry next :: rest')).1.
Proof.
  intros Hfree Hidx.
  rewrite !(scan_passes_over _ _ _ _ _ Hfree), !(scan_at_binding _ _ _ _ _ _ Hidx).
  by destruct (ScopeStack.covered_by next i part1).
Qed.

(** C2 fails where the innermost binding of the name is a block with no
    marker: the loop passes over that frame and answers from the marked
    block further out that binds the same name. The stack is the one the
    traversal of [Sample.shadowing_document] has at [{{component child}}],
    which is therefore taken as safe with no call to the Resolver. *)
Lemma search_passes_over_unmarked_binding :
  let inner := BlockParamsEntry ["child"] in
  let outer := [BlockParamsEntry ["child"];
                MarkerEntry (mkMarker Sample.yields_component [] ExitElementNode);
                BlockParamsEntry []] in
  ScopeStack.inScope_stack "child" [inner] = true
  ∧ bound_by_marked_block "child" [inner] = false
  ∧ ScopeStack.safeComponentInScope "child" (Sample.state_of (inner :: outer))
    = Ok true (Sample.state_of (inner :: outer))
  ∧ ∃ document st,
      transform Sample.opts Sample.env Sample.pathlib 6 Sample.shadowing_document
      = Ok (document, None) st
      ∧ trace st
        = [EvResolveElement "MyComponent" "/app/templates/index.hbs" 1;
           EvBindImport "/app/components/my-component.js" "default"
                        "MyComponent" "MyComponent";
           EvResolveMustache "each" true "/app/templates/index.hbs" 2].
Proof.
  repeat split; try reflexivity.
  do 2 eexists. split; vm_compute; reflexivity.
Qed.

(** ** Values that are themselves component invocations *)

(** C4, as it is written, fails for an output statement: one whose target
    is [ensure-safe-component] is classified as [other] and sent to the
    Resolver, and one whose target is [component] with no params and no
    hash is unwrapped to the path [component], which is sent too. *)
Lemma mustache_targets_sent_to_resolver :
  let file := "/app/templates/index.hbs" in
  let trusted :=
    MustacheStatement (Sample.path "ensure-safe-component" 1)
                      [Sample.path "widget" 2] [] 3 in
  let bare := MustacheStatement (Sample.path "component" 1) [] [] 3 in
  let refusal loc := Some (ResError (mkFail "unsafe dynamic component" "" loc)) in
  handleComponentHelper Sample.resolver trusted file None initial_state
  = Ok (refusal 3)
       (mkState [] ∅ ∅ [EvResolveComponentHelper LocOther file 3 None])
  ∧ handleComponentHelper Sample.resolver bare file None initial_state
    = Ok (refusal 1)
         (mkState [] ∅ ∅ [EvResolveComponentHelper (LocPath "component") file 1 None]).
Proof. split; reflexivity. Qed.

(** C4, amended. [handleComponentHelper] returns null and leaves the state,
    hence the trace of Resolver calls, as it is for every nested
    invocation whose target is [component] or [ensure-safe-component], and
    for every output statement whose target is [component] and which has
    at least one param or at least one hash pair. *)
Theorem inner_component_invocation_is_safe resolver moduleName impliedBecause st :
  (∀ this data parts pathLoc params hash loc,
      handleComponentHelper resolver
        (SubExpression (PathExpression "component" this data parts pathLoc) params hash loc)
        moduleName impliedBecause st = Ok None st)
  ∧ (∀ this data parts pathLoc params hash loc,
        handleComponentHelper resolver
          (SubExpression (PathExpression "ensure-safe-component" this data parts pathLoc)
                         params hash loc)
          moduleName impliedBecause st = Ok None st)
  ∧ (∀ this data parts pathLoc param params hash loc,
        handleComponentHelper resolver
          (MustacheStatement (PathExpression "component" this data parts pathLoc)
                             (param :: params) hash loc)
          moduleName impliedBecause st = Ok None st)
  ∧ (∀ this data parts pathLoc params pair pairs loc,
        handleComponentHelper resolver
          (MustacheStatement (PathExpression "component" this data parts pathLoc)
                             params (pair :: pairs) loc)
          moduleName impliedBecause st = Ok None st).
Proof.
  repeat split; intros; cbn [handleComponentHelper]; try reflexivity.
  by rewrite andb_false_r.
Qed.

(** ** Failed resolutions *)


(** ** Relations every step of a traversal respects *)

Section Respects.

Variable R : State → State → Prop.
Variable allowed : Event → Prop.

Hypothesis R_refl : ∀ st, R st st.
Hypothesis R_trans : ∀ st1 st2 st3, R st1 st2 → R st2 st3 → R st1 st3.
Hypothesis R_stack : ∀ s st, R st (with_stack s st).
Hypothesis R_safe : ∀ name, respects R (ScopeStack.safeComponentInScope name).
Hypothesis R_binding : ∀ name r st a st', set_binding name r st = Ok a st' → R st st'.
Hypothesis R_log : ∀ e st a st', allowed e → log e st = Ok a st' → R st st'.
Hypothesis R_emitAMD : ∀ env pathlib dep, respects R (emitAMD env pathlib dep).

Hypothesis allowed_resolveMustache : ∀ n a f l, allowed (EvResolveMustache n a f l).
Hypothesis allowed_resolveSubExpression : ∀ n f l, allowed (EvResolveSubExpression n f l).
Hypothesis allowed_resolveElementModifierStatement :
  ∀ n f l, allowed (EvResolveElementModifierStatement n f l).
Hypothesis allowed_resolveElement : ∀ t f l, allowed (EvResolveElement t f l).
Hypothesis allowed_resolveComponentHelper :
  ∀ c m l i, allowed (EvResolveComponentHelper c m l i).
Hypothesis allowed_resolveDynamicHelper : ∀ c m l, allowed (EvResolveDynamicHelper c m l).
Hypothesis allowed_resolveDynamicModifier :
  ∀ c m l, allowed (EvResolveDynamicModifier c m l).
Hypothesis allowed_reportError : ∀ r f c, allowed (EvReportError r f c).
Hypothesis allowed_bindImport : ∀ m e h b, allowed (EvBindImport m e h b).

Lemma respects_ret {A} (a : A) : respects R (ret a).
Proof. intros st a' st' [= _ <-]. apply R_refl. Qed.

Lemma respects_bind {A B} (m : M A) (k : A → M B) :
  respects R m → (∀ a, respects R (k a)) → respects R (bind m k).
Proof.
  intros Hm Hk st b st'. unfold bind.
  destruct (m st) as [a st1|e] eqn:Hrun; [|done].
  intros Hrun'. eapply R_trans; [by eapply Hm | by eapply Hk].
Qed.

Lemma respects_stuck {A} e : respects R (@stuck A e).
Proof. by intros st a st'. Qed.

Lemma respects_get : respects R get.
Proof. intros st a st' [= _ <-]. apply R_refl. Qed.

Lemma respects_set_stack s : respects R (set_stack s).
Proof. intros st a st' Hrun. inversion Hrun. apply R_stack. Qed.

Lemma respects_set_binding name r : respects R (set_binding name r).
Proof. intros st a st'. apply R_binding. Qed.

Lemma respects_log e : allowed e → respects R (log e).
Proof. intros He st a st'. by apply R_log. Qed.

(** Takes a goal [respects R m] apart along the binds and case
    distinctions of [m], down to the steps already proved. *)
Ltac respects_go :=
  repeat first
    [ apply R_safe
    | apply respects_ret
    | apply respects_get
    | apply respects_stuck
    | apply respects_set_stack
    | apply respects_set_binding
    | apply respects_log; solve [auto]
    | apply R_emitAMD
    | apply respects_bind; [ | intros ?]
    | assumption
    | match goal with
      | |- respects _ (match ?x with _ => _ end) => destruct x
      | |- respects _ (let '(_, _) := ?x in _) => destruct x
      end ].

Lemma respects_push blockParams : respects R (ScopeStack.push blockParams).
Proof. unfold ScopeStack.push. respects_go. Qed.

Lemma respects_pop {A} (exit : ComponentBlockMarker → A → M A) (a : A) :
  (∀ marker a', respects R (exit marker a')) → respects R (ScopeStack.pop exit a).
Proof. intros Hexit. unfold ScopeStack.pop. respects_go; try apply Hexit; respects_go. Qed.

Lemma respects_enteringComponentBlock resolution exit :
  respects R (ScopeStack.enteringComponentBlock resolution exit).
Proof. unfold ScopeStack.enteringComponentBlock. respects_go. Qed.

Lemma respects_inScope name : respects R (ScopeStack.inScope name).
Proof. unfold ScopeStack.inScope. respects_go. Qed.

Lemma respects_resolve_locator resolver locator param moduleName impliedBecause :
  respects R (resolve_locator resolver locator param moduleName impliedBecause).
Proof.
  unfold resolve_locator. respects_go.
Qed.

Lemma respects_handleComponentHelper resolver param moduleName impliedBecause :
  respects R (handleComponentHelper resolver param moduleName impliedBecause).
Proof.
  induction param; cbn [handleComponentHelper];
    try apply respects_resolve_locator; respects_go;
    try apply respects_resolve_locator.
Qed.

Lemma respects_handleDynamicHelper param moduleName :
  respects R (handleDynamicHelper param moduleName).
Proof. unfold handleDynamicHelper. respects_go. Qed.

Lemma respects_handleDynamicModifier param moduleName :
  respects R (handleDynamicModifier param moduleName).
Proof. unfold handleDynamicModifier. respects_go. Qed.

Lemma respects_emit opts env pathlib parentNode resolution setter :
  respects R (emit opts env pathlib parentNode resolution setter).
Proof. unfold emit, bind_lexically. respects_go. Qed.

Lemma respects_handleDynamicComponentArguments opts env pathlib componentName
    names attributes :
  respects R
    (handleDynamicComponentArguments opts env pathlib componentName names attributes).
Proof.
  revert attributes. induction names as [|name names IH]; intros attributes;
    cbn [handleDynamicComponentArguments]; respects_go;
    try first [apply respects_handleComponentHelper | apply respects_emit | apply IH].
Qed.

Ltac respects_all :=
  repeat first
    [ apply respects_handleDynamicComponentArguments
    | apply respects_handleComponentHelper
    | apply respects_emit
    | apply respects_handleDynamicHelper
    | apply respects_handleDynamicModifier
    | apply respects_push
    | apply respects_enteringComponentBlock
    | apply respects_inScope
    | apply respects_pop; intros ? ?
    | progress respects_go ].

Section Handlers.

Variable opts : Options.
Variable env : Env.
Variable pathlib : PathLib.

Lemma respects_exit_of_block marker owner :
  respects R (exit_of_block opts env pathlib marker owner).
Proof. unfold exit_of_block. respects_all. Qed.

Lemma respects_exit_of_element marker node :
  respects R (exit_of_element opts env pathlib marker node).
Proof. unfold exit_of_element. respects_all. Qed.

Lemma respects_Program_enter node owner :
  respects R (Program_enter env node owner).
Proof. unfold Program_enter. respects_all. Qed.

Lemma respects_Program_exit node owner :
  respects R (Program_exit opts env pathlib node owner).
Proof.
  unfold Program_exit. respects_all; apply respects_exit_of_block.
Qed.

Lemma respects_BlockStatement_handler node owner :
  respects R (BlockStatement_handler opts env pathlib node owner).
Proof.
  unfold BlockStatement_handler, inScope_root, lexical_binding, enter_if_component.
  respects_all.
Qed.

Lemma respects_SubExpression_handler node owner :
  respects R (SubExpression_handler opts env pathlib node owner).
Proof.
  unfold SubExpression_handler, inScope_root. respects_all.
Qed.

Lemma respects_MustacheStatement_enter node owner :
  respects R (MustacheStatement_enter opts env pathlib node owner).
Proof.
  unfold MustacheStatement_enter, inScope_root, lexical_binding. respects_all.
Qed.

Lemma respects_ElementModifierStatement_handler node owner :
  respects R (ElementModifierStatement_handler opts env pathlib node owner).
Proof.
  unfold ElementModifierStatement_handler, inScope_root. respects_all.
Qed.

Lemma respects_ElementNode_enter node owner :
  respects R (ElementNode_enter opts env pathlib node owner).
Proof.
  unfold ElementNode_enter, lexical_binding, enter_if_component. respects_all.
Qed.

Lemma respects_ElementNode_exit node owner :
  respects R (ElementNode_exit opts env pathlib node owner).
Proof.
  unfold ElementNode_exit. respects_all; apply respects_exit_of_element.
Qed.

Lemma makeResolverTransform_respects :
  handlers_respect R (visitor (makeResolverTransform opts env pathlib)).
Proof.
  intros node h f n owner Hh Hf. unfold makeResolverTransform in Hh.
  destruct (strict env) as [[|]|]; [by destruct node | |];
    destruct node; simpl in Hh; try done; injection Hh as <-;
    destruct Hf as [Hf|Hf]; simpl in Hf; try done; injection Hf as <-;
    first [ apply respects_Program_enter | apply respects_Program_exit
          | apply respects_BlockStatement_handler
          | apply respects_SubExpression_handler
          | apply respects_MustacheStatement_enter
          | apply respects_ElementModifierStatement_handler
          | apply respects_ElementNode_enter | apply respects_ElementNode_exit ].
Qed.

End Handlers.

Lemma respects_visit_list visit nodes :
  (∀ node, respects R (visit node)) → respects R (visit_list visit nodes).
Proof.
  intros Hvisit. induction nodes as [|node nodes IH]; cbn [visit_list]; respects_go.
  apply Hvisit.
Qed.

Lemma respects_visit_keys visit node :
  (∀ child owner, respects R (visit child owner)) → respects R (visit_keys visit node).
Proof.
  intros Hvisit. unfold visit_keys.
  destruct node; respects_go;
    try (apply respects_visit_list; intros ?; respects_go); apply Hvisit.
Qed.

Lemma respects_traverse v fuel :
  handlers_respect R v → ∀ node owner, respects R (traverse fuel v node owner).
Proof.
  intros Hv. induction fuel as [|fuel IH]; intros node owner; cbn [traverse].
  { apply respects_stuck. }
  assert (∀ select n o,
            (∀ h f, getNodeHandler v node = Some h → select h = Some f →
                    enter h = Some f ∨ exit h = Some f) →
            respects R (run_handler (getNodeHandler v node ≫= select) n o)) as Hrun.
  { intros select n o Hselect.
    destruct (getNodeHandler v node) as [h|] eqn:Hh; simpl; [|apply respects_ret].
    destruct (select h) as [f|] eqn:Hf; simpl; [|apply respects_ret].
    eapply Hv; [done | by eapply Hselect]. }
  apply respects_bind; [apply Hrun; by left|]. intros entered.
  apply respects_bind; [by apply respects_visit_keys|]. intros visited.
  apply Hrun. by right.
Qed.

End Respects.

(** ** Deferred registrations *)

Lemma emitted_names_app events events' :
  emitted_names (events ++ events') = emitted_names events ++ emitted_names events'.
Proof.
  induction events as [|e events IH]; [done|].
  destruct e; simpl; by rewrite ?IH.
Qed.

Lemma emitted_names_other e : ¬ is_emit_expression e → emitted_names [e] = [].
Proof. by destruct e. Qed.

(** What one call of [emitAMD] does. *)
Lemma emitAMD_run env pathlib dep st :
  emitAMD env pathlib dep st
  = match dep with
    | Some dep =>
        if bool_decide (runtimeName dep ∈ emittedAMDDeps st) then Ok tt st
        else Ok tt (mkState (scopeStack st) ({[runtimeName dep]} ∪ emittedAMDDeps st)
                      (emittedLexicalBindings st)
                      (trace st ++ [EvEmitExpression
                                      (relativeToFile env pathlib (absPath dep)) "default"
                                      (JS.last_part (JS.split "/" (runtimeName dep)))
                                      (runtimeName dep)]))
    | None => Ok tt st
    end.
Proof.
  destruct dep as [dep|]; [|done]. unfold emitAMD, bind, get.
  by destruct (bool_decide (runtimeName dep ∈ emittedAMDDeps st)).
Qed.

Lemma amd_grows_refl st : amd_grows st st.
Proof. by split. Qed.

Lemma amd_grows_trans st1 st2 st3 : amd_grows st1 st2 → amd_grows st2 st3 → amd_grows st1 st3.
Proof. intros [Hsub Hinv] [Hsub' Hinv']. split; [set_solver | auto]. Qed.

Lemma amd_grows_log e st a st' :
  ¬ is_emit_expression e → log e st = Ok a st' → amd_grows st st'.
Proof.
  intros He [= _ <-]. split; [done|]. unfold amd_consistent. simpl.
  by rewrite emitted_names_app, (emitted_names_other e He), app_nil_r.
Qed.

Lemma emitAMD_grows env pathlib dep : respects amd_grows (emitAMD env pathlib dep).
Proof.
  intros st [] st'. rewrite emitAMD_run. destruct dep as [dep|].
  2:{ intros [= <-]. apply amd_grows_refl. }
  case_bool_decide as Hin.
  { intros [= <-]. apply amd_grows_refl. }
  intros [= <-]. split; [simpl; set_solver|].
  intros [Hnodup Hnames]. unfold amd_consistent. simpl.
  rewrite emitted_names_app. simpl. split.
  - apply NoDup_app. split; [done|]. split; [|apply NoDup_singleton].
    intros name Hname ->%list_elem_of_singleton. apply Hin. by apply Hnames.
  - intros name. rewrite elem_of_app, list_elem_of_singleton, elem_of_union,
      elem_of_singleton, Hnames. tauto.
Qed.

(** Every step of a traversal keeps the bookkeeping of the set. *)
Lemma traversal_amd_grows opts env pathlib fuel document owner :
  respects amd_grows
    (traverse fuel (visitor (makeResolverTransform opts env pathlib)) document owner).
Proof.
  apply (respects_traverse amd_grows amd_grows_refl amd_grows_trans).
  apply (makeResolverTransform_respects amd_grows (fun e => ¬ is_emit_expression e));
    try (intros; exact (fun H => H)).
  - apply amd_grows_refl.
  - apply amd_grows_trans.
  - intros s st. by split.
  - intros name st a st'. rewrite safeComponentInScope_run. intros [= _ <-]. by split.
  - intros name r st a st' [= _ <-]. by split.
  - intros e st a st'. apply amd_grows_log.
  - apply emitAMD_grows.
Qed.

Lemma emitAMD_all_grows env pathlib deps : respects amd_grows (emitAMD_all env pathlib deps).
Proof.
  induction deps as [|dep deps IH]; cbn [emitAMD_all].
  - apply (respects_ret amd_grows amd_grows_refl).
  - apply (respects_bind amd_grows amd_grows_trans); [apply emitAMD_grows | done].
Qed.

Lemma emitAMD_all_total env pathlib deps st :
  ∃ st', emitAMD_all env pathlib deps st = Ok tt st'.
Proof.
  revert st. induction deps as [|dep deps IH]; intros st; [by eexists|].
  cbn [emitAMD_all]. unfold bind. rewrite emitAMD_run.
  destruct dep as [dep|]; [case_bool_decide|]; apply IH.
Qed.

Lemma initial_state_amd_consistent : amd_consistent initial_state.
Proof. split; [apply NoDup_nil_2 | set_solver]. Qed.

(** C8. [emitAMD] always returns and never takes a name out of
    [emittedAMDDeps]; a call for a runtime name that a call has already
    been made for changes nothing, so emits nothing. Calls of [emitAMD]
    one after the other from the fresh state of a document, and every
    traversal of a document by the transform, emit no runtime name twice,
    and the set holds exactly the names emitted. *)
Theorem deferred_registration_once opts env pathlib :
  (∀ dep st, ∃ st', emitAMD env pathlib dep st = Ok tt st'
                    ∧ emittedAMDDeps st ⊆ emittedAMDDeps st')
  ∧ (∀ dep dep' st st',
        emitAMD env pathlib (Some dep) st = Ok tt st' →
        runtimeName dep' = runtimeName dep →
        emitAMD env pathlib (Some dep') st' = Ok tt st')
  ∧ (∀ deps, ∃ st',
        emitAMD_all env pathlib deps initial_state = Ok tt st'
        ∧ amd_consistent st')
  ∧ (∀ fuel document result st',
        transform opts env pathlib fuel document = Ok result st' →
        amd_consistent st').
Proof.
  split; [|split; [|split]].
  - intros dep st. rewrite emitAMD_run.
    destruct dep as [dep|]; [case_bool_decide|]; eexists; (split; [done|]);
      simpl; set_solver.
  - intros dep dep' st st'. rewrite !emitAMD_run. intros Hrun Hname. rewrite Hname.
    case_bool_decide as Hin.
    + injection Hrun as <-. by rewrite bool_decide_eq_true_2.
    + injection Hrun as <-. simpl. rewrite bool_decide_eq_true_2; [done | set_solver].
  - intros deps. destruct (emitAMD_all_total env pathlib deps initial_state) as [st' Hrun].
    exists st'. split; [done|].
    by apply (emitAMD_all_grows env pathlib deps _ _ _ Hrun), initial_state_amd_consistent.
  - intros fuel document result st' Hrun.
    by apply (traversal_amd_grows opts env pathlib fuel document None _ _ _ Hrun),
             initial_state_amd_consistent.
Qed.

Lemma deferred_registration_once_witness :
  ∃ document st,
    transform Sample.patched_opts Sample.env Sample.pathlib 4 Sample.two_helper_calls
    = Ok (document, None) st
    ∧ amd_consistent st
    ∧ emitted_names (trace st) = ["app/helpers/my-helper"].
Proof.
  destruct (transform Sample.patched_opts Sample.env Sample.pathlib 4
              Sample.two_helper_calls) as [[document owner] st|e] eqn:Hrun;
    [|by vm_compute in Hrun].
  exists document, st.
  destruct (deferred_registration_once Sample.patched_opts Sample.env Sample.pathlib)
    as (_ & _ & _ & Htraversal).
  pose proof (Htraversal 4 Sample.two_helper_calls _ _ Hrun) as Hconsistent.
  vm_compute in Hrun. injection Hrun as <- <- <-.
  split; [reflexivity|]. split; [exact Hconsistent | reflexivity].
Defined.

(** ** Strict mode *)

Lemma max_height_bound nodes (fuel : nat) :
  (max_of (List.map height nodes) ≤ fuel)%nat →
  Forall (fun node => (height node ≤ fuel)%nat) nodes.
Proof.
  induction nodes as [|n nodes IH]; [by constructor|].
  simpl. intros Hmax. constructor; [lia | apply IH; lia].
Qed.

Lemma visit_list_unchanged visit nodes st :
  Forall (fun node => visit node st = Ok node st) nodes →
  visit_list visit nodes st = Ok nodes st.
Proof.
  induction 1 as [|node nodes Hnode _ IH]; [done|].
  cbn [visit_list]. unfold bind. by rewrite Hnode, IH.
Qed.

(** With no handler at all, walking a tree with fuel for its height
    returns the tree and the state as they were. *)
Lemma traverse_empty_visitor fuel :
  ∀ node owner st,
    (height node ≤ fuel)%nat →
    traverse fuel empty_visitor node owner st = Ok (node, owner) st.
Proof.
  induction fuel as [|fuel IH]; intros node owner st Hfuel.
  { destruct node; simpl in Hfuel; lia. }
  cbn [traverse].
  replace (getNodeHandler empty_visitor node) with (@None NodeTraversal)
    by (by destruct node).
  unfold bind, run_handler, ret. cbn [mbind option_bind fst snd].
  assert (∀ nodes, (max_of (List.map height nodes) ≤ fuel)%nat →
            visit_list (fun c => let* r := traverse fuel empty_visitor c None in ret r.1)
                       nodes st = Ok nodes st) as Hlist.
  { intros nodes Hnodes. apply visit_list_unchanged.
    eapply Forall_impl; [by apply max_height_bound|].
    intros c Hc. unfold bind. by rewrite (IH c None st Hc). }
  assert (visit_keys (traverse fuel empty_visitor) node st = Ok node st) as ->; [|done].
  destruct node; cbn [height] in Hfuel;
    cbn [visit_keys]; unfold bind, ret;
    rewrite ?IH by lia; cbn [fst snd default]; rewrite ?Hlist by lia;
    try done.
  destruct inverse as [block|]; rewrite ?IH by lia; done.
Qed.

(** C10. When the environment is strict, the plugin is the no-op one and
    its visitor has no handler; traversing any document with it, with
    fuel for the height of the document, returns the document unchanged
    and the state unchanged: no event is added to the trace (no Resolver
    call, no import bound, no registration emitted). *)
Theorem strict_mode_is_noop opts env pathlib :
  strict env = Some true →
  makeResolverTransform opts env pathlib
  = mkPlugin "embroider-build-time-resolver-strict-noop" empty_visitor
  ∧ (∀ node, getNodeHandler (visitor (makeResolverTransform opts env pathlib)) node = None)
  ∧ (∀ fuel document owner st,
        (height document ≤ fuel)%nat →
        traverse fuel (visitor (makeResolverTransform opts env pathlib)) document owner st
        = Ok (document, owner) st)
  ∧ (∀ document,
        transform opts env pathlib (height document) document
        = Ok (document, None) initial_state).
Proof.
  intros Hstrict.
  assert (makeResolverTransform opts env pathlib
          = mkPlugin "embroider-build-time-resolver-strict-noop" empty_visitor) as Hplugin.
  { unfold makeResolverTransform. by rewrite Hstrict. }
  split; [done|]. split; [|split].
  - intros node. rewrite Hplugin. by destruct node.
  - intros fuel document owner st Hfuel. rewrite Hplugin.
    by apply traverse_empty_visitor.
  - intros document. unfold transform. rewrite Hplugin.
    by apply traverse_empty_visitor.
Qed.

Lemma strict_mode_is_noop_witness :
  transform Sample.opts Sample.strict_env Sample.pathlib 5 Sample.yielding_document
  = Ok (Sample.yielding_document, None) initial_state.
Proof.
  destruct (strict_mode_is_noop Sample.opts Sample.strict_env Sample.pathlib eq_refl)
    as (_ & _ & _ & Hrun).
  exact (Hrun Sample.yielding_document).
Defined.

(** ** The modifier keyword in an output statement *)

Lemma adds_only_refl allowed st : adds_only allowed st st.
Proof. exists []. by rewrite app_nil_r. Qed.

Lemma adds_only_trans allowed st1 st2 st3 :
  adds_only allowed st1 st2 → adds_only allowed st2 st3 → adds_only allowed st1 st3.
Proof.
  intros (added & Htrace & Hadded) (added' & Htrace' & Hadded').
  exists (added ++ added'). split; [by rewrite Htrace', Htrace, app_assoc|].
  by apply Forall_app.
Qed.

Lemma emitAMD_adds_only allowed env pathlib dep :
  (∀ m e h r, allowed (EvEmitExpression m e h r)) →
  respects (adds_only allowed) (emitAMD env pathlib dep).
Proof.
  intros Hallowed st [] st'. rewrite emitAMD_run.
  destruct dep as [dep|]; [case_bool_decide|]; intros [= <-];
    try apply adds_only_refl.
  eexists. split; [done|]. by constructor.
Qed.

Lemma emitAMD_total env pathlib dep st : ∃ st', emitAMD env pathlib dep st = Ok tt st'.
Proof.
  rewrite emitAMD_run. destruct dep as [dep|]; [case_bool_decide|]; by eexists.
Qed.

(** [emit] always returns, with the node untouched or with the setter
    applied to it and a path. *)
Lemma emit_total opts env pathlib parentNode resolution setter st :
  ∃ node st',
    emit opts env pathlib parentNode resolution setter st = Ok node st'
    ∧ (node = parentNode ∨ ∃ name, node = setter parentNode (builders.path name)).
Proof.
  assert (∀ dep dep' st0, ∃ st',
            (emitAMD env pathlib dep ;;; emitAMD env pathlib dep' ;;; ret parentNode) st0
            = Ok parentNode st') as Hboth.
  { intros dep dep' st0. unfold bind.
    destruct (emitAMD_total env pathlib dep st0) as [st1 ->].
    destruct (emitAMD_total env pathlib dep' st1) as [st2 ->]. by eexists. }
  unfold emit, bind_lexically.
  destruct resolution as [[r|r|r|r]|]; try (by do 2 eexists; split; [|left]).
  - destruct (jsModule r) as [js|] eqn:Hjs, (hbsModule r) as [hbs|] eqn:Hhbs;
      try (destruct (Hboth (hbsModule r) (jsModule r) st) as [st' Hrun];
           rewrite Hjs, Hhbs in Hrun; exists parentNode, st'; split; [done | by left]).
    do 2 eexists. split; [done|]. eauto.
  - destruct (patchHelpersBug opts); [|do 2 eexists; split; [done|]; eauto].
    unfold bind. destruct (emitAMD_total env pathlib (Some (res_module r)) st) as [st' ->].
    do 2 eexists. split; [done | by left].
  - do 2 eexists. split; [done|]. eauto.
Qed.

Lemma handleDynamicComponentArguments_no_attributes opts env pathlib componentName
    names st :
  handleDynamicComponentArguments opts env pathlib componentName names [] st = Ok [] st.
Proof.
  induction names as [|name names IH]; [done|].
  cbn [handleDynamicComponentArguments find_attr]. unfold bind at 1. simpl. apply IH.
Qed.

(** C3 fails: for an output statement [{{modifier "name"}}] outside every
    scope the handler has no case for the [modifier] keyword. It asks
    the Resolver for the name [modifier] itself as a mustache with
    arguments, and no step of it asks for a dynamic modifier; the handler
    of nested invocations, on the same path and params, only asks for the
    dynamic modifier named by the literal. *)
Lemma mustache_modifier_keyword_is_resolved_as_a_name opts env pathlib value
    pathLoc valueLoc loc :
  let path := PathExpression "modifier" false false ["modifier"] pathLoc in
  let params := [StringLiteral value valueLoc] in
  (∃ node st,
      MustacheStatement_enter opts env pathlib (MustacheStatement path params [] loc)
                              None initial_state = Ok (node, None) st
      ∧ (∃ later, trace st
                  = EvResolveMustache "modifier" true (filename env) pathLoc :: later)
      ∧ Forall (fun e => is_dynamic_modifier_call e = false) (trace st))
  ∧ SubExpression_handler opts env pathlib (SubExpression path params [] loc)
                          None initial_state
    = Ok (SubExpression path params [] loc, None)
         (mkState [] ∅ ∅
                  [EvResolveDynamicModifier (LocLiteral value) (filename env) valueLoc]).
Proof.
  intros path params. split; [|reflexivity].
  set (allowed := fun e => is_dynamic_modifier_call e = false).
  set (node := MustacheStatement path params [] loc).
  set (resolution := resolveMustache (resolver opts) "modifier" true (filename env) pathLoc).
  set (st0 := mkState [] ∅ ∅ [EvResolveMustache "modifier" true (filename env) pathLoc]).
  destruct (emit_total opts env pathlib node resolution set_path st0)
    as (node1 & st1 & Hemit & Hnode).
  assert (adds_only allowed st0 st1) as (added & Htrace & Hadded).
  { eapply (respects_emit (adds_only allowed) allowed); try done.
    - apply adds_only_refl.
    - apply adds_only_trans.
    - intros name r st a st' [= _ <-]. exists []. by rewrite app_nil_r.
    - intros e st a st' He [= _ <-]. exists [e]. split; [done | by constructor].
    - intros. by apply emitAMD_adds_only. }
  assert (node_hash node1 = []) as Hhash.
  { by destruct Hnode as [->|[name ->]]. }
  assert (MustacheStatement_enter opts env pathlib node None initial_state
          = Ok (match resolution with
                | Some (ResComponent _) => set_hash node1 []
                | _ => node1
                end, None) st1) as Hrun.
  { unfold MustacheStatement_enter, node, path, params.
    cbn -[emit handleDynamicComponentArguments keyword_argument bool_decide].
    change (bool_decide (1 < 1)) with false.
    change (keyword_argument "component" "modifier" ?p) with (@None Node).
    change (keyword_argument "helper" "modifier" ?p) with (@None Node).
    change (bool_decide (0 < 1) || bool_decide (0 < 0)) with true.
    unfold bind, log. cbn -[emit handleDynamicComponentArguments].
    fold path params node resolution st0. rewrite Hemit.
    destruct resolution as [[r|r|r|r]|]; try done.
    by rewrite Hhash, handleDynamicComponentArguments_no_attributes. }
  do 2 eexists. split; [exact Hrun|]. rewrite Htrace. split; [by eexists|].
  constructor; [done | exact Hadded].
Qed.

(** ** What the exit closures do to the scope stack *)

Lemma asks_only_refl st : asks_only st st.
Proof. by exists []. Qed.

Lemma asks_only_trans st1 st2 st3 :
  asks_only st1 st2 → asks_only st2 st3 → asks_only st1 st3.
Proof.
  intros [asked Hasked] [asked' Hasked']. exists (asked ++ asked').
  unfold asked_stack in *. by rewrite foldl_app, <- Hasked.
Qed.

(** The closures handed to [enteringComponentBlock] run
    [handleDynamicComponentArguments]; to the scope stack that is a
    sequence of questions, which is what [asking_exit] stands for in the
    runs above. *)
Lemma exit_closure_only_asks opts env pathlib componentName names attributes :
  respects asks_only
    (handleDynamicComponentArguments opts env pathlib componentName names attributes).
Proof.
  apply (respects_handleDynamicComponentArguments asks_only (fun _ => True));
    try done.
  - apply asks_only_refl.
  - apply asks_only_trans.
  - intros name st a st'. rewrite safeComponentInScope_run. intros [= _ <-].
    by exists [name].
  - intros name r st a st' [= _ <-]. by exists [].
  - intros e st a st' _ [= _ <-]. by exists [].
  - intros env' pathlib' dep st [] st'. rewrite emitAMD_run.
    destruct dep as [dep|]; [case_bool_decide|]; intros [= <-]; by exists [].
Qed.

(** ** Runs of the sample documents *)

(** [{{#my-component as |child|}}{{component child}}{{/my-component}}]: the
    block is bound to its import, and [child] is passed to [component]
    with no question to the Resolver. *)
Example yielding_document_run :
  ∃ st,
    transform Sample.opts Sample.env Sample.pathlib 5 Sample.yielding_document
    = Ok (Template
            [BlockStatement (builders.path "MyComponent") [] []
               (Block [MustacheStatement (Sample.path "component" 3)
                                         [Sample.path "child" 4] [] 5]
                      ["child"] 2)
               None 6]
            [] 0, None) st
    ∧ scopeStack st = []
    ∧ trace st = [EvResolveMustache "my-component" true "/app/templates/index.hbs" 1;
                  EvBindImport "/app/components/my-component.js" "default"
                               "MyComponent" "MyComponent"].
Proof. eexists. split; [vm_compute; reflexivity|]. split; reflexivity. Qed.

(** With one level less of fuel than the document is deep the walk stops. *)
Example yielding_document_needs_fuel :
  transform Sample.opts Sample.env Sample.pathlib 4 Sample.yielding_document
  = Err OutOfFuel.
Proof. reflexivity. Qed.

(** * Further properties of the scope stack *)

Lemma covered_by_false next i part1 :
  (ScopeStack.covered_by next i part1).1 = false →
  (ScopeStack.covered_by next i part1).2 = next.
Proof. unfold ScopeStack.covered_by. by repeat case_match. Qed.

Lemma scan_false part0 part1 stack :
  (ScopeStack.scan part0 part1 stack).1 = false →
  (ScopeStack.scan part0 part1 stack).2 = stack.
Proof.
  induction stack as [|here rest IH]; [done|].
  assert ((let '(safe, rest') := ScopeStack.scan part0 part1 rest in
           (safe, here :: rest')).1 = false →
          (let '(safe, rest') := ScopeStack.scan part0 part1 rest in
           (safe, here :: rest')).2 = here :: rest) as Hskip.
  { destruct (ScopeStack.scan part0 part1 rest) as [safe rest']. simpl in *.
    intros ->. by rewrite IH. }
  cbn [ScopeStack.scan].
  destruct here as [bps|m]; [|done].
  destruct rest as [|[bps'|next] above]; [done | done |].
  destruct (JS.indexOf bps part0) as [i|]; [|done].
  pose proof (covered_by_false next i part1) as Hnext.
  destruct (ScopeStack.covered_by next i part1) as [safe next']. simpl in *.
  intros ->. by rewrite Hnext.
Qed.

Lemma scan_unbound part0 part1 stack :
  bound_by_marked_block part0 stack = false →
  ScopeStack.scan part0 part1 stack = (false, stack).
Proof.
  induction stack as [|here rest IH]; [done|].
  intros Hfree. cbn [ScopeStack.scan].
  destruct here as [bps|m].
  - destruct rest as [|[bps'|next] above].
    + done.
    + simpl in Hfree. by rewrite IH.
    + simpl in Hfree. apply orb_false_iff in Hfree as [Hidx Hfree].
      apply bool_decide_eq_false in Hidx.
      destruct (JS.indexOf bps part0) as [i|]; [by destruct Hidx|].
      by rewrite IH.
  - simpl in Hfree. by rewrite IH.
Qed.

Lemma indexOf_elem arr x i : JS.indexOf arr x = Some i → x ∈ arr.
Proof.
  intros Hidx. apply indexOf_lookup in Hidx as [Hat _].
  by eapply list_elem_of_lookup_2.
Qed.

Lemma scan_true_in_scope part0 part1 stack :
  (ScopeStack.scan part0 part1 stack).1 = true →
  ScopeStack.inScope_stack part0 stack = true.
Proof.
  induction stack as [|here rest IH]; [done|].
  assert ((let '(safe, rest') := ScopeStack.scan part0 part1 rest in
           (safe, here :: rest')).1 = true →
          ScopeStack.inScope_stack part0 (here :: rest) = true) as Hskip.
  { destruct (ScopeStack.scan part0 part1 rest) as [safe rest']. simpl in *.
    intros ->. rewrite IH; [|done]. by rewrite orb_true_r. }
  cbn [ScopeStack.scan].
  destruct here as [bps|m]; [|done].
  destruct rest as [|[bps'|next] above]; [done | done |].
  destruct (JS.indexOf bps part0) as [i|] eqn:Hidx; [|done].
  intros _. simpl. unfold JS.includes.
  by rewrite bool_decide_eq_true_2; [|by eapply indexOf_elem].
Qed.

Lemma not_in_scope_not_bound name stack :
  ScopeStack.inScope_stack name stack = false →
  bound_by_marked_block name stack = false.
Proof.
  induction stack as [|here rest IH]; [done|].
  simpl. intros Hscope. apply orb_false_iff in Hscope as [Hhere Hrest].
  specialize (IH Hrest).
  destruct here as [bps|m]; [|done].
  destruct rest as [|[bps'|next] above]; [done | done |].
  rewrite IH, orb_false_r. apply bool_decide_eq_false. intros [i Hidx].
  apply indexOf_elem in Hidx. unfold JS.includes in Hhere.
  by apply bool_decide_eq_false in Hhere.
Qed.

Lemma safeComponentInScope_stack_segments name stack :
  ScopeStack.safeComponentInScope_stack name stack
  = match JS.split "." name with
    | [_] => ScopeStack.scan (first_segment name) None stack
    | [_; part1] => ScopeStack.scan (first_segment name) (Some part1) stack
    | _ => (false, stack)
    end.
Proof.
  unfold ScopeStack.safeComponentInScope_stack, first_segment.
  by destruct (JS.split "." name) as [|p0 [|p1 [|p2 ps]]].
Qed.

(** X1. A path of more than two segments is never safe, whatever the
    stack holds, and asking about it changes nothing; a path expression
    of that kind is therefore always sent to the Resolver. *)
Theorem deep_path_is_never_safe resolver name this data parts loc moduleName
    impliedBecause st :
  2 < length (JS.split "." name) →
  ScopeStack.safeComponentInScope name st = Ok false st
  ∧ handleComponentHelper resolver (PathExpression name this data parts loc)
                          moduleName impliedBecause st
    = Ok (resolveComponentHelper resolver (LocPath name) moduleName loc impliedBecause)
         (mkState (scopeStack st) (emittedAMDDeps st) (emittedLexicalBindings st)
                  (trace st ++ [EvResolveComponentHelper (LocPath name) moduleName loc
                                                         impliedBecause])).
Proof.
  intros Hdeep.
  assert (ScopeStack.safeComponentInScope_stack name (scopeStack st)
          = (false, scopeStack st)) as Hscan.
  { unfold ScopeStack.safeComponentInScope_stack.
    destruct (JS.split "." name) as [|p0 [|p1 [|p2 ps]]]; simpl in Hdeep; try lia; done. }
  split.
  - rewrite safeComponentInScope_run, Hscan. simpl. by rewrite with_stack_same.
  - cbn [handleComponentHelper]. unfold resolve_locator, bind.
    by rewrite safeComponentInScope_run, Hscan.
Qed.

Lemma deep_path_is_never_safe_witness :
  let st := Sample.state_of [BlockParamsEntry ["child"];
                             MarkerEntry (Sample.marker_of Sample.yields_component)] in
  ScopeStack.safeComponentInScope "child.menu.item" st = Ok false st.
Proof.
  intros st.
  exact (proj1 (deep_path_is_never_safe Sample.resolver "child.menu.item" false false
                  ["child"; "menu"; "item"] 1 "/app/templates/index.hbs" None st
                  ltac:(vm_compute; lia))).
Defined.

(** X2. A path whose first segment is bound by no marked block of the
    stack (for one, a path whose first segment is not in scope at all) is
    not safe, asking about it changes nothing, and [handleComponentHelper]
    sends it to the Resolver once, as a path locator, and returns the
    Resolver's answer. *)
Theorem unbound_path_goes_to_resolver resolver name this data parts loc moduleName
    impliedBecause st :
  bound_by_marked_block (first_segment name) (scopeStack st) = false →
  ScopeStack.safeComponentInScope name st = Ok false st
  ∧ handleComponentHelper resolver (PathExpression name this data parts loc)
                          moduleName impliedBecause st
    = Ok (resolveComponentHelper resolver (LocPath name) moduleName loc impliedBecause)
         (mkState (scopeStack st) (emittedAMDDeps st) (emittedLexicalBindings st)
                  (trace st ++ [EvResolveComponentHelper (LocPath name) moduleName loc
                                                         impliedBecause])).
Proof.
  intros Hfree.
  assert (ScopeStack.safeComponentInScope_stack name (scopeStack st)
          = (false, scopeStack st)) as Hscan.
  { rewrite safeComponentInScope_stack_segments.
    destruct (JS.split "." name) as [|p0 [|p1 [|p2 ps]]]; try done;
      by apply scan_unbound. }
  split.
  - rewrite safeComponentInScope_run, Hscan. simpl. by rewrite with_stack_same.
  - cbn [handleComponentHelper]. unfold resolve_locator, bind.
    by rewrite safeComponentInScope_run, Hscan.
Qed.

Lemma unbound_path_goes_to_resolver_witness :
  let st := Sample.state_of [BlockParamsEntry ["item"]; BlockParamsEntry ["child"];
                             MarkerEntry (Sample.marker_of Sample.yields_component)] in
  ScopeStack.safeComponentInScope "item.child" st = Ok false st.
Proof.
  intros st.
  exact (proj1 (unbound_path_goes_to_resolver Sample.resolver "item.child" false false
                  ["item"; "child"] 1 "/app/templates/index.hbs" None st eq_refl)).
Defined.

Lemma safeComponentInScope_two_segments name part0 part1 stack :
  JS.split "." name = [part0; part1] →
  ScopeStack.safeComponentInScope_stack name stack
  = ScopeStack.scan part0 (Some part1) stack.
Proof. intros Hsplit. unfold ScopeStack.safeComponentInScope_stack. by rewrite Hsplit. Qed.

(** X3. For a two-segment path [a.b] whose first segment the innermost
    marked block binds at slot [i]: when [yieldsComponents[i]] is an object,
    the answer is whether its field [b] is [true], whatever
    [yieldsArguments] says for the slot, and nothing is recorded. *)
Theorem yielded_field_decides resolver st above blockParams next rest name part0 part1
    i entry :
  scopeStack st = above ++ BlockParamsEntry blockParams :: MarkerEntry next :: rest →
  JS.split "." name = [part0; part1] →
  bound_by_marked_block part0 above = false →
  JS.indexOf blockParams part0 = Some i →
  yieldsComponents (marker_resolution next) !! i = Some (YCFields entry) →
  ScopeStack.safeComponentInScope name st
  = Ok (bool_decide (entry !! part1 = Some true)) st
  ∧ (entry !! part1 = Some true →
     ∀ this data parts loc moduleName impliedBecause,
       handleComponentHelper resolver (PathExpression name this data parts loc)
                             moduleName impliedBecause st = Ok None st).
Proof.
  intros Hstack Hsplit Hfree Hidx Hyield.
  assert (ScopeStack.safeComponentInScope_stack name (scopeStack st)
          = (bool_decide (entry !! part1 = Some true), scopeStack st)) as Hscan.
  { rewrite (safeComponentInScope_two_segments _ _ _ _ Hsplit), Hstack.
    rewrite (scan_passes_over _ _ _ _ _ Hfree), (scan_at_binding _ _ _ _ _ _ Hidx).
    unfold ScopeStack.covered_by. by rewrite Hyield. }
  split.
  - rewrite safeComponentInScope_run, Hscan. simpl. by rewrite with_stack_same.
  - intros Hfield this data parts loc moduleName impliedBecause.
    rewrite handleComponentHelper_safe_path; rewrite Hscan; simpl.
    + by rewrite with_stack_same.
    + by apply bool_decide_eq_true.
Qed.

(** X4. For such a path, when [yieldsComponents[i]] is not an object and
    [yieldsArguments[i]] is an object whose field [b] is the string [X],
    the path is safe and [X] is appended to the list of that marker, and
    to nothing else. *)
Theorem forwarded_field_is_recorded st above blockParams next rest name part0 part1
    i fields X :
  scopeStack st = above ++ BlockParamsEntry blockParams :: MarkerEntry next :: rest →
  JS.split "." name = [part0; part1] →
  bound_by_marked_block part0 above = false →
  JS.indexOf blockParams part0 = Some i →
  (∀ entry, yieldsComponents (marker_resolution next) !! i ≠ Some (YCFields entry)) →
  yieldsArguments (marker_resolution next) !! i = Some (YAFields fields) →
  fields !! part1 = Some X →
  ScopeStack.safeComponentInScope name st
  = Ok true (with_stack (above ++ BlockParamsEntry blockParams
                           :: MarkerEntry (ScopeStack.push_argument next X) :: rest) st).
Proof.
  intros Hstack Hsplit Hfree Hidx Hflag Hyield Hfield.
  rewrite safeComponentInScope_run.
  rewrite (safeComponentInScope_two_segments _ _ _ _ Hsplit), Hstack.
  rewrite (scan_passes_over _ _ _ _ _ Hfree), (scan_at_binding _ _ _ _ _ _ Hidx).
  unfold ScopeStack.covered_by. rewrite Hyield, Hfield.
  destruct (yieldsComponents (marker_resolution next) !! i) as [[flag|entry]|] eqn:Hyc;
    try done.
  by destruct (Hflag entry).
Qed.

Lemma yielded_field_decides_witness :
  let st := Sample.state_of [BlockParamsEntry ["api"; "slots"];
                             MarkerEntry (Sample.marker_of Sample.yields_fields)] in
  ScopeStack.safeComponentInScope "api.header" st = Ok true st
  ∧ ScopeStack.safeComponentInScope "api.footer" st = Ok false st
  ∧ ScopeStack.safeComponentInScope "api.ignored" st = Ok false st.
Proof.
  intros st.
  pose proof (fun name part1 Hsplit =>
    proj1 (yielded_field_decides Sample.resolver st [] ["api"; "slots"]
             (Sample.marker_of Sample.yields_fields) [] name "api" part1 0
             {["header" := true; "footer" := false]}
             eq_refl Hsplit eq_refl eq_refl eq_refl)) as Hfield.
  split; [exact (Hfield "api.header" "header" eq_refl)|].
  split; [exact (Hfield "api.footer" "footer" eq_refl)|].
  exact (Hfield "api.ignored" "ignored" eq_refl).
Defined.

Lemma forwarded_field_is_recorded_witness :
  let next := Sample.marker_of Sample.yields_fields in
  ScopeStack.safeComponentInScope "slots.body"
    (Sample.state_of [BlockParamsEntry ["api"; "slots"]; MarkerEntry next])
  = Ok true (Sample.state_of [BlockParamsEntry ["api"; "slots"];
                              MarkerEntry (ScopeStack.push_argument next "content")]).
Proof.
  intros next.
  refine (forwarded_field_is_recorded
            (Sample.state_of [BlockParamsEntry ["api"; "slots"]; MarkerEntry next])
            [] ["api"; "slots"] next [] "slots.body"
            "slots" "body" 1 {["body" := "content"]} "content"
            eq_refl eq_refl eq_refl eq_refl _ eq_refl eq_refl).
  intros entry Hentry. discriminate Hentry.
Defined.

Lemma with_stack_id s st : scopeStack st = s → with_stack s st = st.
Proof. intros <-. by destruct st. Qed.

(** X5. [safeComponentInScope] always returns; it leaves every entry of
    the stack in place, every frame and every marker's resolution and
    exit as they are, and only ever appends to the list of a marker; the
    set of registrations, the ledger and the trace are untouched; and an
    answer of [false] comes with no change at all. *)
Theorem asking_is_append_only name st :
  ∃ safe st',
    ScopeStack.safeComponentInScope name st = Ok safe st'
    ∧ Forall2 entry_grows (scopeStack st) (scopeStack st')
    ∧ emittedAMDDeps st' = emittedAMDDeps st
    ∧ emittedLexicalBindings st' = emittedLexicalBindings st
    ∧ trace st' = trace st
    ∧ (safe = false → st' = st).
Proof.
  rewrite safeComponentInScope_run. do 2 eexists. split; [done|].
  split; [apply safeComponentInScope_grows|]. do 3 (split; [done|]).
  intros Hfalse.
  assert ((ScopeStack.safeComponentInScope_stack name (scopeStack st)).2 = scopeStack st)
    as ->; [|apply with_stack_same].
  revert Hfalse. rewrite safeComponentInScope_stack_segments.
  destruct (JS.split "." name) as [|p0 [|p1 [|p2 ps]]]; try done; apply scan_false.
Qed.

(** X6. Only a path whose first segment is in scope can be safe. *)
Theorem safe_path_is_in_scope name st st' :
  ScopeStack.safeComponentInScope name st = Ok true st' →
  ScopeStack.inScope (first_segment name) st = Ok true st.
Proof.
  rewrite safeComponentInScope_run. intros [= Hsafe _].
  unfold ScopeStack.inScope, bind, get, ret. f_equal.
  revert Hsafe. rewrite safeComponentInScope_stack_segments.
  destruct (JS.split "." name) as [|p0 [|p1 [|p2 ps]]]; try done;
    apply scan_true_in_scope.
Qed.

Lemma safe_path_is_in_scope_witness :
  let st := Sample.state_of [BlockParamsEntry ["api"; "slots"];
                             MarkerEntry (Sample.marker_of Sample.yields_fields)] in
  ScopeStack.inScope "api" st = Ok true st.
Proof.
  intros st.
  exact (safe_path_is_in_scope "api.header" st st eq_refl).
Defined.

Lemma inScope_stack_elem name stack :
  ScopeStack.inScope_stack name stack = true
  ↔ ∃ blockParams, BlockParamsEntry blockParams ∈ stack ∧ name ∈ blockParams.
Proof.
  induction stack as [|here rest IH]; simpl.
  { split; [done | intros (? & []%elem_of_nil & _)]. }
  rewrite orb_true_iff, IH. split.
  - intros [Hhere|(bps & Hin & Hname)].
    + destruct here as [bps|m]; [|done]. exists bps. split; [left|].
      by apply bool_decide_eq_true in Hhere.
    + exists bps. split; [by right | done].
  - intros (bps & Hin & Hname). apply elem_of_cons in Hin as [Heq|Hin].
    + left. subst here. by apply bool_decide_eq_true.
    + right. by exists bps.
Qed.

Lemma inScope_stack_grows name s s' :
  Forall2 entry_grows s s' →
  ScopeStack.inScope_stack name s' = ScopeStack.inScope_stack name s.
Proof.
  induction 1 as [|e e' s s' He Hs IH]; [done|]. simpl. rewrite IH.
  destruct e as [b|m], e' as [b'|m']; simpl in He; try done. by subst.
Qed.

(** X7. A name is in scope exactly when some block-params frame of the
    stack, at any depth, lists it; markers do not count, and neither
    entering a component block nor asking [safeComponentInScope] changes
    what is in scope. *)
Theorem in_scope_means_listed_in_a_frame name stack :
  (ScopeStack.inScope_stack name stack = true
   ↔ ∃ blockParams, BlockParamsEntry blockParams ∈ stack ∧ name ∈ blockParams)
  ∧ (∀ marker, ScopeStack.inScope_stack name (MarkerEntry marker :: stack)
               = ScopeStack.inScope_stack name stack)
  ∧ (∀ asked, ScopeStack.inScope_stack name
                (ScopeStack.safeComponentInScope_stack asked stack).2
              = ScopeStack.inScope_stack name stack).
Proof.
  split; [apply inScope_stack_elem|]. split; [done|].
  intros asked. apply inScope_stack_grows, safeComponentInScope_grows.
Qed.

(** X8. Leaving a block undoes entering it. On a stack whose top is not a
    marker, [push] followed by [pop] gives the state back and calls no
    exit; [enteringComponentBlock], [push] and [pop] call the exit once,
    on the marker as it was entered, and leave the entries that were
    there, with nothing but what the exit asked appended to their
    markers. On an empty stack [pop] does nothing, whatever the exit. *)
Theorem leaving_undoes_entering blockParams asked called st :
  top_is_marker (scopeStack st) = false →
  run_ops [OpPush blockParams; OpPop asked] called st = Ok called st
  ∧ (∀ resolution exit,
       ∃ st', run_ops [OpEnter resolution exit; OpPush blockParams; OpPop asked] called st
              = Ok (called ++ [mkMarker resolution (argumentsAreComponents resolution) exit])
                   st'
              ∧ Forall2 entry_grows (scopeStack st) (scopeStack st')
              ∧ emittedAMDDeps st' = emittedAMDDeps st
              ∧ emittedLexicalBindings st' = emittedLexicalBindings st
              ∧ trace st' = trace st)
  ∧ (∀ A (exit : ComponentBlockMarker → A → M A) (a : A),
       scopeStack st = [] → ScopeStack.pop exit a st = Ok a st).
Proof.
  intros Htop. split; [|split].
  - cbn [run_ops]. unfold bind. rewrite !run_op_run, pop_asking_run. simpl.
    destruct (scopeStack st) as [|[bps|m] rest] eqn:Hstack; try done;
      unfold ret; f_equal; rewrite with_stack_twice; by apply with_stack_id.
  - intros resolution exit. cbn [run_ops]. unfold bind. rewrite !run_op_run.
    set (st1 := with_stack _ (with_stack _ st)).
    destruct (pop_asking_marker asked called st1 (BlockParamsEntry blockParams)
                (mkMarker resolution (argumentsAreComponents resolution) exit)
                (scopeStack st) eq_refl) as (rest' & -> & Hgrow).
    by eexists.
  - intros A exit a Hempty. unfold ScopeStack.pop, bind, get, set_stack, ret.
    rewrite scopeStack_with_stack, Hempty. simpl.
    f_equal. apply with_stack_id. by rewrite Hempty.
Qed.

Lemma leaving_undoes_entering_witness :
  let st := Sample.state_of [BlockParamsEntry ["item"]] in
  run_ops [OpPush ["child"]; OpPop ["item"]] [] st = Ok [] st.
Proof.
  intros st.
  exact (proj1 (leaving_undoes_entering ["child"] ["item"] [] st eq_refl)).
Defined.

(** * Further properties of the classifier and the emitter *)

Set Warnings "-clear-no-such-hyp".

Lemma resolve_locator_run resolver locator param moduleName impliedBecause st :
  ∃ result st',
    resolve_locator resolver locator param moduleName impliedBecause st = Ok result st'
    ∧ Forall2 entry_grows (scopeStack st) (scopeStack st')
    ∧ emittedAMDDeps st' = emittedAMDDeps st
    ∧ emittedLexicalBindings st' = emittedLexicalBindings st
    ∧ ((result = None ∧ trace st' = trace st)
       ∨ (result = resolveComponentHelper resolver locator moduleName (node_loc param)
                                          impliedBecause
          ∧ trace st' = trace st ++ [EvResolveComponentHelper locator moduleName
                                       (node_loc param) impliedBecause])).
Proof.
  unfold resolve_locator, bind.
  destruct locator as [path|path|];
    try (do 2 eexists; split; [done|]; split; [apply entries_grow_refl|]; by eauto 6).
  rewrite safeComponentInScope_run.
  pose proof (safeComponentInScope_grows path (scopeStack st)) as Hgrow.
  destruct (ScopeStack.safeComponentInScope_stack path (scopeStack st)) as [[|] stack'];
    do 2 eexists; (split; [done|]); (split; [exact Hgrow|]); by eauto 6.
Qed.

Lemma handleComponentHelper_run resolver param moduleName impliedBecause st :
  ∃ result st',
    handleComponentHelper resolver param moduleName impliedBecause st = Ok result st'
    ∧ Forall2 entry_grows (scopeStack st) (scopeStack st')
    ∧ emittedAMDDeps st' = emittedAMDDeps st
    ∧ emittedLexicalBindings st' = emittedLexicalBindings st
    ∧ ((result = None ∧ trace st' = trace st)
       ∨ ∃ locator loc,
           result = resolveComponentHelper resolver locator moduleName loc impliedBecause
           ∧ trace st' = trace st ++ [EvResolveComponentHelper locator moduleName loc
                                                               impliedBecause]).
Proof.
  assert (∀ locator (p : Node),
            ∃ result st',
              resolve_locator resolver locator p moduleName impliedBecause st
              = Ok result st'
              ∧ Forall2 entry_grows (scopeStack st) (scopeStack st')
              ∧ emittedAMDDeps st' = emittedAMDDeps st
              ∧ emittedLexicalBindings st' = emittedLexicalBindings st
              ∧ ((result = None ∧ trace st' = trace st)
                 ∨ ∃ locator loc,
                     result = resolveComponentHelper resolver locator moduleName loc
                                                     impliedBecause
                     ∧ trace st' = trace st ++ [EvResolveComponentHelper locator
                                                  moduleName loc impliedBecause]))
    as Hlocator.
  { intros locator p.
    destruct (resolve_locator_run resolver locator p moduleName impliedBecause st)
      as (result & st' & Hrun & Hgrow & Hamd & Hledger & Htrace).
    exists result, st'. do 4 (split; [done|]).
    destruct Htrace as [?|[? ?]]; [by left | right; by eauto]. }
  assert (∃ result st',
            (ret None : M (option Resolution)) st = Ok result st'
            ∧ Forall2 entry_grows (scopeStack st) (scopeStack st')
            ∧ emittedAMDDeps st' = emittedAMDDeps st
            ∧ emittedLexicalBindings st' = emittedLexicalBindings st
            ∧ ((result = None ∧ trace st' = trace st)
               ∨ ∃ locator loc,
                   result = resolveComponentHelper resolver locator moduleName loc
                                                   impliedBecause
                   ∧ trace st' = trace st ++ [EvResolveComponentHelper locator
                                                moduleName loc impliedBecause]))
    as Hnull.
  { exists None, st. split; [done|]. split; [apply entries_grow_refl|]. by eauto. }
  induction param; cbn [handleComponentHelper]; try apply Hlocator.
  - destruct (bool_decide (length hash = 0) && bool_decide (length params = 0));
      [done|]. destruct (is_path_named "component" param); [apply Hnull | apply Hlocator].
  - destruct (is_path_named "component" param); [apply Hnull|].
    destruct (is_path_named "ensure-safe-component" param); [apply Hnull | apply Hlocator].
Qed.

(** X10. Where [emit] binds lexically (a modifier always, a helper unless
    [patchHelpersBug], a component with a [jsModule] and no [hbsModule]) it
    asks the binder once for the default export of the module, relative
    to the file; the node is given to the setter with a path of the name
    the binder chose; and looking that name up in the ledger then gives
    the resolution. Scope stack and registrations are untouched. *)
Theorem lexical_binding_is_remembered opts env pathlib parentNode resolution setter st
    absPath nameHint :
  lexical_module opts (Some resolution) = Some (absPath, nameHint) →
  let name := bindImport (jsutils env) (trace st) (relativeToFile env pathlib absPath)
                         "default" parentNode nameHint in
  ∃ st',
    emit opts env pathlib parentNode (Some resolution) setter st
    = Ok (setter parentNode (builders.path name)) st'
    ∧ emittedLexicalBindings st' !! name = Some resolution
    ∧ (∀ other, other ≠ name →
                emittedLexicalBindings st' !! other = emittedLexicalBindings st !! other)
    ∧ trace st' = trace st ++ [EvBindImport (relativeToFile env pathlib absPath)
                                            "default" nameHint name]
    ∧ scopeStack st' = scopeStack st
    ∧ emittedAMDDeps st' = emittedAMDDeps st.
Proof.
  intros Hlexical name.
  assert (emit opts env pathlib parentNode (Some resolution) setter st
          = bind_lexically env pathlib parentNode absPath nameHint resolution setter st)
    as ->.
  { unfold emit. destruct resolution as [r|r|r|r]; simpl in Hlexical.
    - destruct (jsModule r) as [js|], (hbsModule r) as [hbs|]; try done.
      by injection Hlexical as <- <-.
    - destruct (patchHelpersBug opts); [done|]. by injection Hlexical as <- <-.
    - by injection Hlexical as <- <-.
    - done. }
  cbv [bind_lexically bind get log set_binding ret]. fold name.
  eexists. split; [reflexivity|]. simpl.
  split; [apply lookup_insert_eq|]. split; [|done].
  intros other Hother. by apply lookup_insert_ne.
Qed.

Lemma lexical_binding_is_remembered_witness :
  ∃ st',
    emit Sample.opts Sample.env Sample.pathlib
         (MustacheStatement (Sample.path "my-component" 1) [] [] 2)
         (Some (ResComponent Sample.yields_component)) set_path initial_state
    = Ok (MustacheStatement (builders.path "MyComponent") [] [] 2) st'
    ∧ emittedLexicalBindings st' !! "MyComponent"
      = Some (ResComponent Sample.yields_component).
Proof.
  destruct (lexical_binding_is_remembered Sample.opts Sample.env Sample.pathlib
              (MustacheStatement (Sample.path "my-component" 1) [] [] 2)
              (ResComponent Sample.yields_component) set_path initial_state
              "/app/components/my-component.js" "MyComponent" eq_refl)
    as (st' & Hrun & Hlookup & _).
  exists st'. split; [exact Hrun | exact Hlookup].
Defined.

Lemma emitAMD_set env pathlib dep st :
  ∃ st', emitAMD env pathlib dep st = Ok tt st'
         ∧ emittedAMDDeps st'
           = emittedAMDDeps st ∪ list_to_set (runtimeName <$> option_list dep)
         ∧ scopeStack st' = scopeStack st
         ∧ emittedLexicalBindings st' = emittedLexicalBindings st
         ∧ adds_only is_emit_expression st st'.
Proof.
  rewrite emitAMD_run. destruct dep as [dep|]; [case_bool_decide|]; eexists;
    (split; [done|]); simpl; (split; [set_solver|]); do 2 (split; [done|]).
  - apply adds_only_refl.
  - eexists. split; [done|]. by constructor.
  - apply adds_only_refl.
Qed.

(** X11. Where [emit] does not bind lexically it never touches the node,
    the ledger or the scope stack. After it the runtime names of the
    modules it registers instead (the helper's module under
    [patchHelpersBug]; the [hbsModule] and then the [jsModule] of a
    component that has an [hbsModule] or no [jsModule]) are all in
    [emittedAMDDeps], which gains nothing else, and nothing but
    registrations is added to the trace unless the resolution is an
    error. *)
Theorem deferred_registration_keeps_node opts env pathlib parentNode resolution setter st :
  lexical_module opts resolution = None →
  ∃ st',
    emit opts env pathlib parentNode resolution setter st = Ok parentNode st'
    ∧ emittedAMDDeps st'
      = emittedAMDDeps st ∪ list_to_set (runtimeName <$> deferred_modules opts resolution)
    ∧ emittedLexicalBindings st' = emittedLexicalBindings st
    ∧ scopeStack st' = scopeStack st
    ∧ ((∃ failure, resolution = Some (ResError failure))
       ∨ adds_only is_emit_expression st st').
Proof.
  intros Hdeferred.
  assert (∀ hbs js, ∃ st',
            (emitAMD env pathlib hbs ;;; emitAMD env pathlib js ;;; ret parentNode) st
            = Ok parentNode st'
            ∧ emittedAMDDeps st'
              = emittedAMDDeps st
                ∪ list_to_set (runtimeName <$> (option_list hbs ++ option_list js))
            ∧ emittedLexicalBindings st' = emittedLexicalBindings st
            ∧ scopeStack st' = scopeStack st
            ∧ adds_only is_emit_expression st st') as Hboth.
  { intros hbs js. unfold bind.
    destruct (emitAMD_set env pathlib hbs st) as (st1 & -> & Hamd1 & Hs1 & Hl1 & Ht1).
    destruct (emitAMD_set env pathlib js st1) as (st2 & -> & Hamd2 & Hs2 & Hl2 & Ht2).
    exists st2. split; [done|].
    split; [rewrite Hamd2, Hamd1, fmap_app, list_to_set_app_L; set_solver|].
    split; [congruence|]. split; [congruence|]. by eapply adds_only_trans. }
  unfold emit, deferred_modules.
  destruct resolution as [[r|r|r|r]|]; simpl in Hdeferred.
  - destruct (jsModule r) as [js|] eqn:Hjs, (hbsModule r) as [hbs|] eqn:Hhbs; try done;
      destruct (Hboth (hbsModule r) (jsModule r))
        as (st' & Hrun & Hamd & Hledger & Hstack & Htrace);
      rewrite Hjs, Hhbs in Hrun, Hamd; exists st'; by eauto 6.
  - destruct (patchHelpersBug opts); [|done]. unfold bind.
    destruct (emitAMD_set env pathlib (Some (res_module r)) st)
      as (st' & -> & Hamd & Hstack & Hledger & Htrace).
    exists st'. split; [done|]. split; [|by eauto]. by rewrite Hamd.
  - done.
  - eexists. split; [done|]. simpl. split; [by rewrite union_empty_r_L|]. by eauto 6.
  - exists st. split; [done|]. split; [by simpl; rewrite union_empty_r_L|].
    do 2 (split; [done|]). right. apply adds_only_refl.
Qed.

Lemma deferred_registration_keeps_node_witness :
  ∃ st',
    emit Sample.opts Sample.env Sample.pathlib
         (MustacheStatement (Sample.path "old-box" 1) [] [] 2)
         (Some (ResComponent Sample.legacy_component)) set_path initial_state
    = Ok (MustacheStatement (Sample.path "old-box" 1) [] [] 2) st'
    ∧ emitted_names (trace st')
      = ["app/templates/components/old-box"; "app/components/old-box"].
Proof.
  destruct (deferred_registration_keeps_node Sample.opts Sample.env Sample.pathlib
              (MustacheStatement (Sample.path "old-box" 1) [] [] 2)
              (Some (ResComponent Sample.legacy_component)) set_path initial_state
              eq_refl) as (st' & Hrun & _).
  exists st'. split; [exact Hrun|].
  vm_compute in Hrun. by injection Hrun as <-.
Defined.

(** X9. [handleComponentHelper] always returns. It asks the Resolver at
    most once, with [resolveComponentHelper] and the module name and
    provenance it was given, and then returns the Resolver's answer;
    otherwise it returns null and the trace is as before. It binds no
    import and registers nothing, and all it does to the scope stack is to
    append to the lists of markers. *)
Theorem classifier_asks_at_most_once resolver param moduleName impliedBecause st :
  ∃ result st',
    handleComponentHelper resolver param moduleName impliedBecause st = Ok result st'
    ∧ Forall2 entry_grows (scopeStack st) (scopeStack st')
    ∧ emittedAMDDeps st' = emittedAMDDeps st
    ∧ emittedLexicalBindings st' = emittedLexicalBindings st
    ∧ ((result = None ∧ trace st' = trace st)
       ∨ ∃ locator loc,
           result = resolveComponentHelper resolver locator moduleName loc impliedBecause
           ∧ trace st' = trace st ++ [EvResolveComponentHelper locator moduleName loc
                                                               impliedBecause]).
Proof. apply handleComponentHelper_run. Qed.

(** ** Arguments that are components *)

Lemma with_value_same attr : with_value attr (attr_value attr) = attr.
Proof. by destruct attr. Qed.

Lemma with_value_twice attr v v' : with_value (with_value attr v) v' = with_value attr v'.
Proof. by destruct attr. Qed.

Lemma same_attribute_refl attr : same_attribute attr attr.
Proof. exists (attr_value attr). by rewrite with_value_same. Qed.

Lemma same_attribute_trans a b c :
  same_attribute a b → same_attribute b c → same_attribute a c.
Proof. intros [v ->] [v' ->]. exists v'. apply with_value_twice. Qed.

Lemma same_attributes_refl attrs : Forall2 same_attribute attrs attrs.
Proof. induction attrs; constructor; [apply same_attribute_refl | done]. Qed.

Lemma same_attributes_trans l1 l2 l3 :
  Forall2 same_attribute l1 l2 → Forall2 same_attribute l2 l3 →
  Forall2 same_attribute l1 l3.
Proof.
  intros H12. revert l3. induction H12 as [|a b l1 l2 Hab Hl IH]; intros l3 H23.
  - by inversion H23.
  - inversion H23 as [|? c ? l3' Hbc Hl']; subst. constructor; [|by apply IH].
    by eapply same_attribute_trans.
Qed.

Lemma set_attr_value_same attr newId : same_attribute attr (set_attr_value attr newId).
Proof. destruct attr; try apply same_attribute_refl; by eexists. Qed.

Lemma attr_is_named_with_value name attr v :
  attr_is_named name (with_value attr v) = attr_is_named name attr.
Proof. by destruct attr. Qed.

Lemma find_attr_lookup name attributes i attr :
  find_attr name attributes = Some (i, attr) →
  attributes !! i = Some attr ∧ attr_is_named name attr = true.
Proof.
  revert i. induction attributes as [|a attributes IH]; intros i; simpl; [done|].
  destruct (attr_is_named name a) eqn:Hnamed.
  - by intros [= <- <-].
  - destruct (find_attr name attributes) as [[j found]|]; [|done].
    intros [= <- <-]. by apply IH.
Qed.

Lemma find_attr_none name attributes :
  Forall (fun attr => attr_is_named name attr = false) attributes →
  find_attr name attributes = None.
Proof.
  induction 1 as [|a attributes Ha _ IH]; [done|]. simpl. by rewrite Ha, IH.
Qed.

Lemma handleDynamicComponentArguments_run opts env pathlib componentName names :
  ∀ attributes st,
    ∃ attributes' st',
      handleDynamicComponentArguments opts env pathlib componentName names attributes st
      = Ok attributes' st'
      ∧ Forall2 same_attribute attributes attributes'
      ∧ Forall2 entry_grows (scopeStack st) (scopeStack st')
      ∧ (∀ i attr,
           attributes !! i = Some attr →
           Forall (fun name => attr_is_named name attr = false) names →
           attributes' !! i = Some attr).
Proof.
  induction names as [|name names IH]; intros attributes st.
  { exists attributes, st. split; [done|]. split; [apply same_attributes_refl|].
    split; [apply entries_grow_refl | done]. }
  cbn [handleDynamicComponentArguments]. unfold bind at 1.
  destruct (find_attr name attributes) as [[i attr]|] eqn:Hfind.
  - apply find_attr_lookup in Hfind as [Hat Hnamed]. unfold bind.
    destruct (handleComponentHelper_run (resolver opts) (attr_value attr) (filename env)
                (Some (componentName, name)) st)
      as (resolution & st1 & -> & Hgrow1 & Hamd1 & Hledger1 & _).
    destruct (emit_total opts env pathlib attr resolution set_attr_value st1)
      as (attr' & st2 & Hemit & Hattr').
    pose proof (respects_emit asks_only (fun _ => True) asks_only_refl asks_only_trans
                  ltac:(by intros ? ? ? ? ? [= _ <-]; exists [])
                  ltac:(by intros ? ? ? ? _ [= _ <-]; exists [])
                  ltac:(intros ? ? dep s0 [] s1; rewrite emitAMD_run;
                        destruct dep; [case_bool_decide|]; intros [= <-]; by exists [])
                  ltac:(done) ltac:(done)
                  opts env pathlib attr resolution set_attr_value st1 attr' st2 Hemit)
      as [asked Hasked].
    rewrite Hemit. simpl.
    destruct (IH (<[i:=attr']> attributes) st2)
      as (attributes' & st' & -> & Hsame & Hgrow & Hkept).
    exists attributes', st'. split; [done|].
    assert (same_attribute attr attr') as Hattr.
    { destruct Hattr' as [->|[newName ->]];
        [apply same_attribute_refl | apply set_attr_value_same]. }
    split; [|split].
    + eapply same_attributes_trans; [|exact Hsame].
      apply Forall2_same_length_lookup_2; [by rewrite length_insert|].
      intros j a b Ha Hb. destruct (decide (i = j)) as [->|Hne].
      * rewrite list_lookup_insert_eq in Hb by (by eapply lookup_lt_Some).
        rewrite Hat in Ha. by injection Ha as <-; injection Hb as <-.
      * rewrite list_lookup_insert_ne in Hb by done.
        rewrite Ha in Hb. injection Hb as <-. apply same_attribute_refl.
    + eapply entries_grow_trans; [exact Hgrow1|].
      eapply entries_grow_trans; [|exact Hgrow].
      rewrite Hasked. clear. generalize (scopeStack st1).
      induction asked as [|q asked IHq]; intros s; [apply entries_grow_refl|].
      simpl. eapply entries_grow_trans; [apply safeComponentInScope_grows | apply IHq].
    + intros j a Ha Hnot. apply Hkept; [|by inversion Hnot].
      destruct (decide (i = j)) as [->|Hne]; [|by rewrite list_lookup_insert_ne].
      rewrite Hat in Ha. injection Ha as <-.
      inversion Hnot as [|? ? Hfalse _]; subst. congruence.
  - simpl. destruct (IH attributes st) as (attributes' & st' & -> & Hsame & Hgrow & Hkept).
    exists attributes', st'. do 3 (split; [done|]).
    intros j a Ha Hnot. apply Hkept; [done | by inversion Hnot].
Qed.

(** X12. [handleDynamicComponentArguments] always returns. It gives back
    as many attributes or hash pairs as it was given, each with its name
    (or key) and location and at most another value; an attribute that no
    name of the list names (an attribute as [@name], a pair as [name]) is
    given back as it was; and to the scope stack it only appends to the
    lists of markers. *)
Theorem arguments_keep_their_names opts env pathlib componentName names attributes st :
  ∃ attributes' st',
    handleDynamicComponentArguments opts env pathlib componentName names attributes st
    = Ok attributes' st'
    ∧ Forall2 same_attribute attributes attributes'
    ∧ Forall2 entry_grows (scopeStack st) (scopeStack st')
    ∧ (∀ i attr,
         attributes !! i = Some attr →
         Forall (fun name => attr_is_named name attr = false) names →
         attributes' !! i = Some attr).
Proof. apply handleDynamicComponentArguments_run. Qed.

(** * Further properties of the handlers and of the traversal *)

Set Warnings "-notation-for-abbreviation".

(** ** What [emit] does to the scope stack *)

Lemma emit_stack opts env pathlib parentNode resolution setter st :
  ∃ node st',
    emit opts env pathlib parentNode resolution setter st = Ok node st'
    ∧ scopeStack st' = scopeStack st
    ∧ (node = parentNode ∨ ∃ name, node = setter parentNode (builders.path name)).
Proof.
  assert (∀ absPath nameHint r st0,
            ∃ node st',
              bind_lexically env pathlib parentNode absPath nameHint r setter st0
              = Ok node st'
              ∧ scopeStack st' = scopeStack st0
              ∧ (node = parentNode
                 ∨ ∃ name, node = setter parentNode (builders.path name))) as Hlex.
  { intros absPath nameHint r st0.
    cbv [bind_lexically bind get log set_binding ret].
    eexists _, _. split; [reflexivity|]. split; [done|]. right. by eexists. }
  assert (∀ dep1 dep2 st0,
            ∃ st', (emitAMD env pathlib dep1 ;;; emitAMD env pathlib dep2 ;;;
                    ret parentNode) st0 = Ok parentNode st'
                   ∧ scopeStack st' = scopeStack st0) as Hboth.
  { intros dep1 dep2 st0. unfold bind.
    destruct (emitAMD_set env pathlib dep1 st0) as (st1 & -> & _ & Hs1 & _).
    destruct (emitAMD_set env pathlib dep2 st1) as (st2 & -> & _ & Hs2 & _).
    exists st2. split; [done|]. congruence. }
  unfold emit. destruct resolution as [[r|r|r|failure]|].
  - destruct (jsModule r) as [js|] eqn:Hjs; destruct (hbsModule r) as [hbs|] eqn:Hhbs;
      try (destruct (Hboth (hbsModule r) (jsModule r) st) as (st' & Hrun & Hs);
           rewrite Hjs, Hhbs in Hrun; exists parentNode, st';
           split; [exact Hrun|]; split; [exact Hs | by left]).
    apply Hlex.
  - destruct (patchHelpersBug opts); [|apply Hlex].
    unfold bind. destruct (emitAMD_set env pathlib (Some (res_module r)) st)
      as (st' & -> & _ & Hs & _).
    exists parentNode, st'. split; [done|]. split; [done | by left].
  - apply Hlex.
  - eexists _, _. split; [reflexivity|]. split; [done | by left].
  - eexists _, _. split; [reflexivity|]. split; [done | by left].
Qed.

Lemma set_attr_value_twice attr a b :
  set_attr_value (set_attr_value attr a) b = set_attr_value attr b.
Proof. by destruct attr. Qed.

Lemma rebound_trans a b c : rebound a b → rebound b c → rebound a c.
Proof.
  intros [->|[n ->]] [->|[m ->]]; [by left | right; by exists m | right; by exists n|].
  right. exists m. apply set_attr_value_twice.
Qed.

Lemma all_rebound_refl attributes : Forall2 rebound attributes attributes.
Proof. induction attributes; constructor; [by left | done]. Qed.

Lemma all_rebound_trans a b c :
  Forall2 rebound a b → Forall2 rebound b c → Forall2 rebound a c.
Proof.
  intros Hab. revert c. induction Hab; intros c Hbc; inversion Hbc; subst;
    constructor; eauto using rebound_trans.
Qed.

Lemma handleDynamicComponentArguments_rebinds opts env pathlib componentName names :
  ∀ attributes st,
    ∃ attributes' st',
      handleDynamicComponentArguments opts env pathlib componentName names attributes st
      = Ok attributes' st'
      ∧ Forall2 rebound attributes attributes'
      ∧ Forall2 entry_grows (scopeStack st) (scopeStack st').
Proof.
  induction names as [|name names IH]; intros attributes st.
  { exists attributes, st. split; [done|]. split; [apply all_rebound_refl|].
    apply entries_grow_refl. }
  cbn [handleDynamicComponentArguments]. unfold bind at 1.
  destruct (find_attr name attributes) as [[i attr]|] eqn:Hfind.
  - apply find_attr_lookup in Hfind as [Hat Hnamed]. unfold bind.
    destruct (handleComponentHelper_run (resolver opts) (attr_value attr) (filename env)
                (Some (componentName, name)) st)
      as (resolution & st1 & -> & Hgrow1 & _).
    destruct (emit_stack opts env pathlib attr resolution set_attr_value st1)
      as (attr' & st2 & -> & Hstack & Hattr').
    simpl.
    destruct (IH (<[i:=attr']> attributes) st2)
      as (attributes' & st' & -> & Hsame & Hgrow).
    exists attributes', st'. split; [done|]. split.
    + eapply all_rebound_trans; [|exact Hsame].
      apply Forall2_same_length_lookup_2; [by rewrite length_insert|].
      intros j a b Ha Hb. destruct (decide (i = j)) as [->|Hne].
      * rewrite list_lookup_insert_eq in Hb by (by eapply lookup_lt_Some).
        rewrite Hat in Ha. injection Ha as <-; injection Hb as <-.
        destruct Hattr' as [->|[n ->]]; [by left | right; by exists n].
      * rewrite list_lookup_insert_ne in Hb by done.
        rewrite Ha in Hb. injection Hb as <-. by left.
    + eapply entries_grow_trans; [exact Hgrow1|]. by rewrite <- Hstack.
  - simpl. apply IH.
Qed.

(** ** Nodes that stay well formed *)

Lemma height_pos node : (1 ≤ height node)%nat.
Proof. destruct node; simpl; lia. Qed.

Lemma builders_path_shape name :
  ∃ this parts,
    builders.path name = PathExpression name this false parts builders.synthetic_loc.
Proof. unfold builders.path. repeat case_match; by eexists _, _. Qed.

Lemma settled_refl kind node : settled_as kind node node.
Proof. by intros Hwf. Qed.

Lemma all_settled_refl kind nodes : Forall2 (settled_as kind) nodes nodes.
Proof. induction nodes; constructor; [apply settled_refl | done]. Qed.

Lemma settled_path node name : settled_as KExpression node (builders.path name).
Proof.
  intros _. destruct (builders_path_shape name) as (this & parts & ->).
  split; [done|]. apply height_pos.
Qed.

Lemma settled_param0 params name :
  Forall2 (settled_as KExpression) params (<[0 := builders.path name]> params).
Proof.
  destruct params as [|param params]; [constructor|].
  constructor; [apply settled_path | apply all_settled_refl].
Qed.

Lemma settled_pair attr attr' : rebound attr attr' → settled_as KPair attr attr'.
Proof.
  intros [->|[name ->]]; [apply settled_refl|].
  intros Hwf. destruct attr as [| | | | | | | | | | | | | | | | | |key value loc];
    try discriminate. simpl in *.
  destruct (settled_path value name Hwf) as [-> Hle]. split; [done | lia].
Qed.

Lemma settled_pairs pairs pairs' :
  Forall2 rebound pairs pairs' → Forall2 (settled_as KPair) pairs pairs'.
Proof. induction 1; constructor; auto using settled_pair. Qed.

Lemma settled_list kind nodes nodes' :
  Forall2 (settled_as kind) nodes nodes' →
  forallb (well_formed kind) nodes = true →
  forallb (well_formed kind) nodes' = true
  ∧ (max_of (List.map height nodes') ≤ max_of (List.map height nodes))%nat.
Proof.
  induction 1 as [|a b nodes nodes' Hab _ IH]; [done|]. simpl.
  intros [Ha Hnodes]%andb_true_iff. destruct (Hab Ha) as [-> Hle].
  destruct (IH Hnodes) as [-> Hmax]. split; [done | lia].
Qed.

(** ** What the handlers give back *)

Lemma inScope_root_run rootName st :
  ∃ scoped, inScope_root rootName st = Ok scoped st.
Proof. destruct rootName; by eexists. Qed.

Lemma enter_if_component_run resolution exit st :
  ∃ st',
    enter_if_component resolution exit st = Ok tt st'
    ∧ (st' = st
       ∨ ∃ marker, scopeStack st' = MarkerEntry marker :: scopeStack st
                   ∧ marker_exit marker = exit).
Proof.
  destruct resolution as [[r|r|r|failure]|]; try by (exists st; split; [|left]).
  eexists. split; [reflexivity|]. right. by eexists.
Qed.

Ltac shaped :=
  repeat match goal with |- _ ∧ _ => split end;
  try first [ eassumption
            | reflexivity
            | by left
            | by right; eexists
            | apply all_rebound_refl
            | apply entries_grow_refl
            | left; apply entries_grow_refl ].

Ltac left_alone :=
  repeat (match goal with |- ∃ _, _ => eexists end);
  (split; [reflexivity|]); shaped.

Lemma renamed_settled path path' :
  renamed path path' → settled_as KExpression path path'.
Proof. intros [->|[name ->]]; [apply settled_refl | apply settled_path]. Qed.

Lemma first_renamed_settled params params' :
  first_renamed params params' → Forall2 (settled_as KExpression) params params'.
Proof. intros [->|[name ->]]; [apply all_settled_refl | apply settled_param0]. Qed.

Section HandlerRuns.

Variable opts : Options.
Variable env : Env.
Variable pathlib : PathLib.

Lemma MustacheStatement_enter_run path params hash loc owner st :
  ∃ path' params' hash' st',
    MustacheStatement_enter opts env pathlib (MustacheStatement path params hash loc)
                            owner st
    = Ok (MustacheStatement path' params' hash' loc, owner) st'
    ∧ renamed path path'
    ∧ first_renamed params params'
    ∧ Forall2 rebound hash hash'
    ∧ Forall2 entry_grows (scopeStack st) (scopeStack st').
Proof.
  destruct path as [| | | | | | | | | | | |original this data parts pathLoc| | | | | |];
    try left_alone.
  cbn [MustacheStatement_enter]. unfold bind at 1.
  destruct (inScope_root_run (head parts) st) as [scoped ->].
  destruct scoped.
  { unfold bind at 1, lexical_binding at 1, bind at 1, get at 1, ret at 1.
    destruct (match head parts with Some name => _ | None => None end)
      as [[r|r|r|failure]|]; try left_alone.
    unfold bind.
    destruct (handleDynamicComponentArguments_rebinds opts env pathlib (head parts)
                (argumentsAreComponents r) hash st)
      as (pairs & st' & -> & Hpairs & Hgrow).
    eexists _, _, _, _. split; [reflexivity|].
    shaped. }
  destruct this; [left_alone|]. case_bool_decide; [left_alone|].
  destruct (keyword_argument "component" original params) as [param0|].
  { unfold bind.
    destruct (handleComponentHelper_run (resolver opts) param0 (filename env) None st)
      as (resolution & st1 & -> & Hgrow & _).
    destruct (emit_stack opts env pathlib
                (MustacheStatement (PathExpression original false data parts pathLoc)
                                   params hash loc) resolution set_param0 st1)
      as (node' & st2 & -> & Hstack & [->|[name ->]]); simpl;
      eexists _, _, _, _; (split; [reflexivity|]); rewrite Hstack;
      shaped. }
  destruct (keyword_argument "helper" original params) as [param0|].
  { unfold bind. destruct param0; left_alone. }
  unfold bind at 1, log at 1. unfold bind at 1.
  match goal with
  | |- context [emit _ _ _ ?node ?resolution ?setter ?st0] =>
      destruct (emit_stack opts env pathlib node resolution setter st0)
        as (node' & st2 & -> & Hstack & Hnode');
      destruct resolution as [[r|r|r|failure]|]
  end.
  2-5: destruct Hnode' as [->|[name ->]]; simpl;
       eexists _, _, _, _; (split; [reflexivity|]); rewrite Hstack;
       shaped.
  destruct Hnode' as [->|[name ->]]; simpl; unfold bind;
    match goal with
    | |- context [handleDynamicComponentArguments _ _ _ ?cn ?names ?pairs ?st0] =>
        destruct (handleDynamicComponentArguments_rebinds opts env pathlib cn names
                    pairs st0) as (pairs' & st' & -> & Hpairs & Hgrow)
    end;
    eexists _, _, _, _; (split; [reflexivity|]); rewrite Hstack in Hgrow;
    shaped.
Qed.

Lemma SubExpression_handler_run path params hash loc owner st :
  ∃ path' params' st',
    SubExpression_handler opts env pathlib (SubExpression path params hash loc) owner st
    = Ok (SubExpression path' params' hash loc, owner) st'
    ∧ renamed path path'
    ∧ first_renamed params params'
    ∧ Forall2 entry_grows (scopeStack st) (scopeStack st').
Proof.
  destruct path as [| | | | | | | | | | | |original this data parts pathLoc| | | | | |];
    try left_alone.
  cbn [SubExpression_handler]. destruct this; [left_alone|]. unfold bind at 1.
  destruct (inScope_root_run (head parts) st) as [scoped ->].
  destruct scoped; [left_alone|].
  destruct (keyword_argument "component" original params) as [param0|].
  { unfold bind.
    destruct (handleComponentHelper_run (resolver opts) param0 (filename env) None st)
      as (resolution & st1 & -> & Hgrow & _).
    destruct (emit_stack opts env pathlib
                (SubExpression (PathExpression original false data parts pathLoc)
                               params hash loc) resolution set_param0 st1)
      as (node' & st2 & -> & Hstack & [->|[name ->]]); simpl;
      eexists _, _, _; (split; [reflexivity|]); rewrite Hstack;
      shaped. }
  destruct (keyword_argument "helper" original params) as [param0|].
  { unfold bind. destruct param0; left_alone. }
  destruct (keyword_argument "modifier" original params) as [param0|].
  { unfold bind. destruct param0; left_alone. }
  unfold bind at 1, log at 1. unfold bind at 1.
  match goal with
  | |- context [emit _ _ _ ?node ?resolution ?setter ?st0] =>
      destruct (emit_stack opts env pathlib node resolution setter st0)
        as (node' & st2 & -> & Hstack & [->|[name ->]])
  end; simpl; eexists _, _, _; (split; [reflexivity|]); rewrite Hstack;
    shaped.
Qed.

Lemma ElementModifierStatement_handler_run path params hash loc owner st :
  ∃ path' st',
    ElementModifierStatement_handler opts env pathlib
      (ElementModifierStatement path params hash loc) owner st
    = Ok (ElementModifierStatement path' params hash loc, owner) st'
    ∧ renamed path path'
    ∧ scopeStack st' = scopeStack st.
Proof.
  destruct path as [| | | | | | | | | | | |original this data parts pathLoc| | | | | |];
    try left_alone.
  cbn [ElementModifierStatement_handler]. unfold bind at 1.
  destruct (inScope_root_run (head parts) st) as [scoped ->].
  destruct scoped; [left_alone|]. destruct this; [left_alone|].
  destruct data; [left_alone|]. case_bool_decide; [left_alone|].
  unfold bind at 1, log at 1. unfold bind at 1.
  match goal with
  | |- context [emit _ _ _ ?node ?resolution ?setter ?st0] =>
      destruct (emit_stack opts env pathlib node resolution setter st0)
        as (node' & st2 & -> & Hstack & [->|[name ->]])
  end; simpl; eexists _, _; (split; [reflexivity|]); rewrite Hstack;
    shaped.
Qed.

Lemma BlockStatement_handler_run path params hash program inverse loc owner st :
  ∃ path' params' st',
    BlockStatement_handler opts env pathlib
      (BlockStatement path params hash program inverse loc) owner st
    = Ok (BlockStatement path' params' hash program inverse loc, owner) st'
    ∧ renamed path path'
    ∧ first_renamed params params'
    ∧ (Forall2 entry_grows (scopeStack st) (scopeStack st')
       ∨ ∃ marker rootName,
           scopeStack st' = MarkerEntry marker :: scopeStack st
           ∧ marker_exit marker = ExitBlockStatement rootName).
Proof.
  destruct path as [| | | | | | | | | | | |original this data parts pathLoc| | | | | |];
    try left_alone.
  cbn [BlockStatement_handler]. unfold bind at 1.
  destruct (inScope_root_run (head parts) st) as [scoped ->].
  destruct scoped.
  { unfold bind at 1, lexical_binding at 1, bind at 1, get at 1, ret at 1.
    unfold bind.
    match goal with
    | |- context [enter_if_component ?resolution ?exit ?st0] =>
        destruct (enter_if_component_run resolution exit st0)
          as (st' & -> & [->|(marker & Hstack & Hexit)])
    end; [left_alone|].
    eexists _, _, _. split; [reflexivity|].
    split; [by left|]. split; [by left|]. right. by eexists _, _. }
  destruct this; [left_alone|]. case_bool_decide; [left_alone|].
  destruct (keyword_argument "component" original params) as [param0|].
  { unfold bind.
    destruct (handleComponentHelper_run (resolver opts) param0 (filename env) None st)
      as (resolution & st1 & -> & Hgrow & _).
    destruct (emit_stack opts env pathlib
                (BlockStatement (PathExpression original false data parts pathLoc)
                                params hash program inverse loc) resolution set_param0 st1)
      as (node' & st2 & -> & Hstack & [->|[name ->]]); simpl;
      eexists _, _, _; (split; [reflexivity|]); rewrite Hstack;
      shaped. }
  unfold bind at 1, log at 1. unfold bind at 1.
  match goal with
  | |- context [emit _ _ _ ?node ?resolution ?setter ?st0] =>
      destruct (emit_stack opts env pathlib node resolution setter st0)
        as (node' & st2 & -> & Hstack & Hnode');
      unfold bind;
      match goal with
      | |- context [enter_if_component resolution ?exit st2] =>
          destruct (enter_if_component_run resolution exit st2)
            as (st' & -> & Hst')
      end
  end.
  destruct Hnode' as [->|[name ->]]; simpl; eexists _, _, _; (split; [reflexivity|]);
    (split; [shaped|]);
    (split; [by left|]);
    (destruct Hst' as [->|(marker & Hmarker & Hexit)];
     [left; rewrite Hstack; apply entries_grow_refl
     |right; exists marker; eexists; rewrite Hmarker, Hstack; by split]).
Qed.

Lemma ElementNode_enter_run tag attributes modifiers children comments blockParams loc
    owner st :
  ∃ tag' st',
    ElementNode_enter opts env pathlib
      (ElementNode tag attributes modifiers children comments blockParams loc) owner st
    = Ok (ElementNode tag' attributes modifiers children comments blockParams loc, owner)
         st'
    ∧ (scopeStack st' = BlockParamsEntry blockParams :: scopeStack st
       ∨ ∃ marker,
           scopeStack st'
           = BlockParamsEntry blockParams :: MarkerEntry marker :: scopeStack st
           ∧ marker_exit marker = ExitElementNode).
Proof.
  cbn [ElementNode_enter]. unfold bind at 1, ScopeStack.inScope at 1, bind at 1, get at 1,
    ret at 1.
  destruct (ScopeStack.inScope_stack (tag_root tag) (scopeStack st)).
  - unfold bind at 1, bind at 1, lexical_binding at 1, bind at 1, get at 1, ret at 1.
    unfold bind at 1.
    match goal with
    | |- context [enter_if_component ?resolution ?exit ?st0] =>
        destruct (enter_if_component_run resolution exit st0)
          as (st' & -> & [->|(marker & Hstack & Hexit)])
    end; eexists _, _; (split; [reflexivity|]); [by left|].
    right. exists marker. simpl. by rewrite Hstack.
  - unfold bind at 1, bind at 1, log at 1. unfold bind at 1.
    match goal with
    | |- context [emit _ _ _ ?node ?resolution ?setter ?st0] =>
        destruct (emit_stack opts env pathlib node resolution setter st0)
          as (node' & st2 & -> & Hstack & Hnode');
        unfold bind at 1;
        match goal with
        | |- context [enter_if_component resolution ?exit st2] =>
            destruct (enter_if_component_run resolution exit st2)
              as (st' & -> & Hst')
        end
    end.
    destruct Hnode' as [->|[name ->]]; simpl; eexists _, _; (split; [reflexivity|]);
      (destruct Hst' as [->|(marker & Hmarker & Hexit)];
       [left; simpl; by rewrite Hstack
       |right; exists marker; simpl; rewrite Hmarker, Hstack; by split]).
Qed.

Lemma Program_enter_run node owner st :
  ∃ st',
    Program_enter env node owner st = Ok (node, owner) st'
    ∧ scopeStack st'
      = BlockParamsEntry (node_blockParams node)
        :: match locals env with
           | Some names => [BlockParamsEntry names]
           | None => []
           end ++ scopeStack st.
Proof.
  unfold Program_enter. destruct (locals env); eexists; (split; [reflexivity|]); done.
Qed.

End HandlerRuns.

(** X13. Entering a [MustacheStatement] always returns and rewrites the
    statement in place: it is given back with its location, its path
    either as it was or a path built for a bound name, its params either
    as they were or with such a path in the first place, and each of its
    pairs as it was or with such a path as value; to the scope stack the
    handler only appends to the lists of markers, it never pushes or pops
    an entry. *)
Theorem mustache_statement_is_rewritten_in_place opts env pathlib path params hash loc
    owner st :
  ∃ path' params' hash' st',
    MustacheStatement_enter opts env pathlib (MustacheStatement path params hash loc)
                            owner st
    = Ok (MustacheStatement path' params' hash' loc, owner) st'
    ∧ renamed path path'
    ∧ first_renamed params params'
    ∧ Forall2 rebound hash hash'
    ∧ Forall2 entry_grows (scopeStack st) (scopeStack st').
Proof. apply MustacheStatement_enter_run. Qed.

(** X14. The [BlockStatement] handler always returns. It gives the
    statement back with its pairs, its program, its inverse and its
    location untouched, the path and the params as they were or renamed
    as [emit] does; and either the scope stack only had names appended to
    its markers, or exactly one marker was put on top of the stack as it
    was, with the exit closure of a block statement. *)
Theorem block_statement_enters_at_most_one_marker opts env pathlib path params hash
    program inverse loc owner st :
  ∃ path' params' st',
    BlockStatement_handler opts env pathlib
      (BlockStatement path params hash program inverse loc) owner st
    = Ok (BlockStatement path' params' hash program inverse loc, owner) st'
    ∧ renamed path path'
    ∧ first_renamed params params'
    ∧ (Forall2 entry_grows (scopeStack st) (scopeStack st')
       ∨ ∃ marker rootName,
           scopeStack st' = MarkerEntry marker :: scopeStack st
           ∧ marker_exit marker = ExitBlockStatement rootName).
Proof. apply BlockStatement_handler_run. Qed.

(** X15. The [SubExpression] handler always returns. It gives the
    expression back with its pairs and its location untouched, the path
    and the params as they were or renamed as [emit] does, and to the
    scope stack it only appends to the lists of markers. *)
Theorem sub_expression_is_rewritten_in_place opts env pathlib path params hash loc
    owner st :
  ∃ path' params' st',
    SubExpression_handler opts env pathlib (SubExpression path params hash loc) owner st
    = Ok (SubExpression path' params' hash loc, owner) st'
    ∧ renamed path path'
    ∧ first_renamed params params'
    ∧ Forall2 entry_grows (scopeStack st) (scopeStack st').
Proof. apply SubExpression_handler_run. Qed.

(** X16. The [ElementModifierStatement] handler always returns. Only the
    path of the modifier can change, to a path built for a bound name;
    the params, the pairs and the location are given back untouched, and
    the scope stack is exactly as it was. *)
Theorem element_modifier_keeps_the_stack opts env pathlib path params hash loc owner st :
  ∃ path' st',
    ElementModifierStatement_handler opts env pathlib
      (ElementModifierStatement path params hash loc) owner st
    = Ok (ElementModifierStatement path' params hash loc, owner) st'
    ∧ renamed path path'
    ∧ scopeStack st' = scopeStack st.
Proof. apply ElementModifierStatement_handler_run. Qed.

(** X17. Entering an [ElementNode] always returns. Only the tag of the
    element can change; and the scope stack afterwards is the stack as it
    was, with the element's block params pushed as one frame, and at most
    one marker between that frame and the old stack, whose exit closure
    is the one of an element. *)
Theorem element_enter_pushes_one_frame opts env pathlib tag attributes modifiers children
    comments blockParams loc owner st :
  ∃ tag' st',
    ElementNode_enter opts env pathlib
      (ElementNode tag attributes modifiers children comments blockParams loc) owner st
    = Ok (ElementNode tag' attributes modifiers children comments blockParams loc, owner)
         st'
    ∧ (scopeStack st' = BlockParamsEntry blockParams :: scopeStack st
       ∨ ∃ marker,
           scopeStack st'
           = BlockParamsEntry blockParams :: MarkerEntry marker :: scopeStack st
           ∧ marker_exit marker = ExitElementNode).
Proof. apply ElementNode_enter_run. Qed.

(** ** Leaving a block or an element *)

Lemma grows_frame blockParams stack stack' :
  Forall2 entry_grows (BlockParamsEntry blockParams :: stack) stack' →
  ∃ below, stack' = BlockParamsEntry blockParams :: below
           ∧ Forall2 entry_grows stack below.
Proof.
  intros Hgrow. inversion Hgrow as [|? here ? below Hhere Hbelow]; subst.
  destruct here; [|done]. simpl in Hhere. subst. by eexists.
Qed.

Lemma grows_marker marker stack stack' :
  Forall2 entry_grows (MarkerEntry marker :: stack) stack' →
  ∃ marker' below, stack' = MarkerEntry marker' :: below
                   ∧ marker_exit marker' = marker_exit marker
                   ∧ Forall2 entry_grows stack below.
Proof.
  intros Hgrow. inversion Hgrow as [|? here ? below Hhere Hbelow]; subst.
  destruct here as [|marker']; [done|]. destruct Hhere as [[= _ Hexit] _].
  by eexists _, _.
Qed.

Lemma grows_top stack stack' :
  Forall2 entry_grows stack stack' → top_is_marker stack' = top_is_marker stack.
Proof. intros [|[] [] ? ? Hhere _]; done. Qed.

Lemma pop_plain {A} (exit : ComponentBlockMarker → A → M A) a frame below st :
  scopeStack st = frame :: below →
  top_is_marker below = false →
  ScopeStack.pop exit a st = Ok a (with_stack below st).
Proof.
  intros Hstack Htop. unfold ScopeStack.pop, bind, get, set_stack. simpl.
  rewrite Hstack. simpl. by destruct below as [|[]].
Qed.

Section Exits.

Variable opts : Options.
Variable env : Env.
Variable pathlib : PathLib.

Lemma pop_block frame marker below rootName pairs st :
  scopeStack st = frame :: MarkerEntry marker :: below →
  marker_exit marker = ExitBlockStatement rootName →
  ∃ pairs' st',
    ScopeStack.pop (exit_of_block opts env pathlib) (Some pairs) st = Ok (Some pairs') st'
    ∧ Forall2 entry_grows below (scopeStack st').
Proof.
  intros Hstack Hexit. unfold ScopeStack.pop, bind, get, set_stack. simpl.
  rewrite Hstack. simpl. unfold exit_of_block. rewrite Hexit. unfold bind.
  match goal with
  | |- context [handleDynamicComponentArguments _ _ _ ?cn ?names ?attrs ?st0] =>
      destruct (handleDynamicComponentArguments_rebinds opts env pathlib cn names
                  attrs st0) as (pairs' & st1 & -> & _ & Hgrow)
  end.
  simpl in Hgrow. apply grows_marker in Hgrow as (marker' & below' & Hstack1 & _ & Hgrow).
  eexists _, _. split; [reflexivity|]. simpl. by rewrite Hstack1.
Qed.

Lemma pop_block_frame frame base owner st :
  scopeStack st = frame :: base →
  enterable KBlock owner base →
  ∃ owner' st',
    ScopeStack.pop (exit_of_block opts env pathlib) owner st = Ok owner' st'
    ∧ Forall2 entry_grows (without_top_marker base) (scopeStack st').
Proof.
  intros Hstack Henter. destruct base as [|[blockParams|marker] below].
  - erewrite pop_plain by done. eexists _, _. split; [done|]. constructor.
  - erewrite pop_plain by done. eexists _, _. split; [done|]. apply entries_grow_refl.
  - destruct Henter as (_ & [rootName Hexit] & [pairs ->]).
    destruct (pop_block _ _ _ _ pairs _ Hstack Hexit) as (pairs' & st' & -> & Hgrow).
    by eexists _, _.
Qed.

Lemma enterable_block_grows owner base base' :
  Forall2 entry_grows base base' →
  enterable KBlock owner base → enterable KBlock owner base'.
Proof.
  intros Hgrow Henter. destruct base as [|[blockParams|marker] below].
  - by inversion Hgrow.
  - by apply grows_frame in Hgrow as (below' & -> & _).
  - apply grows_marker in Hgrow as (marker' & below' & -> & Hexit & Hgrow).
    destruct Henter as (Htop & Hroot & Howner). simpl.
    rewrite (grows_top _ _ Hgrow), Hexit. done.
Qed.

Lemma grows_without_top_marker base base' :
  Forall2 entry_grows base base' →
  Forall2 entry_grows (without_top_marker base) (without_top_marker base').
Proof.
  intros Hgrow. destruct base as [|[blockParams|marker] below].
  - by inversion Hgrow.
  - by apply grows_frame in Hgrow as (below' & -> & ?); constructor.
  - by apply grows_marker in Hgrow as (marker' & below' & -> & _ & ?).
Qed.

Lemma Program_exit_run node owner base st :
  Forall2 entry_grows
    (BlockParamsEntry (node_blockParams node)
     :: match locals env with
        | Some names => [BlockParamsEntry names]
        | None => []
        end ++ base) (scopeStack st) →
  enterable KBlock owner base →
  ∃ owner' st',
    Program_exit opts env pathlib node owner st = Ok (node, owner') st'
    ∧ Forall2 entry_grows (without_top_marker base) (scopeStack st').
Proof.
  intros Hgrow Henter. unfold Program_exit.
  apply grows_frame in Hgrow as (below & Hstack & Hgrow).
  destruct (locals env) as [names|]; simpl in Hgrow.
  - apply grows_frame in Hgrow as (base' & -> & Hgrow).
    unfold bind at 1. erewrite pop_plain by done. unfold bind.
    destruct (pop_block_frame (BlockParamsEntry names) base' owner
                (with_stack (BlockParamsEntry names :: base') st) eq_refl
                (enterable_block_grows _ _ _ Hgrow Henter))
      as (owner' & st' & -> & Hgrow').
    eexists _, _. split; [reflexivity|].
    eapply entries_grow_trans; [|exact Hgrow']. by apply grows_without_top_marker.
  - unfold bind.
    destruct (pop_block_frame _ below owner st Hstack
                (enterable_block_grows _ _ _ Hgrow Henter))
      as (owner' & st' & -> & Hgrow').
    eexists _, _. split; [reflexivity|].
    eapply entries_grow_trans; [|exact Hgrow']. by apply grows_without_top_marker.
Qed.

Lemma ElementNode_exit_run tag attributes modifiers children comments blockParams loc
    owner frame base st :
  scopeStack st = frame :: base →
  (top_is_marker base = false
   ∨ ∃ marker below, base = MarkerEntry marker :: below
                     ∧ marker_exit marker = ExitElementNode) →
  ∃ node' st',
    ElementNode_exit opts env pathlib
      (ElementNode tag attributes modifiers children comments blockParams loc) owner st
    = Ok (node', owner) st'
    ∧ Forall2 entry_grows (without_top_marker base) (scopeStack st').
Proof.
  intros Hstack [Htop|(marker & below & -> & Hexit)]; unfold ElementNode_exit.
  - unfold bind. erewrite pop_plain by done. eexists _, _. split; [reflexivity|].
    simpl. destruct base as [|[]]; try done; apply entries_grow_refl.
  - unfold bind at 1, ScopeStack.pop, bind, get, set_stack. simpl.
    rewrite Hstack. simpl. unfold exit_of_element. rewrite Hexit. unfold bind.
    match goal with
    | |- context [handleDynamicComponentArguments _ _ _ ?cn ?names ?attrs ?st0] =>
        destruct (handleDynamicComponentArguments_rebinds opts env pathlib cn names
                    attrs st0) as (attributes' & st1 & -> & _ & Hgrow)
    end.
    simpl in Hgrow.
    apply grows_marker in Hgrow as (marker' & below' & Hstack1 & _ & Hgrow).
    eexists _, _. split; [reflexivity|]. simpl. by rewrite Hstack1.
Qed.

End Exits.

(** ** Walking a well-formed document *)

Lemma enterable_grows kind owner stack stack' :
  kind ≠ KBlock →
  Forall2 entry_grows stack stack' →
  enterable kind owner stack → enterable kind owner stack'.
Proof.
  intros Hkind Hgrow. destruct kind; try done; simpl; by rewrite (grows_top _ _ Hgrow).
Qed.

Ltac enter_node :=
  cbn [traverse getNodeHandler resolving_visitor on_Program on_BlockStatement
       on_SubExpression on_MustacheStatement on_ElementModifierStatement
       on_ElementNode on_enter enter exit run_handler mbind option_bind];
  unfold bind at 1.

Section Walk.

Variable opts : Options.
Variable env : Env.
Variable pathlib : PathLib.
Variable fuel : nat.

Notation v := (resolving_visitor opts env pathlib).

Hypothesis walks :
  ∀ kind node owner st,
    well_formed kind node = true →
    (height node ≤ fuel)%nat →
    enterable kind owner (scopeStack st) →
    ∃ node' owner' st',
      traverse fuel v node owner st = Ok (node', owner') st'
      ∧ Forall2 entry_grows (base_of kind (scopeStack st)) (scopeStack st').

Notation child := (fun c => let* r := traverse fuel v c None in ret (fst r)).

Lemma visit_child kind node st :
  kind ≠ KBlock →
  well_formed kind node = true →
  (height node ≤ fuel)%nat →
  enterable kind None (scopeStack st) →
  ∃ node' st',
    child node st = Ok node' st'
    ∧ Forall2 entry_grows (scopeStack st) (scopeStack st').
Proof.
  intros Hkind Hwf Hheight Henter. unfold bind.
  destruct (walks kind node None st Hwf Hheight Henter)
    as (node' & owner' & st' & -> & Hgrow).
  exists node', st'. split; [done|]. by destruct kind.
Qed.

Lemma visit_children kind nodes :
  kind ≠ KBlock →
  forallb (well_formed kind) nodes = true →
  (max_of (List.map height nodes) ≤ fuel)%nat →
  ∀ st,
    enterable kind None (scopeStack st) →
    ∃ nodes' st',
      visit_list child nodes st = Ok nodes' st'
      ∧ Forall2 entry_grows (scopeStack st) (scopeStack st').
Proof.
  intros Hkind. induction nodes as [|node nodes IH]; intros Hwf Hheight st Henter.
  { exists [], st. split; [done | apply entries_grow_refl]. }
  simpl in Hwf, Hheight. apply andb_true_iff in Hwf as [Hnode Hnodes].
  cbn [visit_list]. unfold bind at 1.
  destruct (visit_child kind node st Hkind Hnode ltac:(lia) Henter)
    as (node' & st1 & -> & Hgrow1).
  unfold bind at 1.
  destruct (IH Hnodes ltac:(lia) st1 (enterable_grows _ _ _ _ Hkind Hgrow1 Henter))
    as (nodes' & st' & -> & Hgrow).
  eexists _, _. split; [reflexivity|]. by eapply entries_grow_trans.
Qed.

(** The children of a call: its path, its params and its pairs. *)
Lemma visit_call (build : Node → list Node → list Node → Node) path params hash st :
  well_formed KExpression path = true →
  forallb (well_formed KExpression) params = true →
  forallb (well_formed KPair) hash = true →
  (height path ≤ fuel)%nat →
  (max_of (List.map height params) ≤ fuel)%nat →
  (max_of (List.map height hash) ≤ fuel)%nat →
  ∃ path' params' hash' st',
    (let* path' := child path in
     let* params' := visit_list child params in
     let* hash' := visit_list child hash in
     ret (build path' params' hash')) st = Ok (build path' params' hash') st'
    ∧ Forall2 entry_grows (scopeStack st) (scopeStack st').
Proof.
  intros Hpath Hparams Hhash Hp Hps Hh. unfold bind at 1.
  destruct (visit_child KExpression path st ltac:(done) Hpath Hp I)
    as (path' & st1 & -> & Hgrow1).
  unfold bind at 1.
  destruct (visit_children KExpression params ltac:(done) Hparams Hps st1 I)
    as (params' & st2 & -> & Hgrow2).
  unfold bind at 1.
  destruct (visit_children KPair hash ltac:(done) Hhash Hh st2 I)
    as (hash' & st3 & -> & Hgrow3).
  eexists _, _, _, _. split; [reflexivity|].
  eauto using entries_grow_trans.
Qed.

Lemma walk_step kind node owner st :
  well_formed kind node = true →
  (height node ≤ S fuel)%nat →
  enterable kind owner (scopeStack st) →
  ∃ node' owner' st',
    traverse (S fuel) v node owner st = Ok (node', owner') st'
    ∧ Forall2 entry_grows (base_of kind (scopeStack st)) (scopeStack st').
Proof.
  intros Hwf Hheight Henter.
  destruct node as [body blockParams loc|body blockParams loc|path params hash loc
                   |path params hash program inverse loc|path params hash loc
                   |tag attributes modifiers children comments blockParams loc
                   |name value loc|chars loc|parts loc|value loc|value loc
                   |path params hash loc|original this data parts loc|value loc
                   |value loc|value loc|loc|loc|key value loc].
  - (* Template *)
    destruct kind; try discriminate. simpl in Hwf, Hheight, Henter. enter_node.
    destruct (Program_enter_run env (Template body blockParams loc) owner st)
      as (st1 & -> & Hstack1).
    cbn [fst snd visit_keys]. unfold bind at 1, bind at 1.
    destruct (visit_children KStatement body ltac:(done) Hwf ltac:(lia) st1
                ltac:(by rewrite Hstack1))
      as (body' & st2 & -> & Hgrow2).
    unfold ret at 1. rewrite Hstack1 in Hgrow2.
    destruct (Program_exit_run opts env pathlib (Template body' blockParams loc) owner
                (scopeStack st) st2 Hgrow2)
      as (owner' & st' & -> & Hgrow).
    { simpl. by destruct (scopeStack st) as [|[]]. }
    eexists _, _, _. split; [reflexivity|]. simpl.
    by destruct (scopeStack st) as [|[]].
  - (* Block *)
    destruct kind; try discriminate. simpl in Hwf, Hheight. enter_node.
    destruct (Program_enter_run env (Block body blockParams loc) owner st)
      as (st1 & -> & Hstack1).
    cbn [fst snd visit_keys]. unfold bind at 1, bind at 1.
    destruct (visit_children KStatement body ltac:(done) Hwf ltac:(lia) st1
                ltac:(by rewrite Hstack1))
      as (body' & st2 & -> & Hgrow2).
    unfold ret at 1. rewrite Hstack1 in Hgrow2.
    destruct (Program_exit_run opts env pathlib (Block body' blockParams loc) owner
                (scopeStack st) st2 Hgrow2 Henter)
      as (owner' & st' & -> & Hgrow).
    by eexists _, _, _.
  - (* MustacheStatement *)
    assert (kind ≠ KBlock) as Hkind by (by destruct kind).
    assert (well_formed KExpression path && forallb (well_formed KExpression) params
            && forallb (well_formed KPair) hash = true) as Hparts
      by (by destruct kind).
    apply andb_true_iff in Hparts as [[Hpath Hparams]%andb_true_iff Hhash].
    cbn [height] in Hheight. enter_node.
    destruct (MustacheStatement_enter_run opts env pathlib path params hash loc owner st)
      as (path' & params' & hash' & st1 & -> & Hpath' & Hparams' & Hhash' & Hgrow1).
    cbn [fst snd visit_keys]. unfold bind at 1.
    destruct (renamed_settled _ _ Hpath' Hpath) as [Hwf1 Hh1].
    destruct (settled_list _ _ _ (first_renamed_settled _ _ Hparams') Hparams)
      as [Hwf2 Hh2].
    destruct (settled_list _ _ _ (settled_pairs _ _ Hhash') Hhash) as [Hwf3 Hh3].
    destruct (visit_call (fun p ps h => MustacheStatement p ps h loc) path' params' hash'
                st1 Hwf1 Hwf2 Hwf3 ltac:(lia) ltac:(lia) ltac:(lia))
      as (path2 & params2 & hash2 & st2 & -> & Hgrow2).
    eexists _, _, _. split; [reflexivity|].
    replace (base_of kind (scopeStack st)) with (scopeStack st) by (by destruct kind).
    by eapply entries_grow_trans.
  - (* BlockStatement *)
    destruct kind; try discriminate. simpl in Hwf, Henter. cbn [height] in Hheight.
    apply andb_true_iff in Hwf as [[[[Hpath Hparams]%andb_true_iff Hhash]%andb_true_iff
                                     Hprogram]%andb_true_iff Hinverse].
    enter_node.
    destruct (BlockStatement_handler_run opts env pathlib path params hash program
                inverse loc owner st)
      as (path' & params' & st1 & -> & Hpath' & Hparams' & Hentered).
    cbn [fst snd visit_keys]. unfold bind at 1, bind at 1.
    destruct (renamed_settled _ _ Hpath' Hpath) as [Hwf1 Hh1].
    destruct (settled_list _ _ _ (first_renamed_settled _ _ Hparams') Hparams)
      as [Hwf2 Hh2].
    destruct (visit_child KExpression path' st1 ltac:(done) Hwf1 ltac:(lia) I)
      as (path2 & st2 & -> & Hgrow2).
    unfold bind at 1.
    destruct (visit_children KExpression params' ltac:(done) Hwf2 ltac:(lia) st2 I)
      as (params2 & st3 & -> & Hgrow3).
    unfold bind at 1.
    destruct (visit_children KPair hash ltac:(done) Hhash ltac:(lia) st3 I)
      as (hash2 & st4 & -> & Hgrow4).
    assert (Forall2 entry_grows (scopeStack st1) (scopeStack st4)) as Hgrow14
      by eauto using entries_grow_trans.
    assert (enterable KBlock (Some hash2) (scopeStack st4)
            ∧ Forall2 entry_grows (scopeStack st) (without_top_marker (scopeStack st4)))
      as [Henter4 Hbase4].
    { destruct Hentered as [Hgrow1|(marker & rootName & Hstack1 & Hexit)].
      - assert (Forall2 entry_grows (scopeStack st) (scopeStack st4)) as Hgrow04
          by eauto using entries_grow_trans.
        pose proof (grows_top _ _ Hgrow04) as Htop. rewrite Henter in Htop.
        destruct (scopeStack st4) as [|[]]; done.
      - rewrite Hstack1 in Hgrow14.
        apply grows_marker in Hgrow14 as (marker' & below & -> & Hexit' & Hgrow04).
        simpl. rewrite (grows_top _ _ Hgrow04), Hexit', Hexit. eauto. }
    unfold bind at 1, bind at 1.
    destruct (walks KBlock program (Some hash2) st4 Hprogram ltac:(lia) Henter4)
      as (program' & owner1 & st5 & -> & Hgrow5).
    simpl in Hgrow5. unfold ret at 1. cbn [fst snd].
    assert (Forall2 entry_grows (scopeStack st) (scopeStack st5)) as Hgrow05
      by eauto using entries_grow_trans.
    destruct inverse as [block|].
    + unfold bind at 1, bind at 1.
      assert (enterable KBlock (Some (default hash2 owner1)) (scopeStack st5)) as Henter5.
      { pose proof (grows_top _ _ Hgrow05) as Htop. rewrite Henter in Htop.
        destruct (scopeStack st5) as [|[]]; done. }
      destruct (walks KBlock block (Some (default hash2 owner1)) st5 Hinverse
                  ltac:(lia) Henter5)
        as (block' & owner2 & st6 & -> & Hgrow6).
      eexists _, _, _. split; [reflexivity|].
      eapply entries_grow_trans; [exact Hgrow05|].
      simpl in Hgrow6. pose proof (grows_top _ _ Hgrow05) as Htop.
      rewrite Henter in Htop. destruct (scopeStack st5) as [|[]]; done.
    + by eexists _, _, _.
  - (* ElementModifierStatement *)
    destruct kind; try discriminate. simpl in Hwf. cbn [height] in Hheight.
    apply andb_true_iff in Hwf as [[Hpath Hparams]%andb_true_iff Hhash].
    enter_node.
    destruct (ElementModifierStatement_handler_run opts env pathlib path params hash loc
                owner st)
      as (path' & st1 & -> & Hpath' & Hstack1).
    cbn [fst snd visit_keys]. unfold bind at 1.
    destruct (renamed_settled _ _ Hpath' Hpath) as [Hwf1 Hh1].
    destruct (visit_call (fun p ps h => ElementModifierStatement p ps h loc) path' params
                hash st1 Hwf1 Hparams Hhash ltac:(lia) ltac:(lia) ltac:(lia))
      as (path2 & params2 & hash2 & st2 & -> & Hgrow2).
    eexists _, _, _. split; [reflexivity|]. simpl. by rewrite <- Hstack1.
  - (* ElementNode *)
    destruct kind; try discriminate. simpl in Hwf, Henter. cbn [height] in Hheight.
    apply andb_true_iff in Hwf as [[[Hattributes Hmodifiers]%andb_true_iff
                                    Hchildren]%andb_true_iff Hcomments].
    enter_node.
    destruct (ElementNode_enter_run opts env pathlib tag attributes modifiers children
                comments blockParams loc owner st)
      as (tag' & st1 & -> & Hentered).
    cbn [fst snd visit_keys]. unfold bind at 1, bind at 1.
    destruct (visit_children KAttribute attributes ltac:(done) Hattributes ltac:(lia)
                st1 I)
      as (attributes' & st2 & -> & Hgrow2).
    unfold bind at 1.
    destruct (visit_children KModifier modifiers ltac:(done) Hmodifiers ltac:(lia) st2 I)
      as (modifiers' & st3 & -> & Hgrow3).
    unfold bind at 1.
    assert (Forall2 entry_grows (scopeStack st1) (scopeStack st3)) as Hgrow13
      by eauto using entries_grow_trans.
    assert (top_is_marker (scopeStack st1) = false) as Htop1
      by (by destruct Hentered as [->|(marker & -> & _)]).
    destruct (visit_children KStatement children ltac:(done) Hchildren ltac:(lia) st3
                ltac:(simpl; by rewrite (grows_top _ _ Hgrow13)))
      as (children' & st4 & -> & Hgrow4).
    unfold bind at 1.
    destruct (visit_children KComment comments ltac:(done) Hcomments ltac:(lia) st4 I)
      as (comments' & st5 & -> & Hgrow5).
    unfold ret at 1.
    assert (Forall2 entry_grows (scopeStack st1) (scopeStack st5)) as Hgrow15
      by eauto using entries_grow_trans.
    destruct Hentered as [Hstack1|(marker & Hstack1 & Hexit)]; rewrite Hstack1 in Hgrow15;
      apply grows_frame in Hgrow15 as (base & Hstack5 & Hgrow).
    + destruct (ElementNode_exit_run opts env pathlib tag' attributes' modifiers'
                  children' comments' blockParams loc owner _ base st5 Hstack5)
        as (node' & st' & -> & Hgrow').
      { left. by rewrite (grows_top _ _ Hgrow). }
      eexists _, _, _. split; [reflexivity|]. simpl.
      eapply entries_grow_trans; [exact Hgrow|].
      pose proof (grows_top _ _ Hgrow) as Htop. rewrite Henter in Htop.
      destruct base as [|[]]; done.
    + apply grows_marker in Hgrow as (marker' & below & -> & Hexit' & Hgrow).
      destruct (ElementNode_exit_run opts env pathlib tag' attributes' modifiers'
                  children' comments' blockParams loc owner _ _ st5 Hstack5)
        as (node' & st' & -> & Hgrow').
      { right. eexists _, _. split; [done|]. congruence. }
      eexists _, _, _. split; [reflexivity|]. simpl.
      by eapply entries_grow_trans.
  - (* AttrNode *)
    destruct kind; try discriminate. simpl in Hwf, Hheight. enter_node.
    unfold ret at 1. cbn [fst snd visit_keys]. unfold bind at 1, bind at 1.
    destruct (visit_child KAttrValue value st ltac:(done) Hwf ltac:(lia) I)
      as (value' & st1 & -> & Hgrow1).
    by eexists _, _, _.
  - exists (TextNode chars loc), owner, st. split; [done|].
    destruct kind; try discriminate; apply entries_grow_refl.
  - (* ConcatStatement *)
    destruct kind; try discriminate. simpl in Hwf, Hheight. enter_node.
    unfold ret at 1. cbn [fst snd visit_keys]. unfold bind at 1, bind at 1.
    destruct (visit_children KAttrValue parts ltac:(done) Hwf ltac:(lia) st I)
      as (parts' & st1 & -> & Hgrow1).
    by eexists _, _, _.
  - exists (CommentStatement value loc), owner, st. split; [done|].
    destruct kind; try discriminate; apply entries_grow_refl.
  - exists (MustacheCommentStatement value loc), owner, st. split; [done|].
    destruct kind; try discriminate; apply entries_grow_refl.
  - (* SubExpression *)
    destruct kind; try discriminate. simpl in Hwf. cbn [height] in Hheight.
    apply andb_true_iff in Hwf as [[Hpath Hparams]%andb_true_iff Hhash].
    enter_node.
    destruct (SubExpression_handler_run opts env pathlib path params hash loc owner st)
      as (path' & params' & st1 & -> & Hpath' & Hparams' & Hgrow1).
    cbn [fst snd visit_keys]. unfold bind at 1.
    destruct (renamed_settled _ _ Hpath' Hpath) as [Hwf1 Hh1].
    destruct (settled_list _ _ _ (first_renamed_settled _ _ Hparams') Hparams)
      as [Hwf2 Hh2].
    destruct (visit_call (fun p ps h => SubExpression p ps h loc) path' params' hash
                st1 Hwf1 Hwf2 Hhash ltac:(lia) ltac:(lia) ltac:(lia))
      as (path2 & params2 & hash2 & st2 & -> & Hgrow2).
    eexists _, _, _. split; [reflexivity|]. simpl. by eapply entries_grow_trans.
  - exists (PathExpression original this data parts loc), owner, st. split; [done|].
    destruct kind; try discriminate; apply entries_grow_refl.
  - exists (StringLiteral value loc), owner, st. split; [done|].
    destruct kind; try discriminate; apply entries_grow_refl.
  - exists (BooleanLiteral value loc), owner, st. split; [done|].
    destruct kind; try discriminate; apply entries_grow_refl.
  - exists (NumberLiteral value loc), owner, st. split; [done|].
    destruct kind; try discriminate; apply entries_grow_refl.
  - exists (UndefinedLiteral loc), owner, st. split; [done|].
    destruct kind; try discriminate; apply entries_grow_refl.
  - exists (NullLiteral loc), owner, st. split; [done|].
    destruct kind; try discriminate; apply entries_grow_refl.
  - (* HashPair *)
    destruct kind; try discriminate. simpl in Hwf, Hheight. enter_node.
    unfold ret at 1. cbn [fst snd visit_keys]. unfold bind at 1, bind at 1.
    destruct (visit_child KExpression value st ltac:(done) Hwf ltac:(lia) I)
      as (value' & st1 & -> & Hgrow1).
    by eexists _, _, _.
Qed.

End Walk.

Lemma walk_total opts env pathlib fuel :
  ∀ kind node owner st,
    well_formed kind node = true →
    (height node ≤ fuel)%nat →
    enterable kind owner (scopeStack st) →
    ∃ node' owner' st',
      traverse fuel (resolving_visitor opts env pathlib) node owner st
      = Ok (node', owner') st'
      ∧ Forall2 entry_grows (base_of kind (scopeStack st)) (scopeStack st').
Proof.
  induction fuel as [|fuel IH]; intros kind node owner st Hwf Hheight Henter.
  { pose proof (height_pos node). lia. }
  by apply walk_step.
Qed.

(** X18. The transform of a well-formed document always returns: with
    fuel for the height of the document the traversal neither runs out of
    fuel nor calls an exit closure on a node that is not the one that
    entered its marker, whatever the Resolver answers and whether the
    environment is strict or not. At the end the scope stack is empty:
    every frame and every marker pushed on the way was popped. *)
Theorem well_formed_document_is_walked opts env pathlib fuel document :
  well_formed KTemplate document = true →
  (height document ≤ fuel)%nat →
  ∃ document' owner' st',
    transform opts env pathlib fuel document = Ok (document', owner') st'
    ∧ scopeStack st' = [].
Proof.
  intros Hwf Hheight. unfold transform, makeResolverTransform.
  destruct (strict env) as [[|]|];
    [ rewrite traverse_empty_visitor by done; by eexists _, _, _ | | ];
    (destruct (walk_total opts env pathlib fuel KTemplate document None initial_state
                 Hwf Hheight eq_refl)
       as (document' & owner' & st' & Hrun & Hgrow);
     exists document', owner', st'; split; [exact Hrun|]; by inversion Hgrow).
Qed.

Lemma well_formed_document_is_walked_witness :
  ∃ document' owner' st',
    transform Sample.opts Sample.env Sample.pathlib 6 Sample.shadowing_document
    = Ok (document', owner') st'
    ∧ scopeStack st' = [].
Proof.
  apply (well_formed_document_is_walked Sample.opts Sample.env Sample.pathlib 6
           Sample.shadowing_document); [reflexivity | vm_compute; lia].
Defined.

(** X19. When the environment is not strict, visiting a well-formed
    node, with fuel for its height, on a stack it can be entered on
    always returns, and leaves the scope stack
    balanced: the entries that were there are there again, at most with
    names appended to the lists of their markers, and nothing else is left
    on the stack. For the block of a block statement that has just
    entered its marker, that marker is gone as well. *)
Theorem well_formed_node_keeps_the_stack opts env pathlib fuel kind node owner st :
  strict env ≠ Some true →
  well_formed kind node = true →
  (height node ≤ fuel)%nat →
  enterable kind owner (scopeStack st) →
  ∃ node' owner' st',
    traverse fuel (visitor (makeResolverTransform opts env pathlib)) node owner st
    = Ok (node', owner') st'
    ∧ Forall2 entry_grows (base_of kind (scopeStack st)) (scopeStack st').
Proof.
  intros Hstrict. unfold makeResolverTransform.
  destruct (strict env) as [[|]|]; [done | |]; apply walk_total.
Qed.

Lemma well_formed_node_keeps_the_stack_witness :
  ∃ node' owner' st',
    traverse 3 (visitor (makeResolverTransform Sample.opts Sample.env Sample.pathlib))
      (Block [MustacheStatement (Sample.path "component" 3) [Sample.path "child" 4] [] 5]
             ["child"] 2)
      (Some [HashPair "target" (StringLiteral "my-component" 7) 8])
      (Sample.state_of [MarkerEntry (Sample.marker_of Sample.yields_argument);
                        BlockParamsEntry ["outer"]])
    = Ok (node', owner') st'
    ∧ Forall2 entry_grows [BlockParamsEntry ["outer"]] (scopeStack st').
Proof.
  apply (well_formed_node_keeps_the_stack Sample.opts Sample.env Sample.pathlib 3 KBlock
           (Block [MustacheStatement (Sample.path "component" 3) [Sample.path "child" 4]
                     [] 5] ["child"] 2)
           (Some [HashPair "target" (StringLiteral "my-component" 7) 8])
           (Sample.state_of [MarkerEntry (Sample.marker_of Sample.yields_argument);
                             BlockParamsEntry ["outer"]])).
  - done.
  - reflexivity.
  - vm_compute; lia.
  - simpl. split; [reflexivity|]. split; [by eexists | by eexists].
Defined.

(** ** Calls that are left alone *)

Lemma inScope_root_false parts st :
  (∀ root, head parts = Some root →
           ScopeStack.inScope_stack root (scopeStack st) = false) →
  inScope_root (head parts) st = Ok false st.
Proof.
  intros Hout. destruct (head parts) as [root|]; [|done].
  unfold inScope_root, ScopeStack.inScope, bind, get, ret. by rewrite (Hout root).
Qed.

Lemma inScope_root_true parts root st :
  head parts = Some root →
  ScopeStack.inScope_stack root (scopeStack st) = true →
  inScope_root (head parts) st = Ok true st.
Proof.
  intros -> Hin. unfold inScope_root, ScopeStack.inScope, bind, get, ret.
  by rewrite Hin.
Qed.

(** X20. A call whose path starts with [this] and whose first part is
    not in scope is left alone by all four handlers of calls: the node
    and the state are given back as they were, so the Resolver is not
    asked and nothing is bound or registered. *)
Theorem this_path_is_left_alone opts env pathlib original data parts pathLoc params hash
    program inverse loc owner st :
  let path := PathExpression original true data parts pathLoc in
  (∀ root, head parts = Some root →
           ScopeStack.inScope_stack root (scopeStack st) = false) →
  MustacheStatement_enter opts env pathlib (MustacheStatement path params hash loc)
                          owner st
  = Ok (MustacheStatement path params hash loc, owner) st
  ∧ BlockStatement_handler opts env pathlib
      (BlockStatement path params hash program inverse loc) owner st
    = Ok (BlockStatement path params hash program inverse loc, owner) st
  ∧ SubExpression_handler opts env pathlib (SubExpression path params hash loc) owner st
    = Ok (SubExpression path params hash loc, owner) st
  ∧ ElementModifierStatement_handler opts env pathlib
      (ElementModifierStatement path params hash loc) owner st
    = Ok (ElementModifierStatement path params hash loc, owner) st.
Proof.
  intros path Hout. pose proof (inScope_root_false parts st Hout) as Hroot.
  subst path. repeat split;
    cbn [MustacheStatement_enter BlockStatement_handler SubExpression_handler
         ElementModifierStatement_handler]; try done;
    unfold bind at 1; by rewrite Hroot.
Qed.

Lemma this_path_is_left_alone_witness :
  let path := PathExpression "this.title" true false ["title"] 1 in
  let st := Sample.state_of [BlockParamsEntry ["item"]] in
  MustacheStatement_enter Sample.opts Sample.env Sample.pathlib
    (MustacheStatement path [] [] 2) None st
  = Ok (MustacheStatement path [] [] 2, None) st.
Proof.
  intros path st.
  apply (this_path_is_left_alone Sample.opts Sample.env Sample.pathlib "this.title" false
           ["title"] 1 [] [] (Block [] [] 3) None 2 None st).
  by intros root [= <-].
Defined.

(** X21. A call whose path does not start with [this] and whose first
    part is in scope is left alone by the handlers of sub-expressions and
    of element modifiers, whatever the path is otherwise; and by the
    handlers of mustache and block statements as well, unless that first
    part is a name bound to a component. The node and the state are
    given back as they were. *)
Theorem scoped_call_is_left_alone opts env pathlib original data parts root pathLoc
    params hash program inverse loc owner st :
  let path := PathExpression original false data parts pathLoc in
  head parts = Some root →
  ScopeStack.inScope_stack root (scopeStack st) = true →
  SubExpression_handler opts env pathlib (SubExpression path params hash loc) owner st
  = Ok (SubExpression path params hash loc, owner) st
  ∧ ElementModifierStatement_handler opts env pathlib
      (ElementModifierStatement path params hash loc) owner st
    = Ok (ElementModifierStatement path params hash loc, owner) st
  ∧ ((∀ r, emittedLexicalBindings st !! root ≠ Some (ResComponent r)) →
     MustacheStatement_enter opts env pathlib (MustacheStatement path params hash loc)
                             owner st
     = Ok (MustacheStatement path params hash loc, owner) st
     ∧ BlockStatement_handler opts env pathlib
         (BlockStatement path params hash program inverse loc) owner st
       = Ok (BlockStatement path params hash program inverse loc, owner) st).
Proof.
  intros path Hhead Hin. pose proof (inScope_root_true parts root st Hhead Hin) as Hroot.
  subst path. split; [|split; [|intros Hnone; split]];
    cbn [MustacheStatement_enter BlockStatement_handler SubExpression_handler
         ElementModifierStatement_handler];
    unfold bind at 1; rewrite Hroot; try done;
    unfold bind at 1, lexical_binding at 1, bind at 1, get at 1, ret at 1;
    rewrite Hhead;
    destruct (emittedLexicalBindings st !! root) as [[r| | |]|] eqn:Hbound; try done;
    by destruct (Hnone r).
Qed.

Lemma scoped_call_is_left_alone_witness :
  let path := PathExpression "item.format" false false ["item"; "format"] 1 in
  let st := Sample.state_of [BlockParamsEntry ["item"]] in
  SubExpression_handler Sample.opts Sample.env Sample.pathlib
    (SubExpression path [] [] 2) None st
  = Ok (SubExpression path [] [] 2, None) st.
Proof.
  intros path st.
  apply (scoped_call_is_left_alone Sample.opts Sample.env Sample.pathlib "item.format"
           false ["item"; "format"] "item" 1 [] [] (Block [] [] 3) None 2 None st);
    reflexivity.
Defined.

(** ** The ledgers over a whole traversal *)

Lemma ledgers_grow_refl st : ledgers_grow st st.
Proof. by split. Qed.

Lemma ledgers_grow_trans st1 st2 st3 :
  ledgers_grow st1 st2 → ledgers_grow st2 st3 → ledgers_grow st1 st3.
Proof. intros [? ?] [? ?]. split; set_solver. Qed.

Lemma traversal_ledgers_grow opts env pathlib fuel document owner :
  respects ledgers_grow
    (traverse fuel (visitor (makeResolverTransform opts env pathlib)) document owner).
Proof.
  apply (respects_traverse ledgers_grow ledgers_grow_refl ledgers_grow_trans).
  apply (makeResolverTransform_respects ledgers_grow (fun _ => True));
    try (intros; exact I).
  - apply ledgers_grow_refl.
  - apply ledgers_grow_trans.
  - intros s st. by split.
  - intros name st a st'. rewrite safeComponentInScope_run. intros [= _ <-]. by split.
  - intros name r st a st' [= _ <-]. split; [done|]. simpl. set_solver.
  - intros e st a st' _ [= _ <-]. by split.
  - intros env0 pathlib0 dep st a st'. rewrite emitAMD_run.
    destruct dep as [dep|]; [case_bool_decide|]; intros [= _ <-]; split; simpl;
      set_solver.
Qed.

(** X22. Nothing leaves the two ledgers during a traversal: in any run
    that returns, every runtime name that was in [emittedAMDDeps] is
    still there and every name that was bound in
    [emittedLexicalBindings] is still bound. *)
Theorem ledgers_only_grow opts env pathlib fuel document owner st result st' :
  traverse fuel (visitor (makeResolverTransform opts env pathlib)) document owner st
  = Ok result st' →
  emittedAMDDeps st ⊆ emittedAMDDeps st'
  ∧ ∀ name, is_Some (emittedLexicalBindings st !! name) →
            is_Some (emittedLexicalBindings st' !! name).
Proof.
  intros Hrun. destruct (traversal_ledgers_grow _ _ _ _ _ _ _ _ _ Hrun) as [Hamd Hdom].
  split; [done|]. intros name Hbound. apply elem_of_dom. apply elem_of_dom in Hbound.
  set_solver.
Qed.

(** X23. The [helper] keyword in a sub-expression or a mustache
    statement, and the [modifier] keyword in a sub-expression, when they
    have a first param and the first part of their path is not in scope:
    the node is given back as it was, and so are the scope stack and both
    ledgers; the Resolver is asked about the first param when it is a
    string literal, once, and about nothing otherwise; its answer is
    neither bound nor registered. For the mustache statement the path
    has at most one part. *)
Theorem keyword_literal_is_only_asked_about opts env pathlib data parts pathLoc param0
    params hash loc owner st :
  let helper := PathExpression "helper" false data parts pathLoc in
  let modifier := PathExpression "modifier" false data parts pathLoc in
  let after asked :=
    mkState (scopeStack st) (emittedAMDDeps st) (emittedLexicalBindings st)
            (trace st ++ asked) in
  let about_helper :=
    match param0 with
    | StringLiteral value l => [EvResolveDynamicHelper (LocLiteral value) (filename env) l]
    | _ => []
    end in
  let about_modifier :=
    match param0 with
    | StringLiteral value l =>
        [EvResolveDynamicModifier (LocLiteral value) (filename env) l]
    | _ => []
    end in
  (∀ root, head parts = Some root →
           ScopeStack.inScope_stack root (scopeStack st) = false) →
  SubExpression_handler opts env pathlib
    (SubExpression helper (param0 :: params) hash loc) owner st
  = Ok (SubExpression helper (param0 :: params) hash loc, owner) (after about_helper)
  ∧ SubExpression_handler opts env pathlib
      (SubExpression modifier (param0 :: params) hash loc) owner st
    = Ok (SubExpression modifier (param0 :: params) hash loc, owner)
         (after about_modifier)
  ∧ ((length parts ≤ 1)%nat →
     MustacheStatement_enter opts env pathlib
       (MustacheStatement helper (param0 :: params) hash loc) owner st
     = Ok (MustacheStatement helper (param0 :: params) hash loc, owner)
          (after about_helper)).
Proof.
  intros helper modifier after about_helper about_modifier Hout.
  pose proof (inScope_root_false parts st Hout) as Hroot.
  assert (after [] = st) as Hsame.
  { unfold after. rewrite app_nil_r. by destruct st. }
  subst helper modifier about_helper about_modifier.
  split; [|split; [|intros Hone]];
    cbn [MustacheStatement_enter SubExpression_handler];
    unfold bind at 1; rewrite Hroot; cbn [keyword_argument];
    try (case_bool_decide; [lia|]);
    unfold keyword_argument; simpl; unfold bind;
    destruct param0; simpl; by rewrite ?Hsame.
Qed.

Lemma keyword_literal_is_only_asked_about_witness :
  SubExpression_handler Sample.opts Sample.env Sample.pathlib
    (SubExpression (Sample.path "helper" 1) [StringLiteral "format-date" 2] [] 3)
    None initial_state
  = Ok (SubExpression (Sample.path "helper" 1) [StringLiteral "format-date" 2] [] 3, None)
       (mkState [] ∅ ∅
          [EvResolveDynamicHelper (LocLiteral "format-date") "/app/templates/index.hbs" 2]).
Proof.
  apply (keyword_literal_is_only_asked_about Sample.opts Sample.env Sample.pathlib false
           ["helper"] 1 (StringLiteral "format-date" 2) [] [] 3 None initial_state).
  by intros root [= <-].
Defined.

Lemma ledgers_only_grow_witness :
  ∃ document st,
    transform Sample.patched_opts Sample.env Sample.pathlib 4 Sample.two_helper_calls
    = Ok (document, None) st
    ∧ emittedAMDDeps initial_state ⊆ emittedAMDDeps st
    ∧ ∀ name, is_Some (emittedLexicalBindings initial_state !! name) →
              is_Some (emittedLexicalBindings st !! name).
Proof.
  destruct (transform Sample.patched_opts Sample.env Sample.pathlib 4
              Sample.two_helper_calls) as [[document owner] st|e] eqn:Hrun;
    [|by vm_compute in Hrun].
  exists document, st.
  pose proof (ledgers_only_grow Sample.patched_opts Sample.env Sample.pathlib 4
                Sample.two_helper_calls None initial_state _ st Hrun) as Hgrow.
  vm_compute in Hrun. injection Hrun as <- <- <-.
  split; [reflexivity | exact Hgrow].
Defined.

(** ** A Resolver that resolves nothing *)

Lemma same_but_trace_refl st : same_but_trace st st.
Proof. by repeat split. Qed.

Lemma same_but_trace_trans st1 st2 st3 :
  same_but_trace st1 st2 → same_but_trace st2 st3 → same_but_trace st1 st3.
Proof. intros (? & ? & ?) (? & ? & ?). repeat split; congruence. Qed.

Lemma unmarked_same st st' : same_but_trace st st' → unmarked st → unmarked st'.
Proof. intros (Hstack & _ & Hbound) [? ?]. split; congruence. Qed.

Lemma unmarked_top stack : markers_of stack = [] → top_is_marker stack = false.
Proof. by destruct stack as [|[]]. Qed.

Lemma scan_unmarked part0 part1 stack :
  markers_of stack = [] → ScopeStack.scan part0 part1 stack = (false, stack).
Proof.
  induction stack as [|here rest IH]; [done|]. intros Hfree.
  destruct here as [blockParams|marker]; [|done]. simpl in Hfree.
  cbn [ScopeStack.scan]. destruct rest as [|[blockParams'|next] above]; [done | | done].
  by rewrite IH.
Qed.

Lemma safeComponentInScope_unmarked name st :
  markers_of (scopeStack st) = [] →
  ScopeStack.safeComponentInScope name st = Ok false st.
Proof.
  intros Hfree. rewrite safeComponentInScope_run.
  unfold ScopeStack.safeComponentInScope_stack.
  destruct (JS.split "." name) as [|part0 [|part1 [|part2 parts]]];
    rewrite ?scan_unmarked by done; simpl; by rewrite with_stack_same.
Qed.

Lemma handleComponentHelper_quiet resolver param moduleName impliedBecause st :
  resolves_nothing resolver →
  markers_of (scopeStack st) = [] →
  ∃ st',
    handleComponentHelper resolver param moduleName impliedBecause st = Ok None st'
    ∧ same_but_trace st st'.
Proof.
  intros (_ & _ & _ & _ & Hquiet) Hfree.
  assert (∀ locator (p : Node),
            ∃ st', resolve_locator resolver locator p moduleName impliedBecause st
                   = Ok None st'
                   ∧ same_but_trace st st') as Hlocator.
  { intros locator p. unfold resolve_locator, bind at 1.
    assert (match locator with
            | LocPath path => ScopeStack.safeComponentInScope path
            | _ => ret false
            end st = Ok false st) as ->
      by (destruct locator; [done | by apply safeComponentInScope_unmarked | done]).
    unfold bind, log. rewrite Hquiet. eexists. by split. }
  induction param; cbn [handleComponentHelper]; try apply Hlocator.
  - repeat case_match; first [apply Hlocator | by eexists | done].
  - repeat case_match; first [apply Hlocator | by eexists].
Qed.

Section Quiet.

Variable opts : Options.
Variable env : Env.
Variable pathlib : PathLib.
Hypothesis resolver_quiet : resolves_nothing (resolver opts).

Ltac quiet_start :=
  match goal with
  | |- ∀ node, _ =>
      intros node owner st [Hfree Hbound];
      destruct node as [| |path ? ? ?|path ? ? ? ? ?|path ? ? ?| | | | | | |path ? ? ?
                       | | | | | | |];
      try (by eexists; split; [|apply same_but_trace_refl]);
      destruct path as [| | | | | | | | | | | |original this data parts pathLoc| | | | | |];
      try (by eexists; split; [|apply same_but_trace_refl])
  end.

Lemma lexical_binding_unbound rootName st :
  emittedLexicalBindings st = ∅ → lexical_binding rootName st = Ok None st.
Proof.
  intros Hbound. unfold lexical_binding, bind, get, ret. rewrite Hbound.
  by destruct rootName.
Qed.

Ltac quiet_keyword :=
  unfold bind;
  match goal with
  | |- context [handleComponentHelper ?r ?param ?m ?i ?st0] =>
      destruct (handleComponentHelper_quiet r param m i st0
                  resolver_quiet ltac:(assumption)) as (st1 & -> & Hsame);
      simpl; by eexists
  end.

Ltac quiet_end :=
  destruct resolver_quiet as (Hm & Hs & Hem & He & Hc);
  unfold bind, log; rewrite ?Hm, ?Hs, ?Hem, ?He; simpl; eexists; by split.

Lemma MustacheStatement_enter_quiet :
  ∀ node owner st,
    unmarked st →
    ∃ st', MustacheStatement_enter opts env pathlib node owner st = Ok (node, owner) st'
           ∧ same_but_trace st st'.
Proof.
  quiet_start. cbn [MustacheStatement_enter]. unfold bind at 1.
  destruct (inScope_root_run (head parts) st) as [scoped ->].
  destruct scoped.
  { unfold bind. rewrite lexical_binding_unbound by done.
    eexists. split; [done | apply same_but_trace_refl]. }
  destruct this; [by eexists; split; [|apply same_but_trace_refl]|].
  case_bool_decide; [by eexists; split; [|apply same_but_trace_refl]|].
  destruct (keyword_argument "component" original _) as [param0|]; [quiet_keyword|].
  destruct (keyword_argument "helper" original _) as [param0|].
  { unfold bind. destruct param0; by eexists. }
  quiet_end.
Qed.

Lemma SubExpression_handler_quiet :
  ∀ node owner st,
    unmarked st →
    ∃ st', SubExpression_handler opts env pathlib node owner st = Ok (node, owner) st'
           ∧ same_but_trace st st'.
Proof.
  quiet_start. cbn [SubExpression_handler].
  destruct this; [by eexists; split; [|apply same_but_trace_refl]|].
  unfold bind at 1. destruct (inScope_root_run (head parts) st) as [scoped ->].
  destruct scoped; [by eexists; split; [|apply same_but_trace_refl]|].
  destruct (keyword_argument "component" original _) as [param0|]; [quiet_keyword|].
  destruct (keyword_argument "helper" original _) as [param0|].
  { unfold bind. destruct param0; by eexists. }
  destruct (keyword_argument "modifier" original _) as [param0|].
  { unfold bind. destruct param0; by eexists. }
  quiet_end.
Qed.

Lemma ElementModifierStatement_handler_quiet :
  ∀ node owner st,
    unmarked st →
    ∃ st', ElementModifierStatement_handler opts env pathlib node owner st
           = Ok (node, owner) st'
           ∧ same_but_trace st st'.
Proof.
  quiet_start. cbn [ElementModifierStatement_handler]. unfold bind at 1.
  destruct (inScope_root_run (head parts) st) as [scoped ->].
  destruct scoped; [by eexists; split; [|apply same_but_trace_refl]|].
  destruct this; [by eexists; split; [|apply same_but_trace_refl]|].
  destruct data; [by eexists; split; [|apply same_but_trace_refl]|].
  case_bool_decide; [by eexists; split; [|apply same_but_trace_refl]|].
  quiet_end.
Qed.

Lemma BlockStatement_handler_quiet :
  ∀ node owner st,
    unmarked st →
    ∃ st', BlockStatement_handler opts env pathlib node owner st = Ok (node, owner) st'
           ∧ same_but_trace st st'.
Proof.
  quiet_start. cbn [BlockStatement_handler]. unfold bind at 1.
  destruct (inScope_root_run (head parts) st) as [scoped ->].
  destruct scoped.
  { unfold bind. rewrite lexical_binding_unbound by done.
    eexists. split; [done | apply same_but_trace_refl]. }
  destruct this; [by eexists; split; [|apply same_but_trace_refl]|].
  case_bool_decide; [by eexists; split; [|apply same_but_trace_refl]|].
  destruct (keyword_argument "component" original _) as [param0|]; [quiet_keyword|].
  quiet_end.
Qed.

Lemma ElementNode_enter_quiet tag attributes modifiers children comments blockParams loc
    owner st :
  unmarked st →
  ∃ st',
    ElementNode_enter opts env pathlib
      (ElementNode tag attributes modifiers children comments blockParams loc) owner st
    = Ok (ElementNode tag attributes modifiers children comments blockParams loc, owner)
         st'
    ∧ same_but_trace (with_stack (BlockParamsEntry blockParams :: scopeStack st) st) st'.
Proof.
  intros [Hfree Hbound]. cbn [ElementNode_enter].
  unfold bind at 1, ScopeStack.inScope at 1, bind at 1, get at 1, ret at 1.
  destruct (ScopeStack.inScope_stack (tag_root tag) (scopeStack st)).
  - unfold bind. rewrite lexical_binding_unbound by done. simpl.
    eexists. split; [done|]. by repeat split.
  - destruct resolver_quiet as (Hm & Hs & Hem & He & Hc).
    unfold bind, log. rewrite He. simpl. eexists. split; [done|]. by repeat split.
Qed.

Lemma Program_enter_pushes node owner st :
  Program_enter env node owner st
  = Ok (node, owner)
       (with_stack (BlockParamsEntry (node_blockParams node)
                    :: match locals env with
                       | Some names => [BlockParamsEntry names]
                       | None => []
                       end ++ scopeStack st) st).
Proof. unfold Program_enter. by destruct (locals env). Qed.

Lemma Program_exit_quiet node owner base st :
  scopeStack st
  = BlockParamsEntry (node_blockParams node)
    :: match locals env with
       | Some names => [BlockParamsEntry names]
       | None => []
       end ++ base →
  markers_of base = [] →
  Program_exit opts env pathlib node owner st = Ok (node, owner) (with_stack base st).
Proof.
  intros Hstack Hfree. unfold Program_exit. destruct (locals env) as [names|].
  - unfold bind at 1. erewrite pop_plain by done. unfold bind.
    erewrite pop_plain; [done | done | by apply unmarked_top].
  - unfold bind. erewrite pop_plain; [done | done | by apply unmarked_top].
Qed.

Lemma ElementNode_exit_quiet node owner frame base st :
  scopeStack st = frame :: base →
  markers_of base = [] →
  ElementNode_exit opts env pathlib node owner st = Ok (node, owner) (with_stack base st).
Proof.
  intros Hstack Hfree. unfold ElementNode_exit, bind.
  erewrite pop_plain; [done | done | by apply unmarked_top].
Qed.

Variable fuel : nat.

Notation v := (resolving_visitor opts env pathlib).

Hypothesis walks :
  ∀ node owner st,
    unmarked st →
    (height node ≤ fuel)%nat →
    ∃ st', traverse fuel v node owner st = Ok (node, owner) st'
           ∧ same_but_trace st st'.

Notation child := (fun c => let* r := traverse fuel v c None in ret (fst r)).

Lemma quiet_child node st :
  unmarked st →
  (height node ≤ fuel)%nat →
  ∃ st', child node st = Ok node st' ∧ same_but_trace st st'.
Proof.
  intros Hst Hheight. unfold bind.
  destruct (walks node None st Hst Hheight) as (st' & -> & Hsame). by eexists.
Qed.

Lemma quiet_children nodes :
  (max_of (List.map height nodes) ≤ fuel)%nat →
  ∀ st,
    unmarked st →
    ∃ st', visit_list child nodes st = Ok nodes st' ∧ same_but_trace st st'.
Proof.
  induction nodes as [|node nodes IH]; intros Hheight st Hst.
  { exists st. split; [done | apply same_but_trace_refl]. }
  simpl in Hheight. cbn [visit_list]. unfold bind at 1.
  destruct (quiet_child node st Hst ltac:(lia)) as (st1 & -> & Hsame1).
  unfold bind at 1.
  destruct (IH ltac:(lia) st1 (unmarked_same _ _ Hsame1 Hst)) as (st' & -> & Hsame).
  eexists. split; [reflexivity|]. by eapply same_but_trace_trans.
Qed.

Lemma quiet_call (build : Node → list Node → list Node → Node) path params hash st :
  unmarked st →
  (height path ≤ fuel)%nat →
  (max_of (List.map height params) ≤ fuel)%nat →
  (max_of (List.map height hash) ≤ fuel)%nat →
  ∃ st',
    (let* path' := child path in
     let* params' := visit_list child params in
     let* hash' := visit_list child hash in
     ret (build path' params' hash')) st = Ok (build path params hash) st'
    ∧ same_but_trace st st'.
Proof.
  intros Hst Hp Hps Hh. unfold bind at 1.
  destruct (quiet_child path st Hst Hp) as (st1 & -> & Hsame1).
  pose proof (unmarked_same _ _ Hsame1 Hst) as Hst1. unfold bind at 1.
  destruct (quiet_children params Hps st1 Hst1) as (st2 & -> & Hsame2).
  pose proof (unmarked_same _ _ Hsame2 Hst1) as Hst2. unfold bind at 1.
  destruct (quiet_children hash Hh st2 Hst2) as (st3 & -> & Hsame3).
  eexists. split; [reflexivity|]. eauto using same_but_trace_trans.
Qed.

Lemma quiet_step node owner st :
  unmarked st →
  (height node ≤ S fuel)%nat →
  ∃ st', traverse (S fuel) v node owner st = Ok (node, owner) st'
         ∧ same_but_trace st st'.
Proof.
  intros Hst Hheight.
  assert (∀ st0 st1 base,
            same_but_trace st0 st1 → scopeStack st0 = base → scopeStack st1 = base)
    as Hkept by (intros ? ? ? (-> & _) ?; done).
  assert (∀ stack st1 st2,
            same_but_trace (with_stack stack st) st1 → same_but_trace st1 st2 →
            same_but_trace st (with_stack (scopeStack st) st2)) as Hrestored.
  { intros stack st1 st2 (_ & Hamd1 & Hbound1) (_ & Hamd2 & Hbound2).
    simpl in Hamd1, Hbound1. repeat split; simpl; congruence. }
  assert (∀ stack st1,
            same_but_trace (with_stack stack st) st1 →
            markers_of stack = [] → unmarked st1) as Hpushed.
  { intros stack st1 (Hstack1 & _ & Hbound1) Hfree. destruct Hst as [_ Hbound].
    simpl in Hstack1, Hbound1. split; [by rewrite Hstack1 | by rewrite Hbound1]. }
  destruct node as [body blockParams loc|body blockParams loc|path params hash loc
                   |path params hash program inverse loc|path params hash loc
                   |tag attributes modifiers children comments blockParams loc
                   |name value loc|chars loc|parts loc|value loc|value loc
                   |path params hash loc|original this data parts loc|value loc
                   |value loc|value loc|loc|loc|key value loc];
    try (exists st; split; [done | apply same_but_trace_refl]);
    cbn [height] in Hheight; enter_node.
  - (* Template *)
    rewrite Program_enter_pushes. cbn [fst snd visit_keys]. unfold bind at 1, bind at 1.
    match goal with
    | |- context [visit_list _ body ?st0] =>
        destruct (quiet_children body ltac:(lia) st0) as (st2 & -> & Hsame2);
        [ eapply Hpushed; [apply same_but_trace_refl|]; simpl;
          destruct (locals env); apply Hst |]
    end.
    unfold ret at 1.
    erewrite Program_exit_quiet;
      [ | by erewrite Hkept; [|exact Hsame2|reflexivity] | apply Hst ].
    eexists. split; [reflexivity|].
    eapply Hrestored; [apply same_but_trace_refl | exact Hsame2].
  - (* Block *)
    rewrite Program_enter_pushes. cbn [fst snd visit_keys]. unfold bind at 1, bind at 1.
    match goal with
    | |- context [visit_list _ body ?st0] =>
        destruct (quiet_children body ltac:(lia) st0) as (st2 & -> & Hsame2);
        [ eapply Hpushed; [apply same_but_trace_refl|]; simpl;
          destruct (locals env); apply Hst |]
    end.
    unfold ret at 1.
    erewrite Program_exit_quiet;
      [ | by erewrite Hkept; [|exact Hsame2|reflexivity] | apply Hst ].
    eexists. split; [reflexivity|].
    eapply Hrestored; [apply same_but_trace_refl | exact Hsame2].
  - (* MustacheStatement *)
    destruct (MustacheStatement_enter_quiet (MustacheStatement path params hash loc)
                owner st Hst) as (st1 & -> & Hsame1).
    cbn [fst snd visit_keys]. unfold bind at 1.
    destruct (quiet_call (fun p ps h => MustacheStatement p ps h loc) path params hash st1
                (unmarked_same _ _ Hsame1 Hst) ltac:(lia) ltac:(lia) ltac:(lia))
      as (st2 & -> & Hsame2).
    eexists. split; [reflexivity|]. by eapply same_but_trace_trans.
  - (* BlockStatement *)
    destruct (BlockStatement_handler_quiet
                (BlockStatement path params hash program inverse loc) owner st Hst)
      as (st1 & -> & Hsame1).
    pose proof (unmarked_same _ _ Hsame1 Hst) as Hst1.
    cbn [fst snd visit_keys]. unfold bind at 1, bind at 1.
    destruct (quiet_child path st1 Hst1 ltac:(lia)) as (st2 & -> & Hsame2).
    pose proof (unmarked_same _ _ Hsame2 Hst1) as Hst2. unfold bind at 1.
    destruct (quiet_children params ltac:(lia) st2 Hst2) as (st3 & -> & Hsame3).
    pose proof (unmarked_same _ _ Hsame3 Hst2) as Hst3. unfold bind at 1.
    destruct (quiet_children hash ltac:(lia) st3 Hst3) as (st4 & -> & Hsame4).
    pose proof (unmarked_same _ _ Hsame4 Hst3) as Hst4. unfold bind at 1, bind at 1.
    destruct (walks program (Some hash) st4 Hst4 ltac:(lia)) as (st5 & -> & Hsame5).
    pose proof (unmarked_same _ _ Hsame5 Hst4) as Hst5.
    unfold ret at 1. cbn [fst snd default id].
    destruct inverse as [block|].
    + unfold bind at 1, bind at 1.
      destruct (walks block (Some hash) st5 Hst5 ltac:(lia)) as (st6 & -> & Hsame6).
      eexists. split; [reflexivity|]. eauto 10 using same_but_trace_trans.
    + eexists. split; [reflexivity|]. eauto 10 using same_but_trace_trans.
  - (* ElementModifierStatement *)
    destruct (ElementModifierStatement_handler_quiet
                (ElementModifierStatement path params hash loc) owner st Hst)
      as (st1 & -> & Hsame1).
    cbn [fst snd visit_keys]. unfold bind at 1.
    destruct (quiet_call (fun p ps h => ElementModifierStatement p ps h loc) path params
                hash st1 (unmarked_same _ _ Hsame1 Hst) ltac:(lia) ltac:(lia) ltac:(lia))
      as (st2 & -> & Hsame2).
    eexists. split; [reflexivity|]. by eapply same_but_trace_trans.
  - (* ElementNode *)
    destruct (ElementNode_enter_quiet tag attributes modifiers children comments
                blockParams loc owner st Hst) as (st1 & -> & Hsame1).
    pose proof (Hpushed _ _ Hsame1 (proj1 Hst)) as Hst1.
    cbn [fst snd visit_keys]. unfold bind at 1, bind at 1.
    destruct (quiet_children attributes ltac:(lia) st1 Hst1) as (st2 & -> & Hsame2).
    pose proof (unmarked_same _ _ Hsame2 Hst1) as Hst2. unfold bind at 1.
    destruct (quiet_children modifiers ltac:(lia) st2 Hst2) as (st3 & -> & Hsame3).
    pose proof (unmarked_same _ _ Hsame3 Hst2) as Hst3. unfold bind at 1.
    destruct (quiet_children children ltac:(lia) st3 Hst3) as (st4 & -> & Hsame4).
    pose proof (unmarked_same _ _ Hsame4 Hst3) as Hst4. unfold bind at 1.
    destruct (quiet_children comments ltac:(lia) st4 Hst4) as (st5 & -> & Hsame5).
    unfold ret at 1.
    assert (same_but_trace st1 st5) as Hsame15 by eauto using same_but_trace_trans.
    erewrite ElementNode_exit_quiet;
      [ | erewrite Hkept; [reflexivity | exact Hsame15 | apply Hsame1] | apply Hst ].
    eexists. split; [reflexivity|]. eapply Hrestored; [exact Hsame1 | exact Hsame15].
  - (* AttrNode *)
    unfold ret at 1. cbn [fst snd visit_keys]. unfold bind at 1, bind at 1.
    destruct (quiet_child value st Hst ltac:(lia)) as (st1 & -> & Hsame1). by eexists.
  - (* ConcatStatement *)
    unfold ret at 1. cbn [fst snd visit_keys]. unfold bind at 1, bind at 1.
    destruct (quiet_children parts ltac:(lia) st Hst) as (st1 & -> & Hsame1). by eexists.
  - (* SubExpression *)
    destruct (SubExpression_handler_quiet (SubExpression path params hash loc)
                owner st Hst) as (st1 & -> & Hsame1).
    cbn [fst snd visit_keys]. unfold bind at 1.
    destruct (quiet_call (fun p ps h => SubExpression p ps h loc) path params hash st1
                (unmarked_same _ _ Hsame1 Hst) ltac:(lia) ltac:(lia) ltac:(lia))
      as (st2 & -> & Hsame2).
    eexists. split; [reflexivity|]. by eapply same_but_trace_trans.
  - (* HashPair *)
    unfold ret at 1. cbn [fst snd visit_keys]. unfold bind at 1, bind at 1.
    destruct (quiet_child value st Hst ltac:(lia)) as (st1 & -> & Hsame1). by eexists.
Qed.

End Quiet.

Lemma quiet_walk opts env pathlib fuel :
  resolves_nothing (resolver opts) →
  ∀ node owner st,
    unmarked st →
    (height node ≤ fuel)%nat →
    ∃ st', traverse fuel (resolving_visitor opts env pathlib) node owner st
           = Ok (node, owner) st'
           ∧ same_but_trace st st'.
Proof.
  intros Hquiet. induction fuel as [|fuel IH]; intros node owner st Hst Hheight.
  { pose proof (height_pos node). lia. }
  by apply quiet_step.
Qed.

(** X24. When the Resolver answers [null] to every question, the
    transform of any document, with fuel for its height, returns the
    document unchanged, with the scope stack and both ledgers empty as at
    the start: no import was bound and no module registered. *)
Theorem nothing_resolved_nothing_changed opts env pathlib fuel document :
  resolves_nothing (resolver opts) →
  (height document ≤ fuel)%nat →
  ∃ st',
    transform opts env pathlib fuel document = Ok (document, None) st'
    ∧ same_but_trace initial_state st'.
Proof.
  intros Hquiet Hheight. unfold transform, makeResolverTransform.
  destruct (strict env) as [[|]|];
    [ rewrite traverse_empty_visitor by done; eexists; split;
      [done | apply same_but_trace_refl] | | ];
    by apply quiet_walk.
Qed.

Lemma nothing_resolved_nothing_changed_witness :
  ∃ st',
    transform Sample.silent_opts Sample.env Sample.pathlib 6 Sample.shadowing_document
    = Ok (Sample.shadowing_document, None) st'
    ∧ same_but_trace initial_state st'.
Proof.
  apply (nothing_resolved_nothing_changed Sample.silent_opts Sample.env Sample.pathlib 6
           Sample.shadowing_document); [by repeat split | vm_compute; lia].
Defined.

(** ** Names that have no attribute, names that a program brings *)

(** X25. [handleDynamicComponentArguments] skips silently every name for
    which the node has no attribute or pair: when none of the names is
    found, the attributes and the state are given back as they were, and
    the Resolver is not asked. *)
Theorem unnamed_arguments_are_skipped opts env pathlib componentName names attributes st :
  Forall (fun name => find_attr name attributes = None) names →
  handleDynamicComponentArguments opts env pathlib componentName names attributes st
  = Ok attributes st.
Proof.
  induction 1 as [|name names Hname _ IH]; [done|].
  cbn [handleDynamicComponentArguments]. unfold bind. by rewrite Hname.
Qed.

Lemma unnamed_arguments_are_skipped_witness :
  handleDynamicComponentArguments Sample.opts Sample.env Sample.pathlib
    (Some "my-component") ["target"; "footer"]
    [HashPair "title" (StringLiteral "my-component" 1) 2] initial_state
  = Ok [HashPair "title" (StringLiteral "my-component" 1) 2] initial_state.
Proof.
  apply (unnamed_arguments_are_skipped Sample.opts Sample.env Sample.pathlib
           (Some "my-component") ["target"; "footer"]
           [HashPair "title" (StringLiteral "my-component" 1) 2] initial_state).
  repeat constructor.
Defined.

(** X26. Entering a [Template] or a [Block] always returns the node as it
    is, and brings into scope the block params of the node and, for
    every block and not only for the template, the [locals] of the
    environment: afterwards a name is in scope exactly when it is one of
    those or was in scope before. *)
Theorem program_names_come_into_scope env node owner st :
  ∃ st',
    Program_enter env node owner st = Ok (node, owner) st'
    ∧ ∀ name,
        ScopeStack.inScope_stack name (scopeStack st') = true
        ↔ name ∈ node_blockParams node
          ∨ (∃ names, locals env = Some names ∧ name ∈ names)
          ∨ ScopeStack.inScope_stack name (scopeStack st) = true.
Proof.
  unfold Program_enter. destruct (locals env) as [names|]; eexists;
    (split; [reflexivity|]); intros name; simpl; unfold JS.includes;
    rewrite !orb_true_iff, ?bool_decide_eq_true.
  - split; [intros [?|[?|?]]; eauto | intros [?|[(? & [= <-] & ?)|?]]; eauto].
  - split; [intros [?|?]; eauto | intros [?|[(? & [=] & _)|?]]; eauto].
Qed.

(** ** Where the frame of a marked block sits *)

(** The block of a block statement is entered with the marker of the
    statement on top. Without [locals] its block params are pushed
    directly on the marker, and a one-segment path naming one of them, at
    the first slot [i] holding the name, with [yieldsComponents[i] ===
    true], is passed to [component] with no question to the Resolver. *)
Lemma yielded_param_is_safe_in_block_body resolver env node owner st marker below
    name i this data parts loc moduleName impliedBecause :
  locals env = None →
  scopeStack st = MarkerEntry marker :: below →
  one_segment name →
  JS.indexOf (node_blockParams node) name = Some i →
  yieldsComponents (marker_resolution marker) !! i = Some (YCFlag true) →
  ∃ st',
    Program_enter env node owner st = Ok (node, owner) st'
    ∧ scopeStack st'
      = BlockParamsEntry (node_blockParams node) :: MarkerEntry marker :: below
    ∧ handleComponentHelper resolver (PathExpression name this data parts loc)
                            moduleName impliedBecause st' = Ok None st'.
Proof.
  intros Hlocals Hstack Hone Hidx Hyield. rewrite Program_enter_pushes, Hlocals, Hstack.
  eexists. split; [reflexivity|]. split; [reflexivity|].
  assert (∀ st', scopeStack st' = BlockParamsEntry (node_blockParams node)
                                  :: MarkerEntry marker :: below →
                 ScopeStack.safeComponentInScope_stack name (scopeStack st')
                 = (true, scopeStack st')) as Hscan.
  { intros st' ->. rewrite (safeComponentInScope_one_segment _ _ Hone).
    rewrite (scan_at_binding _ _ _ _ _ _ Hidx).
    unfold ScopeStack.covered_by. by rewrite Hyield. }
  rewrite handleComponentHelper_safe_path; rewrite Hscan by done; [|done].
  simpl. by rewrite with_stack_twice.
Qed.

(** An element pushes its block params directly on its marker, with or
    without [locals]. *)
Lemma yielded_param_is_safe_in_element opts env pathlib tag attributes modifiers
    children comments blockParams loc owner st :
  ∃ tag' st',
    ElementNode_enter opts env pathlib
      (ElementNode tag attributes modifiers children comments blockParams loc) owner st
    = Ok (ElementNode tag' attributes modifiers children comments blockParams loc, owner)
         st'
    ∧ (scopeStack st' = BlockParamsEntry blockParams :: scopeStack st
       ∨ ∃ marker,
           scopeStack st'
           = BlockParamsEntry blockParams :: MarkerEntry marker :: scopeStack st
           ∧ ∀ resolver name i this data parts pathLoc moduleName impliedBecause,
               one_segment name →
               JS.indexOf blockParams name = Some i →
               yieldsComponents (marker_resolution marker) !! i = Some (YCFlag true) →
               handleComponentHelper resolver
                 (PathExpression name this data parts pathLoc) moduleName
                 impliedBecause st' = Ok None st').
Proof.
  destruct (ElementNode_enter_run opts env pathlib tag attributes modifiers children
              comments blockParams loc owner st)
    as (tag' & st' & Hrun & [Hstack|(marker & Hstack & _)]);
    exists tag', st'; (split; [exact Hrun|]); [by left|].
  right. exists marker. split; [done|].
  intros resolver name i this data parts pathLoc moduleName impliedBecause Hone Hidx
    Hyield.
  assert (ScopeStack.safeComponentInScope_stack name (scopeStack st')
          = (true, scopeStack st')) as Hscan.
  { rewrite Hstack, (safeComponentInScope_one_segment _ _ Hone).
    rewrite (scan_at_binding _ _ _ _ _ _ Hidx).
    unfold ScopeStack.covered_by. by rewrite Hyield. }
  rewrite handleComponentHelper_safe_path; rewrite Hscan; [|done].
  simpl. by rewrite with_stack_same.
Qed.

(** With [locals], the block of a block statement pushes them between the
    marker of the statement and its own block params: no name that is
    not one of the locals is found at the marker, whatever the component
    yields, and unless an outer marked block binds it a one-segment path
    of that name is not safe. *)
Lemma locals_come_between_marker_and_params env node owner st marker below names name :
  locals env = Some names →
  scopeStack st = MarkerEntry marker :: below →
  one_segment name →
  name ∉ names →
  bound_by_marked_block name below = false →
  ∃ st',
    Program_enter env node owner st = Ok (node, owner) st'
    ∧ scopeStack st'
      = BlockParamsEntry (node_blockParams node) :: BlockParamsEntry names
        :: MarkerEntry marker :: below
    ∧ ScopeStack.safeComponentInScope name st' = Ok false st'.
Proof.
  intros Hlocals Hstack Hone Hout Hfree. rewrite Program_enter_pushes, Hlocals, Hstack.
  eexists. split; [reflexivity|]. split; [reflexivity|].
  rewrite safeComponentInScope_run, (safeComponentInScope_one_segment _ _ Hone).
  rewrite scan_unbound; [simpl; by rewrite with_stack_twice|].
  simpl. rewrite Hfree, orb_false_r. apply bool_decide_eq_false. intros [i Hidx].
  by apply indexOf_elem in Hidx.
Qed.
